(** * TaskFlow API: cache keys, rate limiting, task mutations and the job consumer

    A shallow embedding of the TaskFlow service core:
    - [TasksService] (src/modules/tasks/tasks.service.ts),
    - [RateLimitGuard] (src/common/guards/rate-limit.guard.ts),
    - [CacheService] (src/common/services/cache.service.ts),
    - [TaskProcessorService] (src/queues/task-processor/task-processor.service.ts),
    - [OverdueTasksService] (src/queues/scheduled-tasks/overdue-tasks.service.ts),
    - [redact] of the logging interceptor
      (src/common/interceptors/logging.interceptor.ts).

    Asynchronous methods are embedded as functions of an explicit world
    (store, cache, queue) that return a result or a thrown error together
    with the new world and the ordered list of effects they performed.
    The store answers every statement but a page query with a negative
    offset or limit, which it refuses; the cache and the queue may fail
    call by call.  [getStats] is left out. *)

From Stdlib Require Import ZArith Lia Bool List Ascii String Sorted.
From stdpp Require Import base option list strings pretty gmap.

Local Open Scope string_scope.
Local Open Scope Z_scope.

(** ** JavaScript values and [JSON.stringify] *)

Module Js.

(** The primitive values that occur in job payloads; numbers are
    integers. *)
Inductive jsval : Type :=
| JUndefined
| JNull
| JBool (b : bool)
| JNum (n : Z)
| JStr (s : string).

Definition jsval_eqb (a b : jsval) : bool :=
  match a, b with
  | JUndefined, JUndefined => true
  | JNull, JNull => true
  | JBool x, JBool y => Bool.eqb x y
  | JNum x, JNum y => Z.eqb x y
  | JStr x, JStr y => String.eqb x y
  | _, _ => false
  end.

(** [!v] is true exactly on the falsy values. *)
Definition falsy (v : jsval) : bool :=
  match v with
  | JUndefined | JNull => true
  | JBool b => negb b
  | JNum n => Z.eqb n 0
  | JStr s => String.eqb s ""
  end.

(** *** Numbers

    A number of the model is an integer.  It stands for the JavaScript
    number (a double) nearest to it, which is the integer itself whenever
    a double holds it, and in particular for every safe integer. *)

(** [Number.isSafeInteger(n)]. *)
Definition safe_integer (n : Z) : bool :=
  (- (2 ^ 53 - 1) <=? n) && (n <=? 2 ^ 53 - 1).

(** The double nearest to an integer, ties to the even significand; a
    result of magnitude 2^1024 or more stands for an infinity. *)
Definition to_double (n : Z) : Z :=
  let a := Z.abs n in
  let e := Z.log2 a - 52 in
  if e <=? 0 then n
  else
    let q := a / 2 ^ e in
    let r := a mod 2 ^ e in
    let half := 2 ^ (e - 1) in
    Z.sgn n * ((if (half <? r) || ((r =? half) && Z.odd q) then q + 1 else q) * 2 ^ e).

Definition finite (v : Z) : bool := Z.abs v <? 2 ^ 1024.

(** [a - b] and [a * b] on numbers. *)
Definition sub (a b : Z) : Z := to_double (a - b).
Definition mul (a b : Z) : Z := to_double (a * b).

(** The integer with the fewest significant digits that reads back as the
    double [v], the nearest to [v] among those: tried with [k], [k + 1],
    ... significant digits, [digits] being the number of digits of [v]. *)
Fixpoint shortest_from (fuel : nat) (k : Z) (digits : Z) (v : Z) : Z :=
  match fuel with
  | O => v
  | S fuel' =>
      if digits <=? k then v
      else
        let unit := 10 ^ (digits - k) in
        let lo := v / unit * unit in
        let hi := lo + unit in
        match to_double lo =? v, to_double hi =? v with
        | true, true => if v - lo <=? hi - v then lo else hi
        | true, false => lo
        | false, true => hi
        | false, false => shortest_from fuel' (k + 1) digits v
        end
  end.

(** Seventeen significant digits tell any two doubles apart. *)
Definition shortest (v : Z) : Z :=
  shortest_from 17 1 (Z.of_nat (String.length (pretty v))) v.

Fixpoint strip_zeros (rev_digits : list ascii) : list ascii :=
  match rev_digits with
  | c :: r => if Ascii.eqb c "0" then strip_zeros r else rev_digits
  | [] => []
  end.

(** [d.ddde+x]: the significant digits and the decimal exponent. *)
Definition exponent_form (c : Z) : string :=
  let text := pretty c in
  let e := Z.of_nat (String.length text) - 1 in
  match rev (strip_zeros (rev (list_ascii_of_string text))) with
  | [] => text
  | [d] => String d ("e+" +:+ pretty e)
  | d :: more => String d ("." +:+ string_of_list_ascii more +:+ "e+" +:+ pretty e)
  end.

(** [Number.prototype.toString] of a positive integer-valued double: its
    shortest digits, filled up with zeros below 10^21 and with an
    exponent from there on. *)
Definition positive_to_string (v : Z) : string :=
  let c := shortest v in
  if c <? 10 ^ 21 then pretty c else exponent_form c.

(** [String(n)].  A safe integer is written with its decimal digits:
    these are its shortest digits, as every integer of that range is a
    double of its own. *)
Definition number_to_string (n : Z) : string :=
  if safe_integer n then pretty n
  else
    let v := to_double n in
    if finite v then (if n <? 0 then "-" else "") +:+ positive_to_string (Z.abs v)
    else if n <? 0 then "-Infinity" else "Infinity".

(** [JSON.stringify] of a number: [String(n)], and [null] for an
    infinity. *)
Definition stringify_int (n : Z) : string :=
  if finite (to_double n) then number_to_string n else "null".

(** [String(v)], as used by template literals. *)
Definition to_string (v : jsval) : string :=
  match v with
  | JUndefined => "undefined"
  | JNull => "null"
  | JBool true => "true"
  | JBool false => "false"
  | JNum n => number_to_string n
  | JStr s => s
  end.

Definition dquote : ascii := "034"%char.
Definition backslash : ascii := "092"%char.

Definition hex_digit (n : N) : ascii :=
  if (n <? 10)%N then ascii_of_N (48 + n) else ascii_of_N (87 + n).

(** The escape of one character inside a JSON string literal. *)
Definition escape_char (c : ascii) : string :=
  let n := N_of_ascii c in
  if Ascii.eqb c dquote then String backslash (String dquote "")
  else if Ascii.eqb c backslash then String backslash (String backslash "")
  else if (n =? 8)%N then String backslash "b"
  else if (n =? 9)%N then String backslash "t"
  else if (n =? 10)%N then String backslash "n"
  else if (n =? 12)%N then String backslash "f"
  else if (n =? 13)%N then String backslash "r"
  else if (n <? 32)%N then
    String backslash
      ("u00" +:+ String (hex_digit (n / 16)) (String (hex_digit (n mod 16)) ""))
  else String c "".

Fixpoint escape (s : string) : string :=
  match s with
  | EmptyString => ""
  | String c r => escape_char c +:+ escape r
  end.

(** [JSON.stringify] of a string: the quoted, escaped literal. *)
Definition quote (s : string) : string :=
  String dquote (escape s +:+ String dquote "").

Fixpoint join (sep : string) (l : list string) : string :=
  match l with
  | [] => ""
  | [x] => x
  | x :: r => x +:+ sep +:+ join sep r
  end.

(** [JSON.stringify] of an object given as its serialised own
    properties, in property order. *)
Definition stringify_object (members : list (string * string)) : string :=
  "{" +:+ join "," (map (fun m => quote (fst m) +:+ ":" +:+ snd m) members) +:+ "}".

End Js.

(** ** The list filter (src/modules/tasks/dto/task-filter.dto.ts) *)

Module Filter.

(** The seven properties declared by [TaskFilterDto]. *)
Inductive field : Type :=
| Fstatus | Fpriority | Fq | Fpage | Flimit | FsortBy | FsortOrder.

Global Instance field_eq_dec : EqDecision field.
Proof. solve_decision. Defined.

Definition field_name (f : field) : string :=
  match f with
  | Fstatus => "status"
  | Fpriority => "priority"
  | Fq => "q"
  | Fpage => "page"
  | Flimit => "limit"
  | FsortBy => "sortBy"
  | FsortOrder => "sortOrder"
  end.

(** A property value: a string or an integer number. *)
Inductive value : Type :=
| VStr (s : string)
| VNum (n : Z).

Global Instance value_eq_dec : EqDecision value.
Proof. solve_decision. Defined.

(** A defined property with a value of its declared type: [status],
    [priority], [q], [sortBy] and [sortOrder] hold strings, [page] and
    [limit] hold integers. *)
Inductive entry : Type :=
| Status (s : string)
| Priority (s : string)
| Q (s : string)
| PageNo (n : Z)
| Limit (n : Z)
| SortBy (s : string)
| SortOrder (s : string).

Definition field_of (e : entry) : field :=
  match e with
  | Status _ => Fstatus
  | Priority _ => Fpriority
  | Q _ => Fq
  | PageNo _ => Fpage
  | Limit _ => Flimit
  | SortBy _ => FsortBy
  | SortOrder _ => FsortOrder
  end.

Definition value_of (e : entry) : value :=
  match e with
  | Status s | Priority s | Q s | SortBy s | SortOrder s => VStr s
  | PageNo n | Limit n => VNum n
  end.

(** A filter object: its defined own properties in insertion order.  A
    property that holds [undefined] is left out: [JSON.stringify] omits
    it, and [??], truthiness tests, [includes] and [===] in [findAll]
    cannot tell it from an absent one. *)
Definition t : Type := list entry.

Definition fields (f : t) : list field := map field_of f.

(** An object has each property at most once. *)
Definition wf (f : t) : Prop := NoDup (fields f).

(** [filter.k]: the value of property [k], [None] for undefined. *)
Fixpoint get (k : field) (f : t) : option value :=
  match f with
  | [] => None
  | e :: r => if decide (field_of e = k) then Some (value_of e) else get k r
  end.

Definition get_str (k : field) (f : t) : option string :=
  match get k f with
  | Some (VStr s) => Some s
  | _ => None
  end.

Definition get_num (k : field) (f : t) : option Z :=
  match get k f with
  | Some (VNum n) => Some n
  | _ => None
  end.

Definition stringify_value (v : value) : string :=
  match v with
  | VStr s => Js.quote s
  | VNum n => Js.stringify_int n
  end.

(** The numbers of a filter are safe integers. *)
Definition safe_value (v : value) : bool :=
  match v with
  | VStr _ => true
  | VNum n => Js.safe_integer n
  end.

Definition safe (f : t) : Prop := Forall (fun e => safe_value (value_of e) = true) f.

(** [JSON.stringify(filter)]. *)
Definition stringify (f : t) : string :=
  Js.stringify_object
    (map (fun e => (field_name (field_of e), stringify_value (value_of e))) f).

(** Two filters carry identical values when every property reads the
    same in both. *)
Definition same_values (f1 f2 : t) : Prop := forall k, get k f1 = get k f2.

End Filter.

(** [TasksService.getCacheKey]. *)
Definition getCacheKey (filter : Filter.t) : string :=
  "tasks:" +:+ Filter.stringify filter.

(** ** The fixed-window rate limiter (src/common/guards/rate-limit.guard.ts) *)

Module RateLimit.

(** A value of [rateLimitStore]. *)
Record record : Type := { count : Z; expiresAt : Z }.

Record RateLimitOptions : Type := { limit : Z; windowMs : Z }.

(** [handleRateLimit] either returns [true] or throws the 429
    [HttpException], whose body carries [retryAfter]. *)
Inductive outcome : Type :=
| Allowed
| TooManyRequests (retryAfter : Z).

(** [Math.ceil(x / 1000)] on an integer number of milliseconds. *)
Definition ceil_seconds (x : Z) : Z := - ((- x) / 1000).

(** [handleRateLimit(ip, {limit, windowMs})], with [Date.now()] passed
    as [now] and the module-level [rateLimitStore] threaded through. *)
Definition handleRateLimit (now : Z) (ip : string) (o : RateLimitOptions)
    (rateLimitStore : gmap string record) : outcome * gmap string record :=
  let fresh :=
    (Allowed, <[ip := {| count := 1; expiresAt := now + windowMs o |}]> rateLimitStore) in
  match rateLimitStore !! ip with
  | None => fresh
  | Some r =>
      if expiresAt r <? now then fresh
      else if count r >=? limit o then
        (TooManyRequests (ceil_seconds (expiresAt r - now)), rateLimitStore)
      else
        (Allowed,
         <[ip := {| count := count r + 1; expiresAt := expiresAt r |}]> rateLimitStore)
  end.

(** A caller starts a new window at [now] when the store has no record
    for it or the recorded window has expired. *)
Definition starts_window (store : gmap string record) (ip : string) (now : Z) : Prop :=
  match store !! ip with
  | None => True
  | Some r => expiresAt r < now
  end.

Definition two_per_minute : RateLimitOptions := {| limit := 2; windowMs := 60000 |}.

End RateLimit.

(** ** Tasks, the world and its effects *)

(** Modelled from the spec: the [TaskStatus] enum
    (src/modules/tasks/enums/task-status.enum.ts is not among the sources);
    the spec gives status ∈ {PENDING, IN_PROGRESS, COMPLETED}, the string
    values that [getStats] compares against. *)
Inductive TaskStatus : Type := PENDING | IN_PROGRESS | COMPLETED.

(** Modelled from the spec: the [TaskPriority] enum
    (src/modules/tasks/enums/task-priority.enum.ts is not among the
    sources); the spec gives priority ∈ {LOW, MEDIUM, HIGH}. *)
Inductive TaskPriority : Type := LOW | MEDIUM | HIGH.

Global Instance TaskStatus_eq_dec : EqDecision TaskStatus.
Proof. solve_decision. Defined.

Global Instance TaskPriority_eq_dec : EqDecision TaskPriority.
Proof. solve_decision. Defined.

Definition status_name (s : TaskStatus) : string :=
  match s with
  | PENDING => "PENDING"
  | IN_PROGRESS => "IN_PROGRESS"
  | COMPLETED => "COMPLETED"
  end.

Definition priority_name (p : TaskPriority) : string :=
  match p with
  | LOW => "LOW"
  | MEDIUM => "MEDIUM"
  | HIGH => "HIGH"
  end.

(** [Object.values(TaskStatus)]. *)
Definition TaskStatus_values : list TaskStatus := [PENDING; IN_PROGRESS; COMPLETED].

(** Modelled from the spec: the [Task] entity
    (src/modules/tasks/entities/task.entity.ts is not among the sources),
    with the attributes of the spec's data model. *)
Record Task : Type := {
  task_id : string;
  task_title : string;
  task_description : option string;
  task_status : TaskStatus;
  task_priority : TaskPriority;
  task_dueDate : option Z;
  task_createdAt : Z;
  task_userId : string
}.

(** Modelled from the spec: [CreateTaskDto] (not among the sources), the
    fields a caller supplies for a new task. *)
Record CreateTaskDto : Type := {
  c_title : string;
  c_description : option string;
  c_status : option TaskStatus;
  c_priority : option TaskPriority;
  c_dueDate : option Z;
  c_userId : string
}.

(** Modelled from the spec: [UpdateTaskDto] (not among the sources), a
    patch in which every field is optional. *)
Record UpdateTaskDto : Type := {
  u_title : option string;
  u_description : option string;
  u_status : option TaskStatus;
  u_priority : option TaskPriority;
  u_dueDate : option Z
}.

(** [PaginatedResponse<Task>] as [findAll] builds it.  [totalPages] is
    [None] when [Math.ceil(total / limit)] is not a finite number. *)
Record Page : Type := {
  data : list Task;
  meta_total : Z;
  meta_page : Z;
  meta_limit : Z;
  meta_totalPages : option Z
}.

(** What the cache holds, and hence what a read served from it returns. *)
Inductive CacheValue : Type :=
| CTask (t : Task)
| CPage (p : Page).

(** The data of a job: [{ taskId, status }] or [{ taskId }]. *)
Record Payload : Type := { taskId : Js.jsval; status : Js.jsval }.

(** A job as submitted with [taskQueue.add(name, data, opts)]. *)
Record QueuedJob : Type := {
  q_name : string;
  q_data : Payload;
  q_attempts : Z;
  q_backoff_delay : Z
}.

Inductive Error : Type :=
| NotFoundException (message : string)
| QueryFailedError (message : string)
| CacheUnavailable
| QueueUnavailable.

(** [`${err}`]. *)
Definition show_error (e : Error) : string :=
  match e with
  | NotFoundException m => "NotFoundException: " +:+ m
  | QueryFailedError m => "QueryFailedError: " +:+ m
  | CacheUnavailable => "Error: cache unavailable"
  | QueueUnavailable => "Error: queue unavailable"
  end.

Inductive Level : Type := LDebug | LLog | LWarn | LError.

(** The effects a method performs, in the order it performs them. *)
Inductive Event : Type :=
| TxBegin
| TxCommit
| TxRollback
| DbRead
| DbWrite
| CacheGet (key : string) (ok : bool)
| CacheSet (key : string) (ok : bool)
| CacheDel (key : string) (ok : bool)
| QueueAdd (name : string) (payload : Payload) (ok : bool)
| LogEv (level : Level) (message : string).

(** The store, the cache and the queue, with what the environment decides:
    the identifier and the timestamp the store gives the next new row, the
    column defaults of the entity, and for the cache and the queue the
    outcome of their next calls ([true]: the call fails; once the list is
    used up every call succeeds). *)
Record World : Type := {
  db : list Task;
  cache : gmap string CacheValue;
  queue : list QueuedJob;
  nextId : nat;
  clock : Z;
  defaultStatus : TaskStatus;
  defaultPriority : TaskPriority;
  cacheFaults : list bool;
  queueFaults : list bool
}.

Definition with_db (d : list Task) (w : World) : World :=
  {| db := d; cache := cache w; queue := queue w; nextId := nextId w;
     clock := clock w; defaultStatus := defaultStatus w;
     defaultPriority := defaultPriority w;
     cacheFaults := cacheFaults w; queueFaults := queueFaults w |}.

Definition with_cache (c : gmap string CacheValue) (w : World) : World :=
  {| db := db w; cache := c; queue := queue w; nextId := nextId w;
     clock := clock w; defaultStatus := defaultStatus w;
     defaultPriority := defaultPriority w;
     cacheFaults := cacheFaults w; queueFaults := queueFaults w |}.

Definition with_queue (q : list QueuedJob) (w : World) : World :=
  {| db := db w; cache := cache w; queue := q; nextId := nextId w;
     clock := clock w; defaultStatus := defaultStatus w;
     defaultPriority := defaultPriority w;
     cacheFaults := cacheFaults w; queueFaults := queueFaults w |}.

Definition with_cacheFaults (f : list bool) (w : World) : World :=
  {| db := db w; cache := cache w; queue := queue w; nextId := nextId w;
     clock := clock w; defaultStatus := defaultStatus w;
     defaultPriority := defaultPriority w;
     cacheFaults := f; queueFaults := queueFaults w |}.

Definition with_queueFaults (f : list bool) (w : World) : World :=
  {| db := db w; cache := cache w; queue := queue w; nextId := nextId w;
     clock := clock w; defaultStatus := defaultStatus w;
     defaultPriority := defaultPriority w;
     cacheFaults := cacheFaults w; queueFaults := f |}.

(** The store hands out a new identifier per inserted row. *)
Definition with_nextId (i : nat) (w : World) : World :=
  {| db := db w; cache := cache w; queue := queue w; nextId := i;
     clock := clock w; defaultStatus := defaultStatus w;
     defaultPriority := defaultPriority w;
     cacheFaults := cacheFaults w; queueFaults := queueFaults w |}.

(** *** Results, outcomes and the effect monad *)

Inductive Res (A : Type) : Type :=
| Ok (a : A)
| Throw (e : Error).

Arguments Ok {A} a.
Arguments Throw {A} e.

Record Outcome (A : Type) : Type := {
  res : Res A;
  post : World;
  evs : list Event
}.

Arguments res {A} _.
Arguments post {A} _.
Arguments evs {A} _.

Definition M (A : Type) : Type := World -> Outcome A.

Definition ret {A} (a : A) : M A :=
  fun w => {| res := Ok a; post := w; evs := [] |}.

Definition throw {A} (e : Error) : M A :=
  fun w => {| res := Throw e; post := w; evs := [] |}.

Definition bind {A B} (m : M A) (f : A -> M B) : M B :=
  fun w =>
    let o := m w in
    match res o with
    | Ok a =>
        let o' := f a (post o) in
        {| res := res o'; post := post o'; evs := evs o ++ evs o' |}
    | Throw e => {| res := Throw e; post := post o; evs := evs o |}
    end.

(** [try { m } catch (err) { h err }]. *)
Definition try_catch {A} (m : M A) (h : Error -> M A) : M A :=
  fun w =>
    let o := m w in
    match res o with
    | Ok a => o
    | Throw e =>
        let o' := h e (post o) in
        {| res := res o'; post := post o'; evs := evs o ++ evs o' |}
    end.

Notation "'do' x <- m ; k" := (bind m (fun x => k))
  (at level 10, x name, m at level 100, k at level 200).
Notation "'do_' m ; k" := (bind m (fun _ => k))
  (at level 10, m at level 100, k at level 200).

Definition emit (e : Event) : M unit :=
  fun w => {| res := Ok tt; post := w; evs := [e] |}.

Definition logger (l : Level) (message : string) : M unit := emit (LogEv l message).

Fixpoint for_each {A} (l : list A) (body : A -> M unit) : M unit :=
  match l with
  | [] => ret tt
  | x :: r => do_ body x; for_each r body
  end.

(** *** The cache manager, the queue and the entity store *)

Definition next_fault (l : list bool) : bool * list bool :=
  match l with
  | [] => (false, [])
  | b :: r => (b, r)
  end.

(** [cacheManager.get(key)]: the stored value, [None] for a miss. *)
Definition cacheManager_get (key : string) : M (option CacheValue) :=
  fun w =>
    let w' := with_cacheFaults (snd (next_fault (cacheFaults w))) w in
    if fst (next_fault (cacheFaults w))
    then {| res := Throw CacheUnavailable; post := w'; evs := [CacheGet key false] |}
    else {| res := Ok (cache w !! key); post := w'; evs := [CacheGet key true] |}.

(** [cacheManager.set(key, value)]. *)
Definition cacheManager_set (key : string) (v : CacheValue) : M unit :=
  fun w =>
    let w' := with_cacheFaults (snd (next_fault (cacheFaults w))) w in
    if fst (next_fault (cacheFaults w))
    then {| res := Throw CacheUnavailable; post := w'; evs := [CacheSet key false] |}
    else {| res := Ok tt; post := with_cache (<[key := v]> (cache w)) w';
            evs := [CacheSet key true] |}.

(** [cacheManager.del(key)]. *)
Definition cacheManager_del (key : string) : M unit :=
  fun w =>
    let w' := with_cacheFaults (snd (next_fault (cacheFaults w))) w in
    if fst (next_fault (cacheFaults w))
    then {| res := Throw CacheUnavailable; post := w'; evs := [CacheDel key false] |}
    else {| res := Ok tt; post := with_cache (delete key (cache w)) w';
            evs := [CacheDel key true] |}.

(** [taskQueue.add(name, data, { attempts, backoff: { type: 'exponential', delay } })]. *)
Definition taskQueue_add (name : string) (d : Payload) (attempts delay : Z) : M unit :=
  fun w =>
    let w' := with_queueFaults (snd (next_fault (queueFaults w))) w in
    if fst (next_fault (queueFaults w))
    then {| res := Throw QueueUnavailable; post := w'; evs := [QueueAdd name d false] |}
    else {| res := Ok tt;
            post := with_queue (queue w ++ [ {| q_name := name; q_data := d;
                                                q_attempts := attempts;
                                                q_backoff_delay := delay |} ]) w';
            evs := [QueueAdd name d true] |}.

(** [dataSource.transaction(body)]: the body's writes to the store are kept
    when it returns and undone when it throws; what it did to the cache and
    to the queue stays either way. *)
Definition transaction {A} (body : M A) : M A :=
  fun w =>
    let o := body w in
    match res o with
    | Ok a => {| res := Ok a; post := post o; evs := TxBegin :: evs o ++ [TxCommit] |}
    | Throw e => {| res := Throw e; post := with_db (db w) (post o);
                    evs := TxBegin :: evs o ++ [TxRollback] |}
    end.

Definition new_id (n : nat) : string := "task-" +:+ pretty n.

(** [repo.save(repo.create(createTaskDto))]: insert a row. *)
Definition repo_insert (dto : CreateTaskDto) : M Task :=
  fun w =>
    let t := {| task_id := new_id (nextId w);
                task_title := c_title dto;
                task_description := c_description dto;
                task_status := default (defaultStatus w) (c_status dto);
                task_priority := default (defaultPriority w) (c_priority dto);
                task_dueDate := c_dueDate dto;
                task_createdAt := clock w;
                task_userId := c_userId dto |} in
    {| res := Ok t; post := with_nextId (S (nextId w)) (with_db (db w ++ [t]) w);
       evs := [DbWrite] |}.

(** [repo.findOne({ where: { id } })]. *)
Definition repo_findOne (id : string) : M (option Task) :=
  fun w =>
    {| res := Ok (find (fun t => String.eqb (task_id t) id) (db w)); post := w;
       evs := [DbRead] |}.

Definition replace_row (t : Task) (rows : list Task) : list Task :=
  map (fun r => if String.eqb (task_id r) (task_id t) then t else r) rows.

(** [repo.save(task)] for a loaded entity: write the row back. *)
Definition repo_save (t : Task) : M Task :=
  fun w => {| res := Ok t; post := with_db (replace_row t (db w)) w; evs := [DbWrite] |}.

(** [repo.merge(task, updateTaskDto)]: defined fields overwrite. *)
Definition merge (t : Task) (dto : UpdateTaskDto) : Task :=
  {| task_id := task_id t;
     task_title := default (task_title t) (u_title dto);
     task_description :=
       match u_description dto with Some d => Some d | None => task_description t end;
     task_status := default (task_status t) (u_status dto);
     task_priority := default (task_priority t) (u_priority dto);
     task_dueDate := match u_dueDate dto with Some d => Some d | None => task_dueDate t end;
     task_createdAt := task_createdAt t;
     task_userId := task_userId t |}.

Definition set_status (s : TaskStatus) (t : Task) : Task :=
  {| task_id := task_id t; task_title := task_title t;
     task_description := task_description t; task_status := s;
     task_priority := task_priority t; task_dueDate := task_dueDate t;
     task_createdAt := task_createdAt t; task_userId := task_userId t |}.

Definition id_in (ids : list string) (t : Task) : bool :=
  existsb (String.eqb (task_id t)) ids.

(** [tasksRepository.delete(id)]: the number of rows removed. *)
Definition repo_delete (id : string) : M Z :=
  fun w =>
    {| res := Ok (Z.of_nat (length (List.filter (fun t => String.eqb (task_id t) id) (db w))));
       post := with_db (List.filter (fun t => negb (String.eqb (task_id t) id)) (db w)) w;
       evs := [DbWrite] |}.

(** [UPDATE task SET status = :status WHERE id IN (:...ids)]: the number of
    rows the statement matched, which is what the PostgreSQL driver
    configured in app.module.ts reports as [affected]. *)
Definition repo_update_status_in (ids : list string) (s : TaskStatus) : M Z :=
  fun w =>
    {| res := Ok (Z.of_nat (length (List.filter (id_in ids) (db w))));
       post := with_db (map (fun t => if id_in ids t then set_status s t else t) (db w)) w;
       evs := [DbWrite] |}.

(** [DELETE FROM task WHERE id IN (:...ids)]. *)
Definition repo_delete_in (ids : list string) : M Z :=
  fun w =>
    {| res := Ok (Z.of_nat (length (List.filter (id_in ids) (db w))));
       post := with_db (List.filter (fun t => negb (id_in ids t)) (db w)) w;
       evs := [DbWrite] |}.

(** *** The query that [findAll] builds, and the store's answer to it *)

Inductive Direction : Type := ASC | DESC.

Inductive Cond : Type :=
| StatusEq (s : string)          (* task.status = :status *)
| PriorityEq (s : string)        (* task.priority = :priority *)
| TextILike (pattern : string).  (* task.title ILIKE :q OR task.description ILIKE :q *)

Record Query : Type := {
  wheres : list Cond;
  orderField : string;
  orderDir : Direction;
  q_skip : Z;
  q_take : Z
}.

Definition lower (c : ascii) : ascii :=
  let n := N_of_ascii c in
  if ((65 <=? n) && (n <=? 90))%N then ascii_of_N (n + 32) else c.

(** SQL [ILIKE]: [%] matches any run of characters, [_] any one
    character, a backslash takes the next character literally, and letters
    match regardless of case. *)
Fixpoint ilike (p : list ascii) : list ascii -> bool :=
  match p with
  | [] => fun s => match s with [] => true | _ => false end
  | c :: p' =>
      if Ascii.eqb c "%" then
        fix star (s : list ascii) : bool :=
          ilike p' s || match s with [] => false | _ :: s' => star s' end
      else if Ascii.eqb c "_" then
        fun s => match s with [] => false | _ :: s' => ilike p' s' end
      else if Ascii.eqb c Js.backslash then
        match p' with
        | [] => fun _ => false
        | d :: p'' =>
            fun s => match s with
                     | [] => false
                     | x :: s' => Ascii.eqb (lower d) (lower x) && ilike p'' s'
                     end
        end
      else
        fun s => match s with
                 | [] => false
                 | x :: s' => Ascii.eqb (lower c) (lower x) && ilike p' s'
                 end
  end.

Definition text_ilike (pattern text : string) : bool :=
  ilike (list_ascii_of_string pattern) (list_ascii_of_string text).

Definition matches (c : Cond) (t : Task) : bool :=
  match c with
  | StatusEq s => String.eqb (status_name (task_status t)) s
  | PriorityEq s => String.eqb (priority_name (task_priority t)) s
  | TextILike q =>
      text_ilike q (task_title t)
      || match task_description t with
         | Some d => text_ilike q d
         | None => false
         end
  end.

Definition status_rank (s : TaskStatus) : Z :=
  match s with PENDING => 0 | IN_PROGRESS => 1 | COMPLETED => 2 end.

Definition priority_rank (p : TaskPriority) : Z :=
  match p with LOW => 0 | MEDIUM => 1 | HIGH => 2 end.

(** A missing due date sorts after every date. *)
Definition compare_dueDate (a b : option Z) : comparison :=
  match a, b with
  | Some x, Some y => Z.compare x y
  | Some _, None => Lt
  | None, Some _ => Gt
  | None, None => Eq
  end.

(** The ascending order of a column. *)
Definition compare_by (column : string) (a b : Task) : comparison :=
  if String.eqb column "task.title" then String.compare (task_title a) (task_title b)
  else if String.eqb column "task.createdAt" then Z.compare (task_createdAt a) (task_createdAt b)
  else if String.eqb column "task.dueDate" then compare_dueDate (task_dueDate a) (task_dueDate b)
  else if String.eqb column "task.priority" then
    Z.compare (priority_rank (task_priority a)) (priority_rank (task_priority b))
  else if String.eqb column "task.status" then
    Z.compare (status_rank (task_status a)) (status_rank (task_status b))
  else Eq.

Definition precedes (column : string) (d : Direction) (a b : Task) : bool :=
  match d, compare_by column a b with
  | ASC, Gt => false
  | DESC, Lt => false
  | _, _ => true
  end.

Fixpoint insert_sorted (le : Task -> Task -> bool) (x : Task) (l : list Task) : list Task :=
  match l with
  | [] => [x]
  | y :: r => if le x y then x :: l else y :: insert_sorted le x r
  end.

Definition sort_rows (le : Task -> Task -> bool) (l : list Task) : list Task :=
  fold_right (insert_sorted le) [] l.

(** The 64-bit integers of PostgreSQL. *)
Definition bigint (x : Z) : bool := (- 2 ^ 63 <=? x) && (x <=? 2 ^ 63 - 1).

(** The query builder writes [OFFSET] and [LIMIT] into the statement only
    for a [skip] and a [take] that are not zero, and PostgreSQL (the
    driver configured in app.module.ts) refuses a statement whose [OFFSET]
    or [LIMIT] is no [bigint] or is negative: the message of the refusal,
    [None] for a statement it runs. *)
Definition refused (q : Query) : option string :=
  if negb (bigint (q_skip q) && bigint (q_take q)) then Some "bigint out of range"
  else if q_skip q <? 0 then Some "OFFSET must not be negative"
  else if q_take q <? 0 then Some "LIMIT must not be negative"
  else None.

(** The rows of a page: those after the first [skip], all of them for a
    [take] of zero (no [LIMIT] is written) and the first [take] of them
    otherwise. *)
Definition page_rows (skip take : Z) (sorted : list Task) : list Task :=
  let rest := skipn (Z.to_nat skip) sorted in
  if take =? 0 then rest else firstn (Z.to_nat take) rest.

(** The store's answer to a query it runs: the requested page of the
    matching rows in the requested order, and the number of matching
    rows. *)
Definition run_query (q : Query) (table : list Task) : list Task * Z :=
  let rows := List.filter (fun t => forallb (fun c => matches c t) (wheres q)) table in
  let sorted := sort_rows (precedes (orderField q) (orderDir q)) rows in
  (page_rows (q_skip q) (q_take q) sorted, Z.of_nat (length rows)).

(** [qb.getManyAndCount()]: the answer of the store, or the
    [QueryFailedError] of a statement it refuses. *)
Definition getManyAndCount (q : Query) : M (list Task * Z) :=
  fun w =>
    match refused q with
    | Some message => {| res := Throw (QueryFailedError message); post := w; evs := [DbRead] |}
    | None => {| res := Ok (run_query q (db w)); post := w; evs := [DbRead] |}
    end.

(** ** [TasksService] (src/modules/tasks/tasks.service.ts) *)

Definition invalidateTaskCache : M unit :=
  do_ for_each ["tasks:all"; "tasks:stats"] cacheManager_del;
  logger LDebug "Cache invalidated for tasks".

Definition status_payload (id : string) (s : TaskStatus) : Payload :=
  {| taskId := Js.JStr id; status := Js.JStr (status_name s) |}.

Definition create (createTaskDto : CreateTaskDto) : M Task :=
  do result <- transaction (
    do saved <- repo_insert createTaskDto;
    do_ try_catch
      (taskQueue_add "task-status-update"
         (status_payload (task_id saved) (task_status saved)) 3 1000)
      (fun err =>
         logger LError ("Failed to enqueue job for " +:+ task_id saved +:+ ": "
                        +:+ show_error err));
    ret saved);
  do_ invalidateTaskCache;
  ret result.

Definition truthy_str (o : option string) : option string :=
  match o with
  | Some s => if String.eqb s "" then None else Some s
  | None => None
  end.

Definition sortable : list string := ["title"; "createdAt"; "dueDate"; "priority"; "status"].

(** The [orderField] expression of [findAll]. *)
Definition order_field (filter : Filter.t) : string :=
  let sortBy := default "" (Filter.get_str Filter.FsortBy filter) in
  if existsb (String.eqb sortBy) sortable then "task." +:+ sortBy else "task.createdAt".

(** [filter.sortOrder === 'ASC' ? 'ASC' : 'DESC']. *)
Definition order_dir (filter : Filter.t) : Direction :=
  match Filter.get_str Filter.FsortOrder filter with
  | Some s => if String.eqb s "ASC" then ASC else DESC
  | None => DESC
  end.

(** The query [findAll] hands to the store on a cache miss. *)
Definition build_query (filter : Filter.t) : Query :=
  let page := default 1 (Filter.get_num Filter.Fpage filter) in
  let limit := default 10 (Filter.get_num Filter.Flimit filter) in
  {| wheres :=
       match truthy_str (Filter.get_str Filter.Fstatus filter) with
       | Some s => [StatusEq s] | None => [] end
       ++ match truthy_str (Filter.get_str Filter.Fpriority filter) with
          | Some s => [PriorityEq s] | None => [] end
       ++ match truthy_str (Filter.get_str Filter.Fq filter) with
          | Some s => [TextILike ("%" +:+ s +:+ "%")] | None => [] end;
     orderField := order_field filter;
     orderDir := order_dir filter;
     q_skip := Js.mul (Js.sub page 1) limit;
     q_take := limit |}.

(** [Math.ceil(total / limit)]. *)
Definition total_pages (total limit : Z) : option Z :=
  if limit =? 0 then None else Some (- ((- total) / limit)).

Definition findAll (filter : Filter.t) : M CacheValue :=
  let page := default 1 (Filter.get_num Filter.Fpage filter) in
  let limit := default 10 (Filter.get_num Filter.Flimit filter) in
  let cacheKey := getCacheKey filter in
  do cached <- cacheManager_get cacheKey;
  match cached with
  | Some v =>
      do_ logger LDebug ("Returning tasks from Redis cache for key: " +:+ cacheKey);
      ret v
  | None =>
      do r <- getManyAndCount (build_query filter);
      let response :=
        {| data := fst r; meta_total := snd r; meta_page := page; meta_limit := limit;
           meta_totalPages := total_pages (snd r) limit |} in
      do_ cacheManager_set cacheKey (CPage response);
      do_ logger LDebug (" Cached tasks in Redis under key: " +:+ cacheKey);
      ret (CPage response)
  end.

Definition not_found (id : string) : Error :=
  NotFoundException ("Task with ID " +:+ id +:+ " not found").

Definition findOne (id : string) : M CacheValue :=
  let cacheKey := "task:" +:+ id in
  do cached <- cacheManager_get cacheKey;
  match cached with
  | Some v =>
      do_ logger LDebug ("Returning task " +:+ id +:+ " from Redis cache");
      ret v
  | None =>
      do task <- repo_findOne id;
      match task with
      | None => throw (not_found id)
      | Some t =>
          do_ cacheManager_set cacheKey (CTask t);
          do_ logger LDebug (" Cached single task " +:+ id);
          ret (CTask t)
      end
  end.

Definition update (id : string) (updateTaskDto : UpdateTaskDto) : M Task :=
  transaction (
    do task <- repo_findOne id;
    match task with
    | None => throw (not_found id)
    | Some t =>
        let originalStatus := task_status t in
        do saved <- repo_save (merge t updateTaskDto);
        do_ (if decide (originalStatus = task_status saved) then ret tt
             else
               try_catch
                 (taskQueue_add "task-status-update"
                    (status_payload (task_id saved) (task_status saved)) 3 1000)
                 (fun err =>
                    logger LError ("Failed to enqueue status-update for "
                                   +:+ task_id saved +:+ ": " +:+ show_error err)));
        do_ invalidateTaskCache;
        do_ cacheManager_del ("task:" +:+ id);
        do_ logger LDebug ("Cache invalidated after updating task " +:+ id);
        ret saved
    end).

Definition remove (id : string) : M Z :=
  do affected <- repo_delete id;
  if affected =? 0 then throw (not_found id)
  else
    do_ invalidateTaskCache;
    do_ cacheManager_del ("task:" +:+ id);
    do_ logger LDebug ("🗑️ Cache invalidated after deleting task " +:+ id);
    ret affected.

Definition bulkUpdateStatus (ids : list string) (s : TaskStatus) : M Z :=
  match ids with
  | [] => ret 0
  | _ =>
      do affected <- repo_update_status_in ids s;
      do_ for_each ids (fun id =>
            do_ cacheManager_del ("task:" +:+ id);
            try_catch
              (taskQueue_add "task-status-update" (status_payload id s) 3 1000)
              (fun err =>
                 logger LError ("Failed to enqueue job for " +:+ id +:+ ": "
                                +:+ show_error err)));
      do_ invalidateTaskCache;
      ret affected
  end.

Definition bulkDelete (ids : list string) : M Z :=
  match ids with
  | [] => ret 0
  | _ =>
      do affected <- repo_delete_in ids;
      do_ for_each ids (fun id => cacheManager_del ("task:" +:+ id));
      do_ invalidateTaskCache;
      ret affected
  end.

Definition updateStatus (id : string) (s : TaskStatus) : M Task :=
  do task <- repo_findOne id;
  match task with
  | None => throw (not_found id)
  | Some t =>
      do updated <- repo_save (set_status s t);
      do_ invalidateTaskCache;
      do_ cacheManager_del ("task:" +:+ id);
      do_ logger LDebug (" Cache invalidated after updating status for " +:+ id);
      ret updated
  end.

(** ** [CacheService] (src/common/services/cache.service.ts) *)

Module CacheService.

(** [set(key, value, ttlSeconds?)].  Expiry is not modelled: an entry
    that has expired is an entry that is absent. *)
Definition set (key : string) (v : CacheValue) (ttlSeconds : option Z) : M unit :=
  do_ logger LLog ("Setting cache: " +:+ key);
  cacheManager_set key v.

Definition get (key : string) : M (option CacheValue) :=
  do data <- cacheManager_get key;
  do_ logger LLog (match data with
                   | Some _ => "Cache HIT: " +:+ key
                   | None => "Cache MISS: " +:+ key
                   end);
  ret data.

Definition delete (key : string) : M unit :=
  do_ logger LLog ("Deleting cache: " +:+ key);
  cacheManager_del key.

End CacheService.

(** ** [TaskProcessorService] (src/queues/task-processor/task-processor.service.ts) *)

(** A job as the worker receives it. *)
Record Job : Type := {
  job_id : string;
  job_name : string;
  job_data : Payload
}.

(** What a handler returns: [{ success, error?, taskId?, newStatus? }]. *)
Record JobResult : Type := {
  success : bool;
  error : option string;
  r_taskId : option Js.jsval;
  r_newStatus : option string
}.

Definition failure (message : string) : JobResult :=
  {| success := false; error := Some message; r_taskId := None; r_newStatus := None |}.

(** [Object.values(TaskStatus).includes(status)], with the member found. *)
Definition recognized_status (v : Js.jsval) : option TaskStatus :=
  find (fun s => Js.jsval_eqb (Js.JStr (status_name s)) v) TaskStatus_values.

(** [error instanceof Error ? error.message : error]. *)
Definition error_message (e : Error) : string :=
  match e with
  | NotFoundException m => m
  | QueryFailedError m => m
  | CacheUnavailable => "cache unavailable"
  | QueueUnavailable => "queue unavailable"
  end.

Definition handleStatusUpdate (job : Job) : M JobResult :=
  let taskId := taskId (job_data job) in
  let status := status (job_data job) in
  if Js.falsy taskId || Js.falsy status then
    do_ logger LWarn "Missing taskId or status in task-status-update job";
    ret (failure "Missing required data")
  else
    match recognized_status status with
    | None =>
        do_ logger LWarn ("Invalid status value received: " +:+ Js.to_string status);
        ret (failure "Invalid status value")
    | Some s =>
        try_catch
          (do task <- updateStatus (Js.to_string taskId) s;
           ret {| success := true; error := None;
                  r_taskId := Some (Js.JStr (task_id task));
                  r_newStatus := Some (status_name (task_status task)) |})
          (fun err =>
             do_ logger LError ("Failed to update status for " +:+ Js.to_string taskId
                                +:+ ": " +:+ show_error err);
             throw err)
    end.

(** [`${task.status}`] of what [findOne] returned. *)
Definition status_text (v : CacheValue) : string :=
  match v with
  | CTask t => status_name (task_status t)
  | CPage _ => "undefined"
  end.

Definition handleOverdueTasks (job : Job) : M JobResult :=
  let taskId := taskId (job_data job) in
  if Js.falsy taskId then
    do_ logger LWarn "Missing taskId for overdue-tasks-notification job";
    ret (failure "Missing taskId")
  else
    try_catch
      (do task <- findOne (Js.to_string taskId);
       do_ logger LDebug ("Overdue notification for task " +:+ Js.to_string taskId
                          +:+ " (status=" +:+ status_text task +:+ ")");
       ret {| success := true; error := None; r_taskId := Some taskId;
              r_newStatus := None |})
      (fun err =>
         do_ logger LError ("Error processing overdue task " +:+ Js.to_string taskId
                            +:+ ": " +:+ show_error err);
         throw err).

Definition process (job : Job) : M JobResult :=
  do_ logger LDebug ("Processing job " +:+ job_id job +:+ " (" +:+ job_name job +:+ ")");
  try_catch
    (if String.eqb (job_name job) "task-status-update" then handleStatusUpdate job
     else if String.eqb (job_name job) "overdue-tasks-notification" then handleOverdueTasks job
     else
       do_ logger LWarn ("Unknown job type: " +:+ job_name job);
       ret (failure "Unknown job type"))
    (fun error =>
       do_ logger LError ("Error processing job " +:+ job_id job +:+ ": "
                          +:+ error_message error);
       throw error).

(** How the queue reads what the worker did with a job: a returned value
    completes the job, whatever it says; a thrown error fails the attempt,
    and the queue retries it while attempts remain. *)
Inductive Verdict : Type :=
| Completed (r : JobResult)
| Retryable (e : Error).

Definition verdict (o : Outcome JobResult) : Verdict :=
  match res o with
  | Ok r => Completed r
  | Throw e => Retryable e
  end.

(** ** Ordering of effects with respect to the store's commit *)

(** Where a trace stands: inside an explicit transaction or not, and
    whether some write has been committed so far.  A write outside an
    explicit transaction is committed when its statement returns. *)
Record TxState : Type := { open : bool; committed : bool }.

Definition step_tx (s : TxState) (e : Event) : TxState :=
  match e with
  | TxBegin => {| open := true; committed := committed s |}
  | TxCommit => {| open := false; committed := true |}
  | TxRollback => {| open := false; committed := committed s |}
  | DbWrite => if open s then s else {| open := false; committed := true |}
  | _ => s
  end.

(** Every watched effect of the trace happens with no transaction open
    and after a commit. *)
Fixpoint all_after_commit (watched : Event -> bool) (s : TxState) (tr : list Event) : bool :=
  match tr with
  | [] => true
  | e :: r =>
      (if watched e then negb (open s) && committed s else true)
      && all_after_commit watched (step_tx s e) r
  end.

Definition is_invalidation (e : Event) : bool :=
  match e with CacheDel _ _ => true | _ => false end.

Definition is_enqueue (e : Event) : bool :=
  match e with QueueAdd _ _ _ => true | _ => false end.

Definition idle : TxState := {| open := false; committed := false |}.

Definition invalidates_after_commit (tr : list Event) : bool :=
  all_after_commit is_invalidation idle tr.

Definition enqueues_after_commit (tr : list Event) : bool :=
  all_after_commit is_enqueue idle tr.

(** The number of enqueue attempts in a trace. *)
Definition enqueue_attempts (tr : list Event) : nat :=
  length (List.filter is_enqueue tr).

(** A world whose cache answers every call. *)
Definition cache_healthy (w : World) : Prop :=
  Forall (fun b => b = false) (cacheFaults w).

(** ** What a computation does, whatever the world it starts in *)

(** Every effect of [m] satisfies [Q]. *)
Definition emits {A} (Q : Event -> Prop) (m : M A) : Prop :=
  forall w, Forall Q (evs (m w)).

(** [m] leaves the component [proj] of the world as it found it. *)
Definition keeps {A X} (proj : World -> X) (m : M A) : Prop :=
  forall w, proj (post (m w)) = proj w.

(** [m] never throws. *)
Definition total {A} (m : M A) : Prop :=
  forall w, exists a, res (m w) = Ok a.

(** With the cache answering, [m] returns, and the cache goes on
    answering. *)
Definition safe {A} (m : M A) : Prop :=
  forall w, cache_healthy w -> cache_healthy (post (m w)) /\ exists a, res (m w) = Ok a.

(** A cache call that failed. *)
Definition cache_failed (e : Event) : bool :=
  match e with
  | CacheGet _ false | CacheSet _ false | CacheDel _ false => true
  | _ => false
  end.

(** [m] guards none of its cache calls: when one of them fails, whichever
    it is, [m] throws that failure to its caller. *)
Definition unguarded {A} (m : M A) : Prop :=
  forall w, existsb cache_failed (evs (m w)) = true -> res (m w) = Throw CacheUnavailable.

(** Effects that neither open nor close a transaction nor write to the
    store. *)
Definition neutral (e : Event) : Prop :=
  match e with
  | TxBegin | TxCommit | TxRollback | DbWrite => False
  | _ => True
  end.

Definition not_enqueue (e : Event) : Prop := is_enqueue e = false.

Definition settled : TxState := {| open := false; committed := true |}.

(** ** Sample data *)

(** A 'task-status-update' payload the consumer cannot act on: [taskId]
    or [status] is missing (a missing property reads as [undefined], which
    is falsy) or otherwise falsy, or [status] is not a value of the enum. *)
Definition malformed (p : Payload) : Prop :=
  Js.falsy (taskId p) = true \/ Js.falsy (status p) = true
  \/ recognized_status (status p) = None.

(** The rows are in the order of their creation time, in direction [d]. *)
Definition created_in_order (d : Direction) (a b : Task) : Prop :=
  match d with
  | ASC => task_createdAt a <= task_createdAt b
  | DESC => task_createdAt b <= task_createdAt a
  end.

Definition overdue_job (id : string) : Job :=
  {| job_id := "41"; job_name := "overdue-tasks-notification";
     job_data := {| taskId := Js.JStr id; status := Js.JUndefined |} |}.

Definition sample_task (id : string) (s : TaskStatus) (created : Z) : Task :=
  {| task_id := id; task_title := "Write report"; task_description := None;
     task_status := s; task_priority := MEDIUM; task_dueDate := None;
     task_createdAt := created; task_userId := "u1" |}.

Definition world0 (rows : list Task) : World :=
  {| db := rows; cache := ∅; queue := []; nextId := 7; clock := 1000;
     defaultStatus := PENDING; defaultPriority := MEDIUM;
     cacheFaults := []; queueFaults := [] |}.

Definition sample_dto : CreateTaskDto :=
  {| c_title := "Write report"; c_description := None; c_status := None;
     c_priority := None; c_dueDate := None; c_userId := "u1" |}.

Definition patch_status (s : TaskStatus) : UpdateTaskDto :=
  {| u_title := None; u_description := None; u_status := Some s;
     u_priority := None; u_dueDate := None |}.

Definition patch_title (t : string) : UpdateTaskDto :=
  {| u_title := Some t; u_description := None; u_status := None;
     u_priority := None; u_dueDate := None |}.

Definition filter_status_first : Filter.t := [Filter.Status "PENDING"; Filter.PageNo 1].
Definition filter_page_first : Filter.t := [Filter.PageNo 1; Filter.Status "PENDING"].

Definition filter_unknown_sort_asc : Filter.t :=
  [Filter.SortBy "rank"; Filter.SortOrder "ASC"].

Definition two_tasks : list Task :=
  [sample_task "a" PENDING 1; sample_task "b" PENDING 2].

(** ** The guard around the limiter (src/common/guards/rate-limit.guard.ts) *)

Module Guard.

Import RateLimit.

(** [\d]: an ASCII digit. *)
Definition is_digit (c : ascii) : bool :=
  let n := N_of_ascii c in ((48 <=? n) && (n <=? 57))%N.

Fixpoint all_digits (s : string) : bool :=
  match s with
  | EmptyString => true
  | String c r => is_digit c && all_digits r
  end.

(** [ip.replace(/\d+$/, 'x')]: the match starts at the leftmost position
    from which only digits, and at least one, run to the end of the input;
    that run is replaced by [x].  Without such a run the input comes back
    unchanged. *)
Fixpoint anonymizeIp (ip : string) : string :=
  match ip with
  | EmptyString => EmptyString
  | String c r => if all_digits ip then "x" else String c (anonymizeIp r)
  end.

(** The last character of [s] is a digit. *)
Fixpoint ends_in_digit (s : string) : bool :=
  match s with
  | EmptyString => false
  | String c EmptyString => is_digit c
  | String _ r => ends_in_digit r
  end.

(** The options [canActivate] falls back to. *)
Definition default_options : RateLimitOptions := {| limit := 100; windowMs := 60000 |}.

(** [canActivate]: the options are the handler's metadata, else the
    class's, else the default; the key is the anonymized [request.ip]. *)
Definition canActivate (handlerOptions classOptions : option RateLimitOptions)
    (now : Z) (ip : string) (rateLimitStore : gmap string record)
    : outcome * gmap string record :=
  let rateLimitOptions :=
    match handlerOptions with
    | Some o => o
    | None => match classOptions with
              | Some o => o
              | None => default_options
              end
    end in
  handleRateLimit now (anonymizeIp ip) rateLimitOptions rateLimitStore.

(** A run of requests of one caller key, given by their times: the number
    of requests let through, and the store they leave. *)
Fixpoint serve (ip : string) (o : RateLimitOptions) (times : list Z)
    (store : gmap string record) : nat * gmap string record :=
  match times with
  | [] => (0%nat, store)
  | t :: rest =>
      let r := handleRateLimit t ip o store in
      let k := serve ip o rest (snd r) in
      (match fst r with
       | Allowed => S (fst k)
       | TooManyRequests _ => fst k
       end, snd k)
  end.

End Guard.

(** ** [findByStatus] (src/modules/tasks/tasks.service.ts) *)

(** [tasksRepository.find({ where: { status }, order: { createdAt: 'DESC' } })]. *)
Definition findByStatus (s : TaskStatus) : M (list Task) :=
  fun w =>
    {| res := Ok (sort_rows (precedes "task.createdAt" DESC)
                    (List.filter (fun t => bool_decide (task_status t = s)) (db w)));
       post := w; evs := [DbRead] |}.

(** ** [OverdueTasksService] (src/queues/scheduled-tasks/overdue-tasks.service.ts) *)

(** [find({ where: { dueDate: LessThan(now), status: PENDING }, select: ['id'] })]:
    a task without a due date is not overdue. *)
Definition overdue (now : Z) (t : Task) : bool :=
  match task_dueDate t with
  | Some d => (d <? now) && bool_decide (task_status t = PENDING)
  | None => false
  end.

Definition repo_find_overdue : M (list string) :=
  fun w =>
    {| res := Ok (map task_id (List.filter (overdue (clock w)) (db w))); post := w;
       evs := [DbRead] |}.

(** [Promise.allSettled(ids.map(id => taskQueue.add(..)))]: one enqueue per
    id, each settled on its own; [true] stands for 'fulfilled'.  The calls
    are taken in the order [map] issues them. *)
Fixpoint settle_adds (ids : list string) : M (list bool) :=
  match ids with
  | [] => ret []
  | id :: rest =>
      do r <- try_catch
                (do_ taskQueue_add "overdue-tasks-notification"
                       {| taskId := Js.JStr id; status := Js.JUndefined |} 3 2000;
                 ret true)
                (fun _ => ret false);
      do rs <- settle_adds rest;
      ret (r :: rs)
  end.

Definition checkOverdueTasks : M unit :=
  do_ logger LDebug "Checking for overdue tasks...";
  do_ try_catch
        (do overdueTasks <- repo_find_overdue;
         match overdueTasks with
         | [] => logger LDebug "No overdue tasks found"
         | _ =>
             do_ logger LLog ("Found " +:+ pretty (length overdueTasks) +:+ " overdue tasks");
             do results <- settle_adds overdueTasks;
             let successCount := length (List.filter (fun r => r) results) in
             let failCount := (length results - successCount)%nat in
             logger LLog ("Enqueued " +:+ pretty successCount +:+ " overdue jobs, "
                          +:+ pretty failCount +:+ " failed to enqueue")
         end)
        (fun err => logger LError ("Error checking overdue tasks: " +:+ error_message err));
  logger LDebug "Overdue tasks check completed".

(** ** Redaction of logged bodies (src/common/interceptors/logging.interceptor.ts) *)

Module Redact.

#[local] Set Warnings "-register-all".

(** A value handed to [redact]: a primitive ([null] and [undefined]
    among them), a function, an array, a plain object with its own
    enumerable properties in order, any other object (a [Date], a [Map], a
    class instance) with its class and its own enumerable properties, or
    an object that cannot be spread (a property getter or a proxy trap
    that throws).  A value is a finite tree: an object that holds itself
    is not among them. *)
Inductive value : Type :=
| Prim (p : Js.jsval)
| Func (name : string)
| Arr (items : list value)
| Obj (members : list (string * value))
| Other (class : string) (members : list (string * value))
| Throwing (class : string).

Definition SENSITIVE_KEYS : list string :=
  ["password"; "token"; "access_token"; "refresh_token"].

Definition sensitive (key : string) : bool := existsb (String.eqb key) SENSITIVE_KEYS.

Definition REDACTED : value := Prim (Js.JStr "[REDACTED]").

Definition UNREDACTED : value := Prim (Js.JStr "[UNREDACTED]").

(** The loop of [redact] over the keys of the clone: the value of a
    sensitive key is replaced, every other value that is an object or
    array is redacted in turn. *)
Definition redact_members (redact : value -> value) (members : list (string * value))
    : list (string * value) :=
  map (fun kv => match kv with
                 | (key, v) => (key, if sensitive key then REDACTED else redact v)
                 end) members.

(** [redact(obj)]: a value that is falsy or whose [typeof] is not
    'object' (a primitive, a function) comes back as it is.  An array is
    cloned by [[...obj]] (the keys of an array are its indices, none of
    which is sensitive); every other object is cloned by [{ ...obj }],
    which gives a plain object with the own enumerable properties, so that
    a [Date], which has none, becomes [{}].  When the spread throws, the
    [catch] returns '[UNREDACTED]'. *)
Fixpoint redact (obj : value) : value :=
  match obj with
  | Prim p => Prim p
  | Func name => Func name
  | Arr items => Arr (map redact items)
  | Obj members => Obj (redact_members redact members)
  | Other _ members => Obj (redact_members redact members)
  | Throwing _ => UNREDACTED
  end.

(** No sensitive key, at any depth, holds anything but the marker. *)
Fixpoint clean (v : value) : Prop :=
  match v with
  | Prim _ | Func _ | Throwing _ => True
  | Arr items => (fix all (l : list value) :
                    Prop :=
                    match l with
                    | [] => True
                    | x :: r => clean x /\ all r
                    end) items
  | Obj members | Other _ members =>
      (fix all (l : list (string * value)) : Prop :=
         match l with
         | [] => True
         | (key, x) :: r => (if sensitive key then x = REDACTED else clean x) /\ all r
         end) members
  end.

(** Plain data without a sensitive key: primitives, functions, arrays and
    plain objects, no key of which, at any depth, is sensitive. *)
Fixpoint plain (v : value) : Prop :=
  match v with
  | Prim _ | Func _ => True
  | Arr items => (fix all (l : list value) : Prop :=
                    match l with
                    | [] => True
                    | x :: r => plain x /\ all r
                    end) items
  | Obj members =>
      (fix all (l : list (string * value)) : Prop :=
         match l with
         | [] => True
         | (key, x) :: r => (sensitive key = false /\ plain x) /\ all r
         end) members
  | Other _ _ | Throwing _ => False
  end.

(** The keys of a value, level by level, with the values and the classes
    left out. *)
Fixpoint skeleton (v : value) : value :=
  match v with
  | Prim _ | Func _ | Throwing _ => Prim Js.JNull
  | Arr items => Arr (map skeleton items)
  | Obj members | Other _ members =>
      Obj (map (fun kv => match kv with
                          | (key, x) => (key, if sensitive key then Prim Js.JNull else skeleton x)
                          end) members)
  end.

(** One step into a value: to a property of an object or to an element of
    an array. *)
Inductive step : Type :=
| Key (key : string)
| Index (i : nat).

(** [members[key]]. *)
Definition property (key : string) (members : list (string * value)) : option value :=
  match find (fun kv => String.eqb (fst kv) key) members with
  | Some kv => Some (snd kv)
  | None => None
  end.

(** What stands at the end of a path into a value. *)
Fixpoint at_path (path : list step) (v : value) : option value :=
  match path with
  | [] => Some v
  | Key key :: rest =>
      match v with
      | Obj members | Other _ members =>
          match property key members with
          | Some x => at_path rest x
          | None => None
          end
      | _ => None
      end
  | Index i :: rest =>
      match v with
      | Arr items =>
          match nth_error items i with
          | Some x => at_path rest x
          | None => None
          end
      | _ => None
      end
  end.

(** A step that does not enter a sensitive key. *)
Definition open_step (s : step) : bool :=
  match s with
  | Key key => negb (sensitive key)
  | Index _ => true
  end.

End Redact.

(** ** How a computation changes the cache *)

(** With the cache answering, [m] returns, turns the cache [c] into [g c]
    and leaves the cache answering. *)
Definition cache_to {A} (g : gmap string CacheValue -> gmap string CacheValue)
    (m : M A) : Prop :=
  forall w, cache_healthy w ->
    cache (post (m w)) = g (cache w)
    /\ cache_healthy (post (m w))
    /\ exists a, res (m w) = Ok a.

Definition not_db_write (e : Event) : Prop :=
  match e with
  | DbWrite => False
  | _ => True
  end.

Definition not_db_read (e : Event) : Prop :=
  match e with
  | DbRead => False
  | _ => True
  end.

Definition task_key (id : string) : string := "task:" +:+ id.

Definition due_task (id : string) (s : TaskStatus) (due : option Z) : Task :=
  {| task_id := id; task_title := "Pay invoice"; task_description := None;
     task_status := s; task_priority := HIGH; task_dueDate := due;
     task_createdAt := 5; task_userId := "u1" |}.

Definition status_job (id : string) (s : TaskStatus) : Job :=
  {| job_id := "12"; job_name := "task-status-update"; job_data := status_payload id s |}.

(** The job [checkOverdueTasks] submits for a task. *)
Definition notification (id : string) : QueuedJob :=
  {| q_name := "overdue-tasks-notification";
     q_data := {| taskId := Js.JStr id; status := Js.JUndefined |};
     q_attempts := 3; q_backoff_delay := 2000 |}.

(** The ids [checkOverdueTasks] finds. *)
Definition overdue_ids (w : World) : list string :=
  map task_id (List.filter (overdue (clock w)) (db w)).

(** ** Reading a JSON string literal back *)

Module Unescape.

Definition hex_value (c : ascii) : N :=
  let n := N_of_ascii c in
  if ((48 <=? n) && (n <=? 57))%N then (n - 48)%N else (n - 87)%N.

(** The character that the escape at the head of [s] stands for, and what
    follows it; [None] where no escaped character starts (at the closing
    quote or at the end). *)
Definition first (s : string) : option (ascii * string) :=
  match s with
  | EmptyString => None
  | String a r =>
      if Ascii.eqb a Js.dquote then None
      else if Ascii.eqb a Js.backslash then
        match r with
        | EmptyString => None
        | String k r' =>
            if Ascii.eqb k Js.dquote then Some (Js.dquote, r')
            else if Ascii.eqb k Js.backslash then Some (Js.backslash, r')
            else if Ascii.eqb k "b" then Some (ascii_of_N 8, r')
            else if Ascii.eqb k "t" then Some (ascii_of_N 9, r')
            else if Ascii.eqb k "n" then Some (ascii_of_N 10, r')
            else if Ascii.eqb k "f" then Some (ascii_of_N 12, r')
            else if Ascii.eqb k "r" then Some (ascii_of_N 13, r')
            else
              match r' with
              | String _ (String _ (String h (String l r''))) =>
                  Some (ascii_of_N (16 * hex_value h + hex_value l), r'')
              | _ => None
              end
        end
      else Some (a, r)
  end.

(** A character of a number as [JSON.stringify] writes it. *)
Definition number_char (c : ascii) : bool := Guard.is_digit c || Ascii.eqb c "-".

Fixpoint number_chars (s : string) : bool :=
  match s with
  | EmptyString => true
  | String c r => number_char c && number_chars r
  end.

(** What follows a member inside an object: a comma or the closing
    brace. *)
Definition delimited (s : string) : Prop :=
  exists r, s = String "," r \/ s = String "}" r.

End Unescape.

(** One property of a filter as [JSON.stringify] writes it. *)
Definition member (e : Filter.entry) : string :=
  Js.quote (Filter.field_name (Filter.field_of e)) +:+ ":"
  +:+ Filter.stringify_value (Filter.value_of e).

(** * Properties *)

Local Open Scope list_scope.

(** ** Cache keys *)

Section CacheKeys.

Import Filter.

Lemma entry_determined (e1 e2 : entry) :
  field_of e1 = field_of e2 -> value_of e1 = value_of e2 -> e1 = e2.
Proof.
  destruct e1, e2; simpl; intros Hf Hv; try discriminate Hf;
    injection Hv as ->; reflexivity.
Qed.

Lemma get_absent (k : field) (f : Filter.t) : k ∉ fields f -> get k f = None.
Proof.
  induction f as [|e r IH]; simpl; [reflexivity|].
  intros Hk. apply not_elem_of_cons in Hk as [Hne Hr].
  destruct (decide (field_of e = k)) as [Heq|_]; [congruence | auto].
Qed.

(** Filters with the same properties in the same order and the same
    values are the same object. *)
Lemma same_order_same_values (f1 f2 : Filter.t) :
  wf f1 -> fields f1 = fields f2 -> same_values f1 f2 -> f1 = f2.
Proof.
  unfold wf, same_values. revert f2.
  induction f1 as [|e1 r1 IH]; intros [|e2 r2] Hwf Hfs Hv;
    simpl in Hfs; try discriminate Hfs; [reflexivity|].
  injection Hfs as Hf Hr.
  apply NoDup_cons in Hwf as [Hnotin Hwf].
  assert (He : e1 = e2).
  { apply entry_determined; [exact Hf|].
    specialize (Hv (field_of e1)). simpl in Hv.
    rewrite decide_True in Hv by reflexivity.
    rewrite decide_True in Hv by (symmetry; exact Hf).
    congruence. }
  subst e2. f_equal. apply IH; [exact Hwf | exact Hr |].
  intros k. specialize (Hv k). simpl in Hv.
  destruct (decide (field_of e1 = k)) as [<-|Hne]; [|exact Hv].
  rewrite !get_absent; [reflexivity | | exact Hnotin].
  unfold fields in *. rewrite <- Hr. exact Hnotin.
Qed.

End CacheKeys.

(** C3 (counterexample): two filters with identical values for all seven
    properties, built in a different insertion order, get different cache
    keys. *)
Lemma getCacheKey_insertion_order_counterexample :
  Filter.wf filter_status_first /\ Filter.wf filter_page_first /\
  Filter.same_values filter_status_first filter_page_first /\
  getCacheKey filter_status_first <> getCacheKey filter_page_first.
Proof.
  repeat split.
  - unfold Filter.wf. compute_done.
  - unfold Filter.wf. compute_done.
  - intros k. destruct k; reflexivity.
  - vm_compute. discriminate.
Qed.

(** C3 (amended): the cache key is a function of the filter's properties in
    their insertion order: two filter objects with the same properties in
    the same insertion order and identical values for status, priority,
    search text, page, limit, sortBy and sortOrder get the same key. *)
Theorem getCacheKey_same_insertion_order (f1 f2 : Filter.t) :
  Filter.wf f1 ->
  Filter.fields f1 = Filter.fields f2 ->
  Filter.same_values f1 f2 ->
  getCacheKey f1 = getCacheKey f2.
Proof.
  intros Hwf Hfs Hv. f_equal. exact (same_order_same_values f1 f2 Hwf Hfs Hv).
Qed.

Lemma getCacheKey_same_insertion_order_witness :
  getCacheKey filter_status_first
  = getCacheKey [Filter.Status ("PEND" +:+ "ING"); Filter.PageNo (2 - 1)].
Proof.
  apply getCacheKey_same_insertion_order.
  - unfold Filter.wf. compute_done.
  - reflexivity.
  - intros k. destruct k; reflexivity.
Defined.

(** ** The rate limiter *)

Section RateLimiter.

Import RateLimit.

Lemma ceil_seconds_bounds (x : Z) :
  1000 * (ceil_seconds x - 1) < x <= 1000 * ceil_seconds x.
Proof.
  unfold ceil_seconds.
  pose proof (Z.div_mod (- x) 1000 ltac:(lia)) as Hdm.
  pose proof (Z.mod_pos_bound (- x) 1000 ltac:(lia)) as Hb.
  lia.
Qed.

(** At the very instant [expiresAt] the window still counts as running:
    a caller that has used up its limit is rejected with a wait of zero
    seconds. *)
Lemma handleRateLimit_at_expiry (ip : string) (o : RateLimitOptions)
    (store : gmap string record) (r : record) :
  store !! ip = Some r -> limit o <= count r ->
  handleRateLimit (expiresAt r) ip o store = (TooManyRequests 0, store).
Proof.
  intros Hr Hc. unfold handleRateLimit. rewrite Hr.
  rewrite (proj2 (Z.ltb_ge _ _)) by lia.
  destruct (count r >=? limit o) eqn:E; [|lia].
  rewrite Z.sub_diag. reflexivity.
Qed.

Lemma handleRateLimit_fresh (now : Z) (ip : string) (o : RateLimitOptions)
    (store : gmap string record) :
  starts_window store ip now ->
  handleRateLimit now ip o store
  = (Allowed, <[ip := {| count := 1; expiresAt := now + windowMs o |}]> store).
Proof.
  unfold starts_window, handleRateLimit. destruct (store !! ip) as [r|]; [|reflexivity].
  intros H. rewrite (proj2 (Z.ltb_lt _ _) H). reflexivity.
Qed.

Lemma handleRateLimit_increment (now : Z) (ip : string) (o : RateLimitOptions)
    (store : gmap string record) (r : record) :
  store !! ip = Some r -> now <= expiresAt r -> count r < limit o ->
  handleRateLimit now ip o store
  = (Allowed, <[ip := {| count := count r + 1; expiresAt := expiresAt r |}]> store).
Proof.
  intros Hr Hn Hc. unfold handleRateLimit. rewrite Hr.
  rewrite (proj2 (Z.ltb_ge _ _) Hn).
  destruct (count r >=? limit o) eqn:E; [lia | reflexivity].
Qed.

Lemma handleRateLimit_reject (now : Z) (ip : string) (o : RateLimitOptions)
    (store : gmap string record) (r : record) :
  store !! ip = Some r -> now <= expiresAt r -> limit o <= count r ->
  handleRateLimit now ip o store
  = (TooManyRequests (ceil_seconds (expiresAt r - now)), store).
Proof.
  intros Hr Hn Hc. unfold handleRateLimit. rewrite Hr.
  rewrite (proj2 (Z.ltb_ge _ _) Hn).
  destruct (count r >=? limit o) eqn:E; [reflexivity | lia].
Qed.

(** C6 (counterexample): with [L = 2] and [W = 60000], a third request
    made at the very instant the window expires is still a request of that
    window: it is rejected, and with a [retryAfter] of 0, which is not in
    (0, 60]. *)
Lemma handleRateLimit_expiry_counterexample :
  let ip := "10.0.0.x" in
  let r1 := handleRateLimit 0 ip two_per_minute ∅ in
  let r2 := handleRateLimit 10 ip two_per_minute (snd r1) in
  let r3 := handleRateLimit 60000 ip two_per_minute (snd r2) in
  fst r1 = Allowed /\ fst r2 = Allowed
  /\ snd r2 !! ip = Some {| count := 2; expiresAt := 60000 |}
  /\ fst r3 = TooManyRequests 0
  /\ ~ (exists retryAfter, fst r3 = TooManyRequests retryAfter /\ 0 < retryAfter <= 60).
Proof.
  repeat split; try reflexivity.
  intros (retryAfter & H & Hr). vm_compute in H. injection H as <-. lia.
Qed.

(** C6 (amended): the fixed-window rule of [handleRateLimit].  For a
    caller key [ip], limit [L] and window [W]: with no record or an
    expired record (one whose expiry lies before now) the request is
    allowed and a fresh record with count 1 and expiry [now + W] is
    stored; with a running window and count below [L] the request is
    allowed and the count goes up by one; otherwise it is rejected, the
    store is left as it is, and [retryAfter] is the least number of
    seconds covering [windowExpiry - now].  With [L = 2] and [W = 60000]:
    requests 1 and 2 of a window are allowed, request 3 made up to and
    including the instant of expiry is rejected with [retryAfter] in
    [0, 60], which is 0 exactly at that instant, and a request made after
    that instant is allowed and leaves a record with count 1. *)
Theorem handleRateLimit_fixed_window (ip : string) :
  (forall L W now store,
      starts_window store ip now ->
      handleRateLimit now ip {| limit := L; windowMs := W |} store
      = (Allowed, <[ip := {| count := 1; expiresAt := now + W |}]> store))
  /\ (forall L W now store r,
      store !! ip = Some r -> now <= expiresAt r -> count r < L ->
      handleRateLimit now ip {| limit := L; windowMs := W |} store
      = (Allowed, <[ip := {| count := count r + 1; expiresAt := expiresAt r |}]> store))
  /\ (forall L W now store r,
      store !! ip = Some r -> now <= expiresAt r -> L <= count r ->
      exists retryAfter,
        handleRateLimit now ip {| limit := L; windowMs := W |} store
        = (TooManyRequests retryAfter, store)
        /\ retryAfter = ceil_seconds (expiresAt r - now)
        /\ 1000 * (retryAfter - 1) < expiresAt r - now <= 1000 * retryAfter)
  /\ (forall store t1 t2 t3 t4,
      starts_window store ip t1 ->
      t1 <= t2 -> t2 <= t3 -> t3 <= t1 + 60000 -> t1 + 60000 < t4 ->
      let r1 := handleRateLimit t1 ip two_per_minute store in
      let r2 := handleRateLimit t2 ip two_per_minute (snd r1) in
      let r3 := handleRateLimit t3 ip two_per_minute (snd r2) in
      let r4 := handleRateLimit t4 ip two_per_minute (snd r3) in
      fst r1 = Allowed /\ fst r2 = Allowed
      /\ (exists retryAfter,
             fst r3 = TooManyRequests retryAfter /\ 0 <= retryAfter <= 60
             /\ (retryAfter = 0 <-> t3 = t1 + 60000))
      /\ fst r4 = Allowed
      /\ snd r4 !! ip = Some {| count := 1; expiresAt := t4 + 60000 |}).
Proof.
  split; [|split; [|split]].
  - intros L W now store H. exact (handleRateLimit_fresh now ip {| limit := L; windowMs := W |} store H).
  - intros L W now store r Hr Hn Hc.
    exact (handleRateLimit_increment now ip {| limit := L; windowMs := W |} store r Hr Hn Hc).
  - intros L W now store r Hr Hn Hc. eexists. split; [|split; [reflexivity|]].
    + exact (handleRateLimit_reject now ip {| limit := L; windowMs := W |} store r Hr Hn Hc).
    + apply ceil_seconds_bounds.
  - intros store t1 t2 t3 t4 Hs H12 H23 H3 H4 r1 r2 r3 r4.
    assert (E1 : r1 = (Allowed, <[ip := {| count := 1; expiresAt := t1 + 60000 |}]> store)).
    { exact (handleRateLimit_fresh t1 ip two_per_minute store Hs). }
    assert (E2 : r2 = (Allowed, <[ip := {| count := 2; expiresAt := t1 + 60000 |}]> (snd r1))).
    { subst r2. rewrite E1. simpl.
      rewrite (handleRateLimit_increment t2 ip two_per_minute _
                 {| count := 1; expiresAt := t1 + 60000 |});
        simpl; [reflexivity | apply lookup_insert_eq | lia | lia]. }
    assert (E3 : r3 = (TooManyRequests (ceil_seconds (t1 + 60000 - t3)), snd r2)).
    { subst r3. rewrite E2. simpl.
      rewrite (handleRateLimit_reject t3 ip two_per_minute _
                 {| count := 2; expiresAt := t1 + 60000 |});
        simpl; [reflexivity | apply lookup_insert_eq | lia | lia]. }
    assert (E4 : r4 = (Allowed, <[ip := {| count := 1; expiresAt := t4 + 60000 |}]> (snd r3))).
    { subst r4. apply handleRateLimit_fresh. unfold starts_window.
      rewrite E3, E2. simpl. rewrite lookup_insert_eq. simpl. lia. }
    rewrite E1, E2, E3, E4. simpl.
    repeat split; try reflexivity.
    + exists (ceil_seconds (t1 + 60000 - t3)). split; [reflexivity|].
      pose proof (ceil_seconds_bounds (t1 + 60000 - t3)). lia.
    + apply lookup_insert_eq.
Qed.

Lemma handleRateLimit_fixed_window_witness :
  let ip := "10.0.0.x" in
  let r1 := handleRateLimit 0 ip two_per_minute ∅ in
  let r2 := handleRateLimit 10 ip two_per_minute (snd r1) in
  let r3 := handleRateLimit 1500 ip two_per_minute (snd r2) in
  let r4 := handleRateLimit 60001 ip two_per_minute (snd r3) in
  fst r1 = Allowed /\ fst r2 = Allowed
  /\ (exists retryAfter,
         fst r3 = TooManyRequests retryAfter /\ 0 <= retryAfter <= 60
         /\ (retryAfter = 0 <-> 1500 = 0 + 60000))
  /\ fst r4 = Allowed
  /\ snd r4 !! ip = Some {| count := 1; expiresAt := 60001 + 60000 |}.
Proof.
  apply (proj2 (proj2 (proj2 (handleRateLimit_fixed_window "10.0.0.x"))) ∅ 0 10 1500 60001).
  - unfold starts_window. rewrite lookup_empty. exact I.
  - lia.
  - lia.
  - lia.
  - lia.
Defined.

End RateLimiter.

(** ** Running computations *)

Section Running.

Context {A B : Type}.
Implicit Types (m : M A) (f : A -> M B) (w : World).

Lemma res_bind m f w :
  res (bind m f w)
  = match res (m w) with
    | Ok a => res (f a (post (m w)))
    | Throw e => Throw e
    end.
Proof. unfold bind. destruct (res (m w)); reflexivity. Qed.

Lemma post_bind m f w :
  post (bind m f w)
  = match res (m w) with
    | Ok a => post (f a (post (m w)))
    | Throw _ => post (m w)
    end.
Proof. unfold bind. destruct (res (m w)); reflexivity. Qed.

Lemma evs_bind m f w :
  evs (bind m f w)
  = evs (m w) ++ match res (m w) with
                 | Ok a => evs (f a (post (m w)))
                 | Throw _ => []
                 end.
Proof. unfold bind. destruct (res (m w)); simpl; [reflexivity | by rewrite app_nil_r]. Qed.

Lemma res_try_catch m (h : Error -> M A) w :
  res (try_catch m h w)
  = match res (m w) with
    | Ok a => Ok a
    | Throw e => res (h e (post (m w)))
    end.
Proof. unfold try_catch. destruct (res (m w)) eqn:E; simpl; [exact E | reflexivity]. Qed.

Lemma post_try_catch m (h : Error -> M A) w :
  post (try_catch m h w)
  = match res (m w) with
    | Ok _ => post (m w)
    | Throw e => post (h e (post (m w)))
    end.
Proof. unfold try_catch. destruct (res (m w)); reflexivity. Qed.

Lemma evs_try_catch m (h : Error -> M A) w :
  evs (try_catch m h w)
  = evs (m w) ++ match res (m w) with
                 | Ok _ => []
                 | Throw e => evs (h e (post (m w)))
                 end.
Proof.
  unfold try_catch. destruct (res (m w)); simpl; [by rewrite app_nil_r | reflexivity].
Qed.

Lemma res_transaction m w : res (transaction m w) = res (m w).
Proof. unfold transaction. destruct (res (m w)); reflexivity. Qed.

Lemma evs_transaction m w :
  evs (transaction m w)
  = TxBegin :: evs (m w) ++ [match res (m w) with Ok _ => TxCommit | Throw _ => TxRollback end].
Proof. unfold transaction. destruct (res (m w)); reflexivity. Qed.

Lemma post_transaction m w :
  post (transaction m w)
  = match res (m w) with
    | Ok _ => post (m w)
    | Throw _ => with_db (db w) (post (m w))
    end.
Proof. unfold transaction. destruct (res (m w)); reflexivity. Qed.

End Running.

Section Closure.

Context {A B : Type}.

Lemma emits_ret Q (a : A) : emits Q (ret a).
Proof. intros w. constructor. Qed.

Lemma emits_throw Q e : emits Q (@throw A e).
Proof. intros w. constructor. Qed.

Lemma emits_logger (Q : Event -> Prop) l s : Q (LogEv l s) -> emits Q (logger l s).
Proof. intros H w. repeat constructor. exact H. Qed.

Lemma emits_bind Q (m : M A) (f : A -> M B) :
  emits Q m -> (forall a, emits Q (f a)) -> emits Q (bind m f).
Proof.
  intros Hm Hf w. rewrite evs_bind. apply Forall_app. split; [apply Hm|].
  destruct (res (m w)); [apply Hf | constructor].
Qed.

Lemma emits_try_catch Q (m : M A) (h : Error -> M A) :
  emits Q m -> (forall e, emits Q (h e)) -> emits Q (try_catch m h).
Proof.
  intros Hm Hh w. rewrite evs_try_catch. apply Forall_app. split; [apply Hm|].
  destruct (res (m w)); [constructor | apply Hh].
Qed.

Lemma keeps_ret {X} (proj : World -> X) (a : A) : keeps proj (ret a).
Proof. intros w. reflexivity. Qed.

Lemma keeps_throw {X} (proj : World -> X) e : keeps proj (@throw A e).
Proof. intros w. reflexivity. Qed.

Lemma keeps_logger {X} (proj : World -> X) l s : keeps proj (logger l s).
Proof. intros w. reflexivity. Qed.

Lemma keeps_bind {X} (proj : World -> X) (m : M A) (f : A -> M B) :
  keeps proj m -> (forall a, keeps proj (f a)) -> keeps proj (bind m f).
Proof.
  intros Hm Hf w. rewrite post_bind.
  destruct (res (m w)) as [a|e]; [rewrite (Hf a)|]; apply Hm.
Qed.

Lemma keeps_try_catch {X} (proj : World -> X) (m : M A) (h : Error -> M A) :
  keeps proj m -> (forall e, keeps proj (h e)) -> keeps proj (try_catch m h).
Proof.
  intros Hm Hh w. rewrite post_try_catch.
  destruct (res (m w)) as [a|e]; [|rewrite (Hh e)]; apply Hm.
Qed.

Lemma total_ret (a : A) : total (ret a).
Proof. intros w. by exists a. Qed.

Lemma total_logger l s : total (logger l s).
Proof. intros w. by exists tt. Qed.

Lemma total_bind (m : M A) (f : A -> M B) :
  total m -> (forall a, total (f a)) -> total (bind m f).
Proof.
  intros Hm Hf w. rewrite res_bind. destruct (Hm w) as [a ->]. apply Hf.
Qed.

Lemma total_try_catch (m : M A) (h : Error -> M A) :
  (forall e, total (h e)) -> total (try_catch m h).
Proof.
  intros Hh w. rewrite res_try_catch.
  destruct (res (m w)) as [a|e]; [by exists a | apply Hh].
Qed.

Lemma safe_ret (a : A) : safe (ret a).
Proof. intros w Hw. split; [exact Hw | by exists a]. Qed.

Lemma safe_logger l s : safe (logger l s).
Proof. intros w Hw. split; [exact Hw | by exists tt]. Qed.

Lemma safe_bind (m : M A) (f : A -> M B) :
  safe m -> (forall a, safe (f a)) -> safe (bind m f).
Proof.
  intros Hm Hf w Hw. rewrite post_bind, res_bind.
  destruct (Hm w Hw) as [Hp [a ->]]. apply Hf, Hp.
Qed.

Lemma safe_try_catch (m : M A) (h : Error -> M A) :
  keeps cacheFaults m -> (forall e, safe (h e)) -> safe (try_catch m h).
Proof.
  intros Hm Hh w Hw. rewrite post_try_catch, res_try_catch.
  assert (Hp : cache_healthy (post (m w))) by (unfold cache_healthy; rewrite Hm; exact Hw).
  destruct (res (m w)) as [a|e]; [split; [exact Hp | by exists a] | apply Hh, Hp].
Qed.

End Closure.

Lemma emits_for_each {A} Q (l : list A) (body : A -> M unit) :
  (forall a, emits Q (body a)) -> emits Q (for_each l body).
Proof.
  intros Hb. induction l as [|x r IH]; simpl; [apply emits_ret|].
  apply emits_bind; [apply Hb | intros _; exact IH].
Qed.

Lemma keeps_for_each {A X} (proj : World -> X) (l : list A) (body : A -> M unit) :
  (forall a, keeps proj (body a)) -> keeps proj (for_each l body).
Proof.
  intros Hb. induction l as [|x r IH]; simpl; [apply keeps_ret|].
  apply keeps_bind; [apply Hb | intros _; exact IH].
Qed.

Lemma safe_for_each {A} (l : list A) (body : A -> M unit) :
  (forall a, safe (body a)) -> safe (for_each l body).
Proof.
  intros Hb. induction l as [|x r IH]; simpl; [apply safe_ret|].
  apply safe_bind; [apply Hb | intros _; exact IH].
Qed.

(** ** The cache manager, the queue and the store, call by call *)

Lemma healthy_next (l : list bool) :
  Forall (fun b => b = false) l ->
  fst (next_fault l) = false /\ Forall (fun b => b = false) (snd (next_fault l)).
Proof.
  intros H. destruct H as [|b r Hb Hr]; simpl; [split; [reflexivity | constructor]|].
  split; [exact Hb | exact Hr].
Qed.

Lemma evs_cacheManager_del key w :
  evs (cacheManager_del key w) = [CacheDel key (negb (fst (next_fault (cacheFaults w))))].
Proof. unfold cacheManager_del. destruct (fst (next_fault (cacheFaults w))); reflexivity. Qed.

Lemma evs_taskQueue_add name d a b w :
  evs (taskQueue_add name d a b w)
  = [QueueAdd name d (negb (fst (next_fault (queueFaults w))))].
Proof. unfold taskQueue_add. destruct (fst (next_fault (queueFaults w))); reflexivity. Qed.

Lemma emits_cacheManager_get (Q : Event -> Prop) key :
  (forall b, Q (CacheGet key b)) -> emits Q (cacheManager_get key).
Proof.
  intros H w. unfold cacheManager_get.
  destruct (fst (next_fault (cacheFaults w))); repeat constructor; apply H.
Qed.

Lemma emits_cacheManager_set (Q : Event -> Prop) key v :
  (forall b, Q (CacheSet key b)) -> emits Q (cacheManager_set key v).
Proof.
  intros H w. unfold cacheManager_set.
  destruct (fst (next_fault (cacheFaults w))); repeat constructor; apply H.
Qed.

Lemma emits_cacheManager_del (Q : Event -> Prop) key :
  (forall b, Q (CacheDel key b)) -> emits Q (cacheManager_del key).
Proof. intros H w. rewrite evs_cacheManager_del. repeat constructor. apply H. Qed.

Lemma emits_taskQueue_add (Q : Event -> Prop) name d a b :
  (forall ok, Q (QueueAdd name d ok)) -> emits Q (taskQueue_add name d a b).
Proof. intros H w. rewrite evs_taskQueue_add. repeat constructor. apply H. Qed.

Lemma keeps_db_cacheManager_get key : keeps db (cacheManager_get key).
Proof. intros w. unfold cacheManager_get. destruct (fst _); reflexivity. Qed.

Lemma keeps_db_cacheManager_set key v : keeps db (cacheManager_set key v).
Proof. intros w. unfold cacheManager_set. destruct (fst _); reflexivity. Qed.

Lemma keeps_db_cacheManager_del key : keeps db (cacheManager_del key).
Proof. intros w. unfold cacheManager_del. destruct (fst _); reflexivity. Qed.

Lemma keeps_db_taskQueue_add name d a b : keeps db (taskQueue_add name d a b).
Proof. intros w. unfold taskQueue_add. destruct (fst _); reflexivity. Qed.

Lemma keeps_queue_cacheManager_del key : keeps queue (cacheManager_del key).
Proof. intros w. unfold cacheManager_del. destruct (fst _); reflexivity. Qed.

Lemma safe_cacheManager_get key : safe (cacheManager_get key).
Proof.
  intros w Hc. destruct (healthy_next _ Hc) as [E Hr].
  unfold cacheManager_get. rewrite E. simpl. split; [assumption | eauto].
Qed.

Lemma safe_cacheManager_set key v : safe (cacheManager_set key v).
Proof.
  intros w Hc. destruct (healthy_next _ Hc) as [E Hr].
  unfold cacheManager_set. rewrite E. simpl. split; [assumption | eauto].
Qed.

Lemma safe_cacheManager_del key : safe (cacheManager_del key).
Proof.
  intros w Hc. destruct (healthy_next _ Hc) as [E Hr].
  unfold cacheManager_del. rewrite E. simpl. split; [assumption | eauto].
Qed.

Lemma keeps_cacheFaults_taskQueue_add name d a b :
  keeps cacheFaults (taskQueue_add name d a b).
Proof. intros w. unfold taskQueue_add. destruct (fst _); reflexivity. Qed.

Lemma safe_repo_update_status_in ids s : safe (repo_update_status_in ids s).
Proof. intros w Hw. split; [exact Hw | simpl; eauto]. Qed.

Create HintDb effects.

#[local] Hint Resolve
  emits_ret emits_throw emits_logger emits_bind emits_try_catch emits_for_each
  emits_cacheManager_get emits_cacheManager_set emits_cacheManager_del
  emits_taskQueue_add
  keeps_ret keeps_throw keeps_logger keeps_bind keeps_try_catch keeps_for_each
  keeps_db_cacheManager_get keeps_db_cacheManager_set keeps_db_cacheManager_del
  keeps_db_taskQueue_add keeps_queue_cacheManager_del keeps_cacheFaults_taskQueue_add
  total_ret total_logger total_bind total_try_catch
  safe_ret safe_logger safe_bind safe_try_catch safe_for_each
  safe_cacheManager_get safe_cacheManager_set safe_cacheManager_del
  safe_repo_update_status_in : effects.

#[local] Hint Extern 1 (neutral _) => exact I : effects.
#[local] Hint Extern 1 (not_enqueue _) => reflexivity : effects.

Ltac effects := intros; eauto 20 with effects.

Lemma invalidateTaskCache_neutral : emits neutral invalidateTaskCache.
Proof. unfold invalidateTaskCache. effects. Qed.

Lemma invalidateTaskCache_not_enqueue : emits not_enqueue invalidateTaskCache.
Proof. unfold invalidateTaskCache. effects. Qed.

Lemma invalidateTaskCache_keeps_db : keeps db invalidateTaskCache.
Proof. unfold invalidateTaskCache. effects. Qed.

Lemma invalidateTaskCache_keeps_queue : keeps queue invalidateTaskCache.
Proof. unfold invalidateTaskCache. effects. Qed.

Lemma invalidateTaskCache_safe : safe invalidateTaskCache.
Proof. unfold invalidateTaskCache. effects. Qed.

(** The first thing [invalidateTaskCache] does is delete 'tasks:all'. *)
Lemma invalidateTaskCache_first w :
  exists b rest, evs (invalidateTaskCache w) = CacheDel "tasks:all" b :: rest.
Proof.
  unfold invalidateTaskCache. rewrite evs_bind. simpl for_each.
  rewrite evs_bind, evs_cacheManager_del. simpl. eauto.
Qed.

#[local] Hint Resolve invalidateTaskCache_neutral invalidateTaskCache_not_enqueue
  invalidateTaskCache_keeps_db invalidateTaskCache_keeps_queue
  invalidateTaskCache_safe : effects.

(** ** Traces and the commit *)

Lemma settled_step e : e <> TxBegin -> step_tx settled e = settled.
Proof. intros H. destruct e; try reflexivity. congruence. Qed.

(** Once a write is committed and no transaction is opened again, every
    later effect comes after the commit. *)
Lemma after_commit_settled watched tr :
  Forall (fun e => e <> TxBegin) tr -> all_after_commit watched settled tr = true.
Proof.
  induction 1 as [|e r He Hr IH]; simpl; [reflexivity|].
  rewrite (settled_step e He), IH. destruct (watched e); reflexivity.
Qed.

Lemma neutral_not_begin tr : Forall neutral tr -> Forall (fun e => e <> TxBegin) tr.
Proof. intros H. eapply Forall_impl; [exact H|]. intros e He ->. exact He. Qed.

Lemma enqueue_attempts_app tr1 tr2 :
  enqueue_attempts (tr1 ++ tr2) = (enqueue_attempts tr1 + enqueue_attempts tr2)%nat.
Proof. unfold enqueue_attempts. rewrite List.filter_app, length_app. reflexivity. Qed.

Lemma enqueue_attempts_none tr : Forall not_enqueue tr -> enqueue_attempts tr = 0%nat.
Proof.
  unfold enqueue_attempts. induction 1 as [|e r He Hr IH]; simpl; [reflexivity|].
  rewrite He. exact IH.
Qed.

(** ** Where the mutations enqueue and invalidate *)

(** A guarded enqueue, [try { await taskQueue.add(..) } catch (err) {
    logger.error(..) }], never throws: it makes one attempt and logs the
    error of a failed one. *)
Lemma guarded_enqueue_total name d a b (msg : Error -> string) :
  total (try_catch (taskQueue_add name d a b) (fun err => logger LError (msg err))).
Proof. effects. Qed.

Lemma guarded_enqueue_evs name d a b (msg : Error -> string) w :
  evs (try_catch (taskQueue_add name d a b) (fun err => logger LError (msg err)) w)
  = if fst (next_fault (queueFaults w))
    then [QueueAdd name d false; LogEv LError (msg QueueUnavailable)]
    else [QueueAdd name d true].
Proof.
  rewrite evs_try_catch. unfold taskQueue_add.
  destruct (fst (next_fault (queueFaults w))); reflexivity.
Qed.

Lemma guarded_enqueue_attempts name d a b (msg : Error -> string) w :
  enqueue_attempts
    (evs (try_catch (taskQueue_add name d a b) (fun err => logger LError (msg err)) w))
  = 1%nat.
Proof.
  rewrite guarded_enqueue_evs. destruct (fst (next_fault (queueFaults w))); reflexivity.
Qed.

Lemma guarded_enqueue_res name d a b (msg : Error -> string) w :
  res (try_catch (taskQueue_add name d a b) (fun err => logger LError (msg err)) w) = Ok tt.
Proof.
  rewrite res_try_catch. unfold taskQueue_add.
  destruct (fst (next_fault (queueFaults w))); reflexivity.
Qed.

Lemma guarded_enqueue_keeps_db name d a b (msg : Error -> string) :
  keeps db (try_catch (taskQueue_add name d a b) (fun err => logger LError (msg err))).
Proof. effects. Qed.

Lemma getManyAndCount_runs (q : Query) (w : World) :
  refused q = None ->
  getManyAndCount q w = {| res := Ok (run_query q (db w)); post := w; evs := [DbRead] |}.
Proof. intros H. unfold getManyAndCount. rewrite H. reflexivity. Qed.

Lemma getManyAndCount_refused (q : Query) (message : string) (w : World) :
  refused q = Some message ->
  getManyAndCount q w
  = {| res := Throw (QueryFailedError message); post := w; evs := [DbRead] |}.
Proof. intros H. unfold getManyAndCount. rewrite H. reflexivity. Qed.

(** The store runs a query exactly when its offset and its limit are
    [bigint]s that are not negative. *)
Lemma refused_none (q : Query) :
  refused q = None <-> 0 <= q_skip q <= 2 ^ 63 - 1 /\ 0 <= q_take q <= 2 ^ 63 - 1.
Proof.
  unfold refused, bigint.
  destruct (Z.leb_spec (- 2 ^ 63) (q_skip q)) as [H1|H1],
    (Z.leb_spec (q_skip q) (2 ^ 63 - 1)) as [H2|H2],
    (Z.leb_spec (- 2 ^ 63) (q_take q)) as [H3|H3],
    (Z.leb_spec (q_take q) (2 ^ 63 - 1)) as [H4|H4],
    (Z.ltb_spec (q_skip q) 0) as [H5|H5], (Z.ltb_spec (q_take q) 0) as [H6|H6];
    cbn [andb negb]; split; intros H; try discriminate H; try reflexivity; lia.
Qed.

Lemma to_double_exact (x : Z) : Z.abs x < 2 ^ 53 -> Js.to_double x = x.
Proof.
  intros Hx. unfold Js.to_double.
  destruct (Z.leb_spec (Z.log2 (Z.abs x) - 52) 0) as [_|He]; [reflexivity|].
  exfalso. destruct (Z.eq_dec (Z.abs x) 0) as [E|E].
  - rewrite E in He. cbn in He. lia.
  - pose proof (Z.log2_spec (Z.abs x) ltac:(lia)) as [Hlo _].
    assert (2 ^ 53 <= 2 ^ Z.log2 (Z.abs x)) by (apply Z.pow_le_mono_r; lia). lia.
Qed.

Lemma to_double_negative (x : Z) : x < 0 -> Js.to_double x < 0.
Proof.
  intros Hx. unfold Js.to_double.
  destruct (Z.leb_spec (Z.log2 (Z.abs x) - 52) 0) as [_|He]; [exact Hx|].
  set (e := Z.log2 (Z.abs x) - 52) in *.
  pose proof (Z.log2_spec (Z.abs x) ltac:(lia)) as [Hlo _].
  assert (Hp : 0 < 2 ^ e) by (apply Z.pow_pos_nonneg; lia).
  assert (Hle : 2 ^ e <= 2 ^ Z.log2 (Z.abs x)) by (apply Z.pow_le_mono_r; lia).
  assert (Hq : 1 <= Z.abs x / 2 ^ e) by (apply Z.div_le_lower_bound; lia).
  rewrite (Z.sgn_neg x Hx).
  destruct ((_ <? _) || _); nia.
Qed.

(** The paging that [TaskFilterDto] validates ([@Min(1)] on [page] and
    on [limit]) is paging the store accepts, as long as it stays within
    the safe integers. *)
Lemma refused_validated (filter : Filter.t) :
  let page := default 1 (Filter.get_num Filter.Fpage filter) in
  let limit := default 10 (Filter.get_num Filter.Flimit filter) in
  1 <= page -> 1 <= limit -> page * limit < 2 ^ 53 ->
  refused (build_query filter) = None.
Proof.
  intros page limit Hp Hl Hs. apply refused_none.
  cbn [build_query q_skip q_take]. fold page limit.
  unfold Js.mul, Js.sub.
  rewrite (to_double_exact (page - 1)) by nia.
  rewrite (to_double_exact ((page - 1) * limit)) by nia.
  nia.
Qed.

(** A negative [limit], or a positive [limit] with a [page] below one, is
    paging the store refuses. *)
Lemma refused_invalid (filter : Filter.t) :
  let page := default 1 (Filter.get_num Filter.Fpage filter) in
  let limit := default 10 (Filter.get_num Filter.Flimit filter) in
  limit < 0 \/ (0 < limit /\ page < 1) ->
  exists message, refused (build_query filter) = Some message.
Proof.
  intros page limit Hbad.
  destruct (refused (build_query filter)) as [message|] eqn:Hq; [eauto|].
  exfalso. apply refused_none in Hq. cbn [build_query q_skip q_take] in Hq.
  fold page limit in Hq. destruct Hbad as [Hl|[Hl Hp]]; [lia|].
  assert (Hsub : Js.sub page 1 < 0) by (apply to_double_negative; lia).
  assert (Js.mul (Js.sub page 1) limit < 0) by (apply to_double_negative; nia).
  lia.
Qed.

Ltac run_step :=
  first
    [ rewrite guarded_enqueue_res | rewrite guarded_enqueue_evs
    | rewrite evs_bind | rewrite res_bind | rewrite post_bind
    | rewrite evs_transaction | rewrite res_transaction | rewrite post_transaction
    | progress cbn [res post evs ret throw logger emit
                    repo_insert repo_findOne repo_save repo_delete
                    repo_update_status_in repo_delete_in app] ].

Ltac run := repeat run_step.

(** In [create] the invalidation comes after the commit. *)
Lemma create_invalidates_after_commit dto w :
  invalidates_after_commit (evs (create dto w)) = true.
Proof.
  unfold invalidates_after_commit, create. run.
  set (w2 := post (try_catch _ _ _)).
  set (tail := match res (invalidateTaskCache w2) with Ok _ => _ | Throw _ => _ end).
  assert (Htail : tail = []) by (subst tail; destruct (res _); reflexivity).
  rewrite Htail.
  pose proof (neutral_not_begin _ (invalidateTaskCache_neutral w2)) as Hn.
  destruct (fst (next_fault _)); simpl; rewrite ?app_nil_r;
    apply after_commit_settled; exact Hn.
Qed.

(** C2: [create] attempts its enqueue while the transaction that inserts
    the task is still open, before the commit, although the enqueue is
    meant to follow the commit (as it does in [bulkUpdateStatus]). *)
Theorem create_enqueues_inside_transaction (dto : CreateTaskDto) (w : World) :
  enqueues_after_commit (evs (create dto w)) = false.
Proof.
  unfold enqueues_after_commit, create. run.
  destruct (fst (next_fault _)); reflexivity.
Qed.

Lemma create_safe dto : safe (create dto).
Proof.
  unfold create. apply safe_bind; [|effects].
  intros w Hw. rewrite post_transaction, res_transaction.
  assert (H : safe (do saved <- repo_insert dto;
                    do_ try_catch
                          (taskQueue_add "task-status-update"
                             (status_payload (task_id saved) (task_status saved)) 3 1000)
                          (fun err =>
                             logger LError ("Failed to enqueue job for " +:+ task_id saved
                                            +:+ ": " +:+ show_error err));
                    ret saved)).
  { apply safe_bind; [|effects]. intros w' Hw'. split; [exact Hw' | simpl; eauto]. }
  destruct (H w Hw) as [Hp [a Ha]]. rewrite Ha. split; [exact Hp | eauto].
Qed.

(** A failed enqueue does not fail [create]: as long as the cache answers,
    the task is returned and stored whatever the queue does. *)
Lemma create_survives_enqueue_failure dto w :
  cache_healthy w ->
  exists saved,
    res (create dto w) = Ok saved /\ db (post (create dto w)) = db w ++ [saved].
Proof.
  intros Hw. destruct (create_safe dto w Hw) as [_ [saved Hs]].
  exists saved. split; [exact Hs|].
  revert Hs. unfold create. run.
  destruct (res (invalidateTaskCache _)); [|discriminate].
  run. intros [= <-].
  rewrite invalidateTaskCache_keeps_db, guarded_enqueue_keeps_db. reflexivity.
Qed.

(** C1: [update] deletes the cache keys inside the body of its
    transaction, before the commit, although the invalidation is meant to
    follow the commit (as it does in [create]). *)
Theorem update_invalidates_inside_transaction (id : string) (dto : UpdateTaskDto)
    (w : World) (t : Task) :
  find (fun t => String.eqb (task_id t) id) (db w) = Some t ->
  invalidates_after_commit (evs (update id dto w)) = false.
Proof.
  intros H. unfold invalidates_after_commit, update. run. rewrite H. run.
  destruct (decide _) as [Heq|Hne]; run.
  - destruct (invalidateTaskCache_first (with_db (replace_row (merge t dto) (db w)) w))
      as (b & rest & ->).
    reflexivity.
  - set (w2 := post (try_catch _ _ _)).
    destruct (invalidateTaskCache_first w2) as (b & rest & ->).
    destruct (fst (next_fault _)); reflexivity.
Qed.

Lemma update_invalidates_inside_transaction_witness :
  invalidates_after_commit
    (evs (update "a" (patch_title "Plan") (world0 [sample_task "a" PENDING 1]))) = false.
Proof.
  apply (update_invalidates_inside_transaction "a" (patch_title "Plan")
           (world0 [sample_task "a" PENDING 1]) (sample_task "a" PENDING 1)).
  reflexivity.
Defined.

(** [update] also attempts its enqueue inside the transaction. *)
Lemma update_enqueues_inside_transaction (id : string) (dto : UpdateTaskDto)
    (w : World) (t : Task) :
  find (fun t => String.eqb (task_id t) id) (db w) = Some t ->
  task_status t <> task_status (merge t dto) ->
  enqueues_after_commit (evs (update id dto w)) = false.
Proof.
  intros H Hs. unfold enqueues_after_commit, update. run. rewrite H. run.
  rewrite decide_False by exact Hs. run.
  destruct (fst (next_fault _)); reflexivity.
Qed.

(** After a statement that commits on its own, effects that do not touch
    the store all come after the commit. *)
Lemma after_autocommit watched {A} (k : M A) w :
  emits neutral k ->
  all_after_commit watched settled (evs (k w)) = true.
Proof. intros Hk. apply after_commit_settled, neutral_not_begin, Hk. Qed.

Lemma bulk_loop_neutral ids s :
  emits neutral
    (for_each ids (fun id =>
       do_ cacheManager_del ("task:" +:+ id);
       try_catch
         (taskQueue_add "task-status-update" (status_payload id s) 3 1000)
         (fun err =>
            logger LError ("Failed to enqueue job for " +:+ id +:+ ": "
                           +:+ show_error err)))).
Proof. effects. Qed.

(** In [bulkUpdateStatus] every invalidation and every enqueue attempt
    follows the committed UPDATE. *)
Lemma bulkUpdateStatus_after_commit ids s w :
  invalidates_after_commit (evs (bulkUpdateStatus ids s w)) = true
  /\ enqueues_after_commit (evs (bulkUpdateStatus ids s w)) = true.
Proof.
  unfold invalidates_after_commit, enqueues_after_commit, bulkUpdateStatus.
  destruct ids as [|i r]; [split; reflexivity|].
  rewrite evs_bind. cbn [res post evs repo_update_status_in app all_after_commit].
  cbn [is_invalidation is_enqueue step_tx idle open andb].
  split; apply after_autocommit; effects; apply bulk_loop_neutral.
Qed.

Lemma bulkDelete_invalidates_after_commit ids w :
  invalidates_after_commit (evs (bulkDelete ids w)) = true.
Proof.
  unfold invalidates_after_commit, bulkDelete.
  destruct ids as [|i r]; [reflexivity|].
  rewrite evs_bind. cbn [res post evs repo_delete_in app all_after_commit].
  cbn [is_invalidation step_tx idle open andb].
  apply after_autocommit. effects.
Qed.

Lemma remove_invalidates_after_commit id w :
  invalidates_after_commit (evs (remove id w)) = true.
Proof.
  unfold invalidates_after_commit, remove.
  rewrite evs_bind. cbn [res post evs repo_delete app all_after_commit].
  cbn [is_invalidation step_tx idle open andb].
  destruct (_ =? 0); [reflexivity|].
  apply after_autocommit. effects.
Qed.

Lemma updateStatus_invalidates_after_commit id s w :
  invalidates_after_commit (evs (updateStatus id s w)) = true.
Proof.
  unfold invalidates_after_commit, updateStatus.
  rewrite evs_bind. cbn [res post evs repo_findOne app all_after_commit].
  cbn [is_invalidation step_tx idle open andb].
  destruct (find _ _) as [t|]; [|reflexivity].
  rewrite evs_bind. cbn [res post evs repo_save app all_after_commit].
  cbn [is_invalidation step_tx idle open andb].
  apply after_autocommit. effects.
Qed.

(** ** How often the mutations enqueue *)

Lemma find_replace_row (id : string) (t t' : Task) (rows : list Task) :
  find (fun r => String.eqb (task_id r) id) rows = Some t ->
  task_id t' = task_id t ->
  find (fun r => String.eqb (task_id r) id) (replace_row t' rows) = Some t'.
Proof.
  intros Hf Hid. unfold replace_row.
  induction rows as [|r rows IH]; simpl in *; [discriminate|].
  destruct (String.eqb (task_id r) id) eqn:Er.
  - injection Hf as ->. rewrite Hid, String.eqb_refl. simpl.
    rewrite Hid, Er. reflexivity.
  - destruct (String.eqb (task_id r) (task_id t')) eqn:Er'.
    + apply String.eqb_eq in Er'. rewrite Hid in Er'.
      pose proof (List.find_some _ _ Hf) as [_ Hf']. apply String.eqb_eq in Hf'.
      rewrite Er', Hf', String.eqb_refl in Er. discriminate.
    + simpl. rewrite Er. apply IH, Hf.
Qed.

(** C10: a successful [update(id, patch)] attempts a 'task-status-update'
    enqueue if and only if the status it persists differs from the status
    the task had before; when the status is unchanged it makes no attempt
    and leaves the queue as it was.  [create] makes exactly one attempt for
    every new task. *)
Theorem update_enqueues_iff_status_changes (id : string) (patch : UpdateTaskDto)
    (w : World) (saved : Task) :
  res (update id patch w) = Ok saved ->
  (exists before,
      find (fun t => String.eqb (task_id t) id) (db w) = Some before
      /\ find (fun t => String.eqb (task_id t) id) (db (post (update id patch w)))
         = Some saved
      /\ (task_status before <> task_status saved ->
          enqueue_attempts (evs (update id patch w)) = 1%nat
          /\ In (QueueAdd "task-status-update"
                   (status_payload (task_id saved) (task_status saved))
                   (negb (fst (next_fault (queueFaults w)))))
                (evs (update id patch w)))
      /\ (task_status before = task_status saved ->
          enqueue_attempts (evs (update id patch w)) = 0%nat
          /\ queue (post (update id patch w)) = queue w))
  /\ (forall dto w', enqueue_attempts (evs (create dto w')) = 1%nat).
Proof.
  intros Hres. split.
  - revert Hres. unfold update. run.
    destruct (find _ (db w)) as [t|] eqn:Hf; run; [|discriminate].
    set (w1 := with_db _ w).
    set (enq := if decide _ then _ else _).
    assert (Henq : exists u, res (enq w1) = Ok u).
    { subst enq. destruct (decide _); [by exists tt | apply guarded_enqueue_total]. }
    destruct Henq as [u Hu]. rewrite Hu. run.
    destruct (res (invalidateTaskCache _)) eqn:Hinv; run; [|discriminate].
    destruct (res (cacheManager_del _ _)) eqn:Hdel; run; [|discriminate].
    intros [= <-]. exists t. split; [reflexivity|].
    assert (Hdel0 : forall k w', enqueue_attempts (evs (cacheManager_del k w')) = 0%nat).
    { intros k w'. apply enqueue_attempts_none, emits_cacheManager_del. reflexivity. }
    assert (Hinv0 : forall w', enqueue_attempts (evs (invalidateTaskCache w')) = 0%nat).
    { intros w'. apply enqueue_attempts_none, invalidateTaskCache_not_enqueue. }
    split; [|split].
    + rewrite keeps_db_cacheManager_del, invalidateTaskCache_keeps_db.
      assert (Hk : db (post (enq w1)) = db w1).
      { subst enq. destruct (decide _); [reflexivity | apply guarded_enqueue_keeps_db]. }
      rewrite Hk. subst w1. cbn [db with_db].
      apply (find_replace_row id t); [exact Hf | reflexivity].
    + intros Hne. subst enq. rewrite decide_False by exact Hne. split.
      * change (TxBegin :: ?l) with ([TxBegin] ++ l).
        change (DbRead :: DbWrite :: ?l) with ([DbRead; DbWrite] ++ l).
        rewrite !enqueue_attempts_app, guarded_enqueue_attempts, Hinv0, Hdel0.
        reflexivity.
      * right. right. right. apply in_or_app. left. apply in_or_app. left.
        rewrite guarded_enqueue_evs. subst w1. cbn [queueFaults with_db].
        destruct (fst (next_fault (queueFaults w))); simpl; auto.
    + intros Heq. subst enq. rewrite decide_True by exact Heq. run. split.
      * change (TxBegin :: ?l) with ([TxBegin] ++ l).
        change (DbRead :: DbWrite :: ?l) with ([DbRead; DbWrite] ++ l).
        rewrite !enqueue_attempts_app, Hinv0, Hdel0. reflexivity.
      * rewrite keeps_queue_cacheManager_del, invalidateTaskCache_keeps_queue.
        reflexivity.
  - intros dto w'. unfold create. run.
    set (w2 := post (try_catch _ _ _)).
    set (tail := match res (invalidateTaskCache w2) with Ok _ => _ | Throw _ => _ end).
    assert (Htail : tail = [])
      by (subst tail; destruct (res (invalidateTaskCache w2)); reflexivity).
    rewrite Htail, app_nil_r.
    change (TxBegin :: DbWrite :: ?l) with ([TxBegin; DbWrite] ++ l).
    rewrite !enqueue_attempts_app.
    rewrite (enqueue_attempts_none _ (invalidateTaskCache_not_enqueue w2)).
    destruct (fst (next_fault _)); reflexivity.
Qed.

Lemma update_enqueues_iff_status_changes_witness :
  enqueue_attempts
    (evs (update "a" (patch_status COMPLETED) (world0 [sample_task "a" PENDING 1])))
  = 1%nat
  /\ enqueue_attempts
       (evs (update "a" (patch_title "Plan") (world0 [sample_task "a" PENDING 1])))
     = 0%nat.
Proof.
  split.
  - destruct (update_enqueues_iff_status_changes "a" (patch_status COMPLETED)
                (world0 [sample_task "a" PENDING 1]) (sample_task "a" COMPLETED 1))
      as [(before & Hb & _ & Hchg & _) _]; [reflexivity|].
    apply Hchg. vm_compute in Hb. injection Hb as <-. discriminate.
  - destruct (update_enqueues_iff_status_changes "a" (patch_title "Plan")
                (world0 [sample_task "a" PENDING 1])
                (merge (sample_task "a" PENDING 1) (patch_title "Plan")))
      as [(before & Hb & _ & _ & Hsame) _]; [reflexivity|].
    apply Hsame. vm_compute in Hb. injection Hb as <-. reflexivity.
Defined.

(** ** Bulk status updates *)

Lemma id_in_set_status ids s t : id_in ids (set_status s t) = id_in ids t.
Proof. reflexivity. Qed.

Lemma mark_rows_idempotent ids s (rows : list Task) :
  map (fun t => if id_in ids t then set_status s t else t)
      (map (fun t => if id_in ids t then set_status s t else t) rows)
  = map (fun t => if id_in ids t then set_status s t else t) rows.
Proof.
  rewrite List.map_map. apply List.map_ext. intros t.
  destruct (id_in ids t) eqn:E; [|rewrite E; reflexivity].
  rewrite id_in_set_status, E. reflexivity.
Qed.

Lemma mark_rows_matched ids s (rows : list Task) :
  List.filter (id_in ids) (map (fun t => if id_in ids t then set_status s t else t) rows)
  = map (set_status s) (List.filter (id_in ids) rows).
Proof.
  induction rows as [|t rows IH]; simpl; [reflexivity|].
  destruct (id_in ids t) eqn:E.
  - rewrite id_in_set_status, E. simpl. rewrite IH. reflexivity.
  - rewrite E. exact IH.
Qed.

Lemma bulk_tail_keeps_db ids s (affected : Z) :
  keeps db
    (do_ for_each ids (fun id =>
           do_ cacheManager_del ("task:" +:+ id);
           try_catch
             (taskQueue_add "task-status-update" (status_payload id s) 3 1000)
             (fun err =>
                logger LError ("Failed to enqueue job for " +:+ id +:+ ": "
                               +:+ show_error err)));
     do_ invalidateTaskCache;
     ret affected).
Proof. effects. Qed.

Lemma bulk_tail_safe ids s (affected : Z) :
  safe
    (do_ for_each ids (fun id =>
           do_ cacheManager_del ("task:" +:+ id);
           try_catch
             (taskQueue_add "task-status-update" (status_payload id s) 3 1000)
             (fun err =>
                logger LError ("Failed to enqueue job for " +:+ id +:+ ": "
                               +:+ show_error err)));
     do_ invalidateTaskCache;
     ret affected).
Proof. effects. Qed.

(** What [bulkUpdateStatus] leaves in the store, whether or not it
    returns. *)
Lemma bulkUpdateStatus_db ids s w :
  ids <> [] ->
  db (post (bulkUpdateStatus ids s w))
  = map (fun t => if id_in ids t then set_status s t else t) (db w).
Proof.
  intros Hne. unfold bulkUpdateStatus. destruct ids as [|i r]; [contradiction|].
  rewrite post_bind. cbn [res post repo_update_status_in].
  rewrite bulk_tail_keeps_db. reflexivity.
Qed.

(** The count [bulkUpdateStatus] reports when it returns. *)
Lemma bulkUpdateStatus_affected ids s w n :
  res (bulkUpdateStatus ids s w) = Ok n ->
  n = Z.of_nat (length (List.filter (id_in ids) (db w))).
Proof.
  unfold bulkUpdateStatus. destruct ids as [|i r].
  - intros [= <-]. induction (db w) as [|t rows IH]; [reflexivity | exact IH].
  - run. destruct (res (for_each _ _ _)); [|discriminate].
    destruct (res (invalidateTaskCache _)); [|discriminate].
    run. intros [= <-]. reflexivity.
Qed.

Lemma bulkUpdateStatus_safe ids s : safe (bulkUpdateStatus ids s).
Proof.
  unfold bulkUpdateStatus. destruct ids as [|i r]; [effects|].
  apply safe_bind; [effects|]. intros a. apply bulk_tail_safe.
Qed.

(** C9: for a non-empty list of ids, running [bulkUpdateStatus(ids, S)] a
    second time leaves the store as the first run left it, and two runs
    that return report the same affected count; with the cache answering,
    both runs return. *)
Theorem bulkUpdateStatus_idempotent (ids : list string) (s : TaskStatus) (w : World) :
  ids <> [] ->
  let once := bulkUpdateStatus ids s w in
  let twice := bulkUpdateStatus ids s (post once) in
  db (post twice) = db (post once)
  /\ (forall n1 n2, res once = Ok n1 -> res twice = Ok n2 -> n1 = n2)
  /\ (cache_healthy w -> exists n, res once = Ok n /\ res twice = Ok n).
Proof.
  intros Hne once twice.
  assert (Hdb1 : db (post once)
                 = map (fun t => if id_in ids t then set_status s t else t) (db w))
    by (apply bulkUpdateStatus_db, Hne).
  assert (Hcount : forall n1 n2, res once = Ok n1 -> res twice = Ok n2 -> n1 = n2).
  { intros n1 n2 H1 H2.
    apply bulkUpdateStatus_affected in H1, H2. subst n1 n2.
    rewrite Hdb1, mark_rows_matched, length_map. reflexivity. }
  split; [|split].
  - subst twice. rewrite bulkUpdateStatus_db by exact Hne.
    rewrite Hdb1. apply mark_rows_idempotent.
  - exact Hcount.
  - intros Hw.
    destruct (bulkUpdateStatus_safe ids s w Hw) as [Hw1 [n1 H1]].
    destruct (bulkUpdateStatus_safe ids s (post once) Hw1) as [_ [n2 H2]].
    exists n1. split; [exact H1|]. fold once in H1. fold twice in H2.
    rewrite H2. f_equal. symmetry. exact (Hcount n1 n2 H1 H2).
Qed.

Lemma bulkUpdateStatus_idempotent_witness :
  let w := world0 [sample_task "a" PENDING 1; sample_task "b" IN_PROGRESS 2;
                   sample_task "c" PENDING 3] in
  let once := bulkUpdateStatus ["a"; "b"; "zz"] COMPLETED w in
  let twice := bulkUpdateStatus ["a"; "b"; "zz"] COMPLETED (post once) in
  db (post twice) = db (post once)
  /\ (forall n1 n2, res once = Ok n1 -> res twice = Ok n2 -> n1 = n2)
  /\ (cache_healthy w -> exists n, res once = Ok n /\ res twice = Ok n).
Proof.
  apply (bulkUpdateStatus_idempotent ["a"; "b"; "zz"] COMPLETED). discriminate.
Defined.

(** ** The job consumer *)

(** C7: a 'task-status-update' job whose payload lacks taskId or status, or
    carries a status outside the enum, and a job of any unrecognized kind,
    is answered with a structured [{ success: false, error }] result: the
    consumer returns it, does not throw (so the job is not retried), writes
    a warning, and changes nothing in the store, the cache or the queue. *)
Theorem process_rejects_malformed (job : Job) (w : World) :
  (job_name job = "task-status-update" /\ malformed (job_data job))
  \/ (job_name job <> "task-status-update"
      /\ job_name job <> "overdue-tasks-notification") ->
  exists message,
    res (process job w) = Ok (failure message)
    /\ verdict (process job w) = Completed (failure message)
    /\ success (failure message) = false
    /\ post (process job w) = w
    /\ Exists (fun e => exists m, e = LogEv LWarn m) (evs (process job w)).
Proof.
  intros [[Hname Hbad] | [Hn1 Hn2]].
  - unfold verdict, process. run. rewrite res_try_catch, post_try_catch, evs_try_catch.
    rewrite Hname. cbn [String.eqb Ascii.eqb Bool.eqb].
    unfold handleStatusUpdate.
    destruct (Js.falsy (taskId (job_data job)) || Js.falsy (status (job_data job))) eqn:Ef.
    + run. exists "Missing required data". repeat split. right. left. eauto.
    + destruct Hbad as [Hb | [Hb | Hb]];
        [rewrite Hb in Ef; discriminate
        | rewrite Hb, orb_true_r in Ef; discriminate |].
      rewrite Hb. run. exists "Invalid status value". repeat split. right. left. eauto.
  - unfold verdict, process. run. rewrite res_try_catch, post_try_catch, evs_try_catch.
    rewrite (proj2 (String.eqb_neq _ _) Hn1), (proj2 (String.eqb_neq _ _) Hn2).
    run. exists "Unknown job type". repeat split. right. left. eauto.
Qed.

Lemma process_rejects_malformed_witness :
  exists message,
    res (process {| job_id := "7"; job_name := "task-status-update";
                    job_data := {| taskId := Js.JStr "a"; status := Js.JStr "DONE" |} |}
           (world0 [sample_task "a" PENDING 1]))
    = Ok (failure message).
Proof.
  destruct (process_rejects_malformed
              {| job_id := "7"; job_name := "task-status-update";
                 job_data := {| taskId := Js.JStr "a"; status := Js.JStr "DONE" |} |}
              (world0 [sample_task "a" PENDING 1])) as (message & H & _).
  - left. split; [reflexivity|]. right. right. reflexivity.
  - exists message. exact H.
Defined.

(** C5 (counterexample): the task of an overdue notification is gone, and
    the consumer throws [NotFoundException], which is a failure the queue
    retries, instead of returning a structured failure. *)
Lemma process_overdue_missing_task_counterexample :
  res (findOne "gone" (world0 [sample_task "a" PENDING 1]))
  = Throw (NotFoundException "Task with ID gone not found")
  /\ verdict (process (overdue_job "gone") (world0 [sample_task "a" PENDING 1]))
     = Retryable (NotFoundException "Task with ID gone not found")
  /\ forall r, verdict (process (overdue_job "gone") (world0 [sample_task "a" PENDING 1]))
               <> Completed r.
Proof.
  split; [reflexivity|]. split; [reflexivity|]. intros r. discriminate.
Qed.

(** C5 (amended): for every 'overdue-tasks-notification' job whose taskId
    no longer exists ([findOne] throws [NotFoundException]), the consumer
    logs the error and throws it again: the job fails by exception, the
    outcome the queue retries, and no structured result is returned. *)
Theorem process_overdue_rethrows_not_found (job : Job) (w : World) (id message : string) :
  job_name job = "overdue-tasks-notification" ->
  taskId (job_data job) = Js.JStr id ->
  id <> "" ->
  res (findOne id w) = Throw (NotFoundException message) ->
  res (process job w) = Throw (NotFoundException message)
  /\ verdict (process job w) = Retryable (NotFoundException message)
  /\ In (LogEv LError ("Error processing overdue task " +:+ id +:+ ": "
                       +:+ show_error (NotFoundException message)))
        (evs (process job w))
  /\ In (LogEv LError ("Error processing job " +:+ job_id job +:+ ": " +:+ message))
        (evs (process job w)).
Proof.
  intros Hname Hid Hne Hfind.
  assert (Hfalsy : Js.falsy (Js.JStr id) = false).
  { simpl. apply String.eqb_neq. exact Hne. }
  unfold verdict, process. run. rewrite res_try_catch, evs_try_catch.
  rewrite Hname. cbn [String.eqb Ascii.eqb Bool.eqb].
  unfold handleOverdueTasks. rewrite Hid, Hfalsy.
  rewrite res_try_catch, evs_try_catch, post_try_catch. run.
  cbn [Js.to_string]. rewrite Hfind. run.
  repeat split; simpl; rewrite ?in_app_iff; simpl; auto 10.
Qed.

Lemma process_overdue_rethrows_not_found_witness :
  verdict (process (overdue_job "gone") (world0 [sample_task "a" PENDING 1]))
  = Retryable (NotFoundException "Task with ID gone not found").
Proof.
  apply (process_overdue_rethrows_not_found (overdue_job "gone")
           (world0 [sample_task "a" PENDING 1]) "gone" "Task with ID gone not found").
  - reflexivity.
  - reflexivity.
  - discriminate.
  - reflexivity.
Defined.

(** ** Reads, and what a cache failure does to the caller *)

Lemma cache_healthy_next w :
  cache_healthy w ->
  fst (next_fault (cacheFaults w)) = false
  /\ cache_healthy (with_cacheFaults (snd (next_fault (cacheFaults w))) w).
Proof. intros H. exact (healthy_next _ H). Qed.

Lemma failing_next w rest :
  cacheFaults w = true :: rest -> fst (next_fault (cacheFaults w)) = true.
Proof. intros ->. reflexivity. Qed.

(** On a cache miss [findAll] returns the page built from the store's
    answer. *)
Lemma findAll_miss (filter : Filter.t) (w : World) :
  cache_healthy w ->
  cache w !! getCacheKey filter = None ->
  refused (build_query filter) = None ->
  res (findAll filter w)
  = Ok (CPage
          {| data := fst (run_query (build_query filter) (db w));
             meta_total := snd (run_query (build_query filter) (db w));
             meta_page := default 1 (Filter.get_num Filter.Fpage filter);
             meta_limit := default 10 (Filter.get_num Filter.Flimit filter);
             meta_totalPages :=
               total_pages (snd (run_query (build_query filter) (db w)))
                 (default 10 (Filter.get_num Filter.Flimit filter)) |}).
Proof.
  intros Hw Hmiss Hq. destruct (cache_healthy_next w Hw) as [E Hw1].
  unfold findAll. run. unfold cacheManager_get. rewrite E. cbn [res post].
  rewrite Hmiss. run. rewrite !(getManyAndCount_runs _ _ Hq). run.
  destruct (cache_healthy_next _ Hw1) as [E1 _].
  unfold cacheManager_set. rewrite E1. run. reflexivity.
Qed.

(** A query the store refuses fails [findAll], and nothing is cached. *)
Lemma findAll_refused (filter : Filter.t) (message : string) (w : World) :
  cache_healthy w ->
  cache w !! getCacheKey filter = None ->
  refused (build_query filter) = Some message ->
  res (findAll filter w) = Throw (QueryFailedError message)
  /\ cache (post (findAll filter w)) = cache w.
Proof.
  intros Hw Hmiss Hq. destruct (cache_healthy_next w Hw) as [E Hw1].
  unfold findAll. run. unfold cacheManager_get. rewrite E. cbn [res post].
  rewrite Hmiss. run. rewrite !(getManyAndCount_refused _ _ _ Hq). run.
  split; reflexivity.
Qed.

Lemma findOne_miss (id : string) (t : Task) (w : World) :
  cache_healthy w ->
  cache w !! ("task:" +:+ id) = None ->
  find (fun t => String.eqb (task_id t) id) (db w) = Some t ->
  res (findOne id w) = Ok (CTask t).
Proof.
  intros Hw Hmiss Hf. destruct (cache_healthy_next w Hw) as [E Hw1].
  unfold findOne. run. unfold cacheManager_get. rewrite E. cbn [res post].
  rewrite Hmiss. run. cbn [db with_cacheFaults]. rewrite Hf.
  destruct (cache_healthy_next _ Hw1) as [E1 _].
  run. unfold cacheManager_set. rewrite E1. run. reflexivity.
Qed.

Lemma updateStatus_safe id s t w :
  cache_healthy w ->
  find (fun t => String.eqb (task_id t) id) (db w) = Some t ->
  res (updateStatus id s w) = Ok (set_status s t).
Proof.
  intros Hw Hf. unfold updateStatus. run. rewrite Hf. run.
  assert (Hs : safe (do_ invalidateTaskCache;
                     do_ cacheManager_del ("task:" +:+ id);
                     do_ logger LDebug (" Cache invalidated after updating status for " +:+ id);
                     ret (set_status s t))) by effects.
  destruct (Hs (with_db (replace_row (set_status s t) (db w)) w) Hw) as [_ [a Ha]].
  revert Ha. run.
  destruct (res (invalidateTaskCache _)); [|discriminate]. run.
  destruct (res (cacheManager_del _ _)); [|discriminate]. run.
  reflexivity.
Qed.


(** *** No cache call is guarded *)

Lemma unguarded_quiet {A} (m : M A) :
  (forall w, existsb cache_failed (evs (m w)) = false) -> unguarded m.
Proof. intros H w Hf. rewrite H in Hf. discriminate Hf. Qed.

Lemma unguarded_bind {A B} (m : M A) (f : A -> M B) :
  unguarded m -> (forall a, unguarded (f a)) -> unguarded (bind m f).
Proof.
  intros Hm Hf w. rewrite evs_bind, res_bind, existsb_app.
  intros H. apply orb_true_iff in H as [H|H].
  - rewrite (Hm w H). reflexivity.
  - destruct (res (m w)) as [a|e]; [apply Hf; exact H | discriminate H].
Qed.

Lemma unguarded_transaction {A} (m : M A) : unguarded m -> unguarded (transaction m).
Proof.
  intros Hm w. rewrite evs_transaction, res_transaction.
  cbn [existsb cache_failed orb]. rewrite existsb_app. intros H.
  apply orb_true_iff in H as [H|H]; [exact (Hm w H)|].
  destruct (res (m w)); discriminate H.
Qed.

Lemma unguarded_for_each {A} (l : list A) (body : A -> M unit) :
  (forall a, unguarded (body a)) -> unguarded (for_each l body).
Proof.
  intros Hb. induction l as [|x r IH]; simpl.
  - apply unguarded_quiet. reflexivity.
  - apply unguarded_bind; [apply Hb | intros _; exact IH].
Qed.

Lemma unguarded_ret {A} (a : A) : unguarded (ret a).
Proof. apply unguarded_quiet. reflexivity. Qed.

Lemma unguarded_throw {A} e : unguarded (@throw A e).
Proof. apply unguarded_quiet. reflexivity. Qed.

Lemma unguarded_logger l s : unguarded (logger l s).
Proof. apply unguarded_quiet. reflexivity. Qed.

Lemma unguarded_cacheManager_get key : unguarded (cacheManager_get key).
Proof.
  intros w. unfold cacheManager_get.
  destruct (fst (next_fault (cacheFaults w))); [reflexivity | discriminate].
Qed.

Lemma unguarded_cacheManager_set key v : unguarded (cacheManager_set key v).
Proof.
  intros w. unfold cacheManager_set.
  destruct (fst (next_fault (cacheFaults w))); [reflexivity | discriminate].
Qed.

Lemma unguarded_cacheManager_del key : unguarded (cacheManager_del key).
Proof.
  intros w. unfold cacheManager_del.
  destruct (fst (next_fault (cacheFaults w))); [reflexivity | discriminate].
Qed.

(** The guarded enqueue makes no cache call. *)
Lemma unguarded_guarded_enqueue name d a b (msg : Error -> string) :
  unguarded (try_catch (taskQueue_add name d a b) (fun err => logger LError (msg err))).
Proof.
  apply unguarded_quiet. intros w. rewrite guarded_enqueue_evs.
  destruct (fst (next_fault (queueFaults w))); reflexivity.
Qed.

Lemma unguarded_getManyAndCount q : unguarded (getManyAndCount q).
Proof.
  apply unguarded_quiet. intros w. unfold getManyAndCount.
  destruct (refused q); reflexivity.
Qed.

Lemma unguarded_invalidateTaskCache : unguarded invalidateTaskCache.
Proof.
  unfold invalidateTaskCache. apply unguarded_bind.
  - apply unguarded_for_each. intros key. apply unguarded_cacheManager_del.
  - intros _. apply unguarded_logger.
Qed.

Create HintDb unguarded.

#[local] Hint Resolve unguarded_bind unguarded_transaction unguarded_for_each
  unguarded_ret unguarded_throw unguarded_logger unguarded_cacheManager_get
  unguarded_cacheManager_set unguarded_cacheManager_del unguarded_guarded_enqueue
  unguarded_getManyAndCount unguarded_invalidateTaskCache : unguarded.

#[local] Hint Extern 1 (unguarded (repo_insert _)) =>
  apply unguarded_quiet; reflexivity : unguarded.
#[local] Hint Extern 1 (unguarded (repo_findOne _)) =>
  apply unguarded_quiet; reflexivity : unguarded.
#[local] Hint Extern 1 (unguarded (repo_save _)) =>
  apply unguarded_quiet; reflexivity : unguarded.
#[local] Hint Extern 1 (unguarded (repo_delete _)) =>
  apply unguarded_quiet; reflexivity : unguarded.
#[local] Hint Extern 1 (unguarded (repo_update_status_in _ _)) =>
  apply unguarded_quiet; reflexivity : unguarded.
#[local] Hint Extern 1 (unguarded (repo_delete_in _)) =>
  apply unguarded_quiet; reflexivity : unguarded.

Ltac unguarded := intros; eauto 20 with unguarded.

Lemma unguarded_CacheService_get key : unguarded (CacheService.get key).
Proof. unfold CacheService.get. unguarded. Qed.

Lemma unguarded_CacheService_set key v ttl : unguarded (CacheService.set key v ttl).
Proof. unfold CacheService.set. unguarded. Qed.

Lemma unguarded_CacheService_delete key : unguarded (CacheService.delete key).
Proof. unfold CacheService.delete. unguarded. Qed.

Lemma unguarded_findAll filter : unguarded (findAll filter).
Proof.
  unfold findAll. apply unguarded_bind; [unguarded|]. intros [v|]; unguarded.
Qed.

Lemma unguarded_findOne id : unguarded (findOne id).
Proof.
  unfold findOne. apply unguarded_bind; [unguarded|]. intros [v|]; [unguarded|].
  apply unguarded_bind; [unguarded|]. intros [t|]; unguarded.
Qed.

Lemma unguarded_create dto : unguarded (create dto).
Proof. unfold create. unguarded. Qed.

Lemma unguarded_update id patch : unguarded (update id patch).
Proof.
  unfold update. apply unguarded_transaction, unguarded_bind; [unguarded|].
  intros [t|]; [|unguarded].
  apply unguarded_bind; [unguarded|]. intros saved.
  apply unguarded_bind; [|unguarded].
  destruct (decide _); unguarded.
Qed.

Lemma unguarded_remove id : unguarded (remove id).
Proof.
  unfold remove. apply unguarded_bind; [unguarded|]. intros affected.
  destruct (affected =? 0); unguarded.
Qed.

Lemma unguarded_bulkUpdateStatus ids s : unguarded (bulkUpdateStatus ids s).
Proof.
  unfold bulkUpdateStatus. destruct ids as [|id ids]; [unguarded|].
  apply unguarded_bind; [unguarded|]. intros affected.
  apply unguarded_bind; [|unguarded].
  apply unguarded_for_each. unguarded.
Qed.

Lemma unguarded_bulkDelete ids : unguarded (bulkDelete ids).
Proof.
  unfold bulkDelete. destruct ids as [|id ids]; [unguarded|].
  apply unguarded_bind; [unguarded|]. intros affected.
  apply unguarded_bind; [|unguarded].
  apply unguarded_for_each. unguarded.
Qed.

Lemma unguarded_updateStatus id s : unguarded (updateStatus id s).
Proof.
  unfold updateStatus. apply unguarded_bind; [unguarded|]. intros [t|]; unguarded.
Qed.

(** *** The cache call that fails, wherever it comes *)

Lemma cacheManager_get_answers key w rest :
  cacheFaults w = false :: rest ->
  cacheManager_get key w
  = {| res := Ok (cache w !! key); post := with_cacheFaults rest w;
       evs := [CacheGet key true] |}.
Proof. intros H. unfold cacheManager_get. rewrite H. reflexivity. Qed.

Lemma cacheManager_get_fails key w rest :
  cacheFaults w = true :: rest ->
  cacheManager_get key w
  = {| res := Throw CacheUnavailable; post := with_cacheFaults rest w;
       evs := [CacheGet key false] |}.
Proof. intros H. unfold cacheManager_get. rewrite H. reflexivity. Qed.

Lemma cacheManager_set_fails key v w rest :
  cacheFaults w = true :: rest ->
  cacheManager_set key v w
  = {| res := Throw CacheUnavailable; post := with_cacheFaults rest w;
       evs := [CacheSet key false] |}.
Proof. intros H. unfold cacheManager_set. rewrite H. reflexivity. Qed.

Lemma cacheManager_del_answers key w rest :
  cacheFaults w = false :: rest ->
  cacheManager_del key w
  = {| res := Ok tt; post := with_cache (delete key (cache w)) (with_cacheFaults rest w);
       evs := [CacheDel key true] |}.
Proof. intros H. unfold cacheManager_del. rewrite H. reflexivity. Qed.

Lemma cacheManager_del_fails key w rest :
  cacheFaults w = true :: rest ->
  cacheManager_del key w
  = {| res := Throw CacheUnavailable; post := with_cacheFaults rest w;
       evs := [CacheDel key false] |}.
Proof. intros H. unfold cacheManager_del. rewrite H. reflexivity. Qed.

(** [findAll] does not guard its [set]: when the cache answers the [get]
    with a miss and fails on the [set], the page the store has returned is
    lost to the caller and nothing is cached. *)
Lemma findAll_set_fails (filter : Filter.t) (w : World) (rest : list bool) :
  cacheFaults w = false :: true :: rest ->
  cache w !! getCacheKey filter = None ->
  refused (build_query filter) = None ->
  res (findAll filter w) = Throw CacheUnavailable
  /\ cache (post (findAll filter w)) = cache w
  /\ evs (findAll filter w)
     = [CacheGet (getCacheKey filter) true; DbRead; CacheSet (getCacheKey filter) false].
Proof.
  intros Hf Hmiss Hq. unfold findAll. run.
  rewrite !(cacheManager_get_answers _ _ _ Hf). cbn [res post evs].
  rewrite Hmiss. run. rewrite !(getManyAndCount_runs _ _ Hq). run.
  rewrite !(cacheManager_set_fails _ _ _ rest) by reflexivity.
  cbn [res post evs]. repeat split; reflexivity.
Qed.

Lemma findOne_set_fails (id : string) (t : Task) (w : World) (rest : list bool) :
  cacheFaults w = false :: true :: rest ->
  cache w !! ("task:" +:+ id) = None ->
  find (fun t => String.eqb (task_id t) id) (db w) = Some t ->
  res (findOne id w) = Throw CacheUnavailable
  /\ cache (post (findOne id w)) = cache w.
Proof.
  intros Hf Hmiss Hfind. unfold findOne. run.
  rewrite !(cacheManager_get_answers _ _ _ Hf). cbn [res post evs].
  rewrite Hmiss. run. cbn [db with_cacheFaults]. rewrite Hfind. run.
  rewrite !(cacheManager_set_fails _ _ _ rest) by reflexivity.
  cbn [res post evs]. split; reflexivity.
Qed.

(** [updateStatus] guards none of its three deletes: whichever is the
    first to fail, the caller gets the failure although the new status is
    already written. *)
Lemma updateStatus_del_fails (id : string) (s : TaskStatus) (t : Task) (w : World)
    (k : nat) (rest : list bool) :
  (k < 3)%nat ->
  cacheFaults w = repeat false k ++ true :: rest ->
  find (fun t => String.eqb (task_id t) id) (db w) = Some t ->
  res (updateStatus id s w) = Throw CacheUnavailable
  /\ db (post (updateStatus id s w)) = replace_row (set_status s t) (db w).
Proof.
  intros Hk Hf Hfind. unfold updateStatus. run. rewrite Hfind. run.
  unfold invalidateTaskCache. run. simpl for_each. run.
  destruct k as [|[|[|k]]]; [| | |lia]; cbn [repeat app] in Hf.
  - rewrite !(cacheManager_del_fails _ _ rest) by exact Hf.
    cbn [res post evs db with_cacheFaults with_db]. split; reflexivity.
  - rewrite !(cacheManager_del_answers "tasks:all" _ (true :: rest)) by exact Hf.
    cbn [res post evs]. run.
    rewrite !(cacheManager_del_fails _ _ rest) by reflexivity.
    cbn [res post evs db with_cacheFaults with_db]. split; reflexivity.
  - rewrite !(cacheManager_del_answers "tasks:all" _ (false :: true :: rest)) by exact Hf.
    cbn [res post evs]. run.
    rewrite !(cacheManager_del_answers "tasks:stats" _ (true :: rest)) by reflexivity.
    cbn [res post evs]. run.
    rewrite !(cacheManager_del_fails _ _ rest) by reflexivity.
    cbn [res post evs db with_cacheFaults with_db with_cache]. split; reflexivity.
Qed.



(** ** The order of a listing *)

Section Sorting.

Variable R : Task -> Task -> Prop.
Variable le : Task -> Task -> bool.
Hypothesis le_sound : forall a b, le a b = true -> R a b.
Hypothesis le_total : forall a b, le a b = false -> R b a.
Hypothesis R_trans : forall a b c, R a b -> R b c -> R a c.

Lemma Forall_insert_sorted (P : Task -> Prop) x l :
  P x -> Forall P l -> Forall P (insert_sorted le x l).
Proof.
  intros Hx Hl. induction Hl as [|y r Hy Hr IH]; simpl.
  - repeat constructor. exact Hx.
  - destruct (le x y); repeat constructor; assumption.
Qed.

Lemma insert_sorted_sorted x l :
  StronglySorted R l -> StronglySorted R (insert_sorted le x l).
Proof.
  induction 1 as [|y r Hr IH Hy]; simpl.
  - repeat constructor.
  - destruct (le x y) eqn:E.
    + constructor; [constructor; assumption|].
      constructor; [apply le_sound, E|].
      eapply Forall_impl; [exact Hy|]. intros z Hz.
      eapply R_trans; [apply le_sound, E | exact Hz].
    + constructor; [exact IH|].
      apply Forall_insert_sorted; [apply le_total, E | exact Hy].
Qed.

Lemma sort_rows_sorted l : StronglySorted R (sort_rows le l).
Proof.
  unfold sort_rows. induction l as [|x l IH]; simpl; [constructor|].
  apply insert_sorted_sorted, IH.
Qed.

Lemma StronglySorted_skipn n l : StronglySorted R l -> StronglySorted R (skipn n l).
Proof.
  revert l. induction n as [|n IH]; intros l Hl; [exact Hl|].
  destruct Hl as [|y r Hr Hy]; [constructor|]. simpl. apply IH, Hr.
Qed.

Lemma StronglySorted_firstn n l : StronglySorted R l -> StronglySorted R (firstn n l).
Proof.
  revert l. induction n as [|n IH]; intros l Hl; [constructor|].
  destruct Hl as [|y r Hr Hy]; [constructor|]. simpl.
  constructor; [apply IH, Hr|]. apply Forall_take, Hy.
Qed.

End Sorting.

Lemma precedes_createdAt d a b :
  precedes "task.createdAt" d a b = true <-> created_in_order d a b.
Proof.
  unfold precedes, created_in_order.
  change (compare_by "task.createdAt" a b)
    with (Z.compare (task_createdAt a) (task_createdAt b)).
  destruct d, (Z.compare_spec (task_createdAt a) (task_createdAt b));
    split; intros Hp; try reflexivity; try discriminate; lia.
Qed.

Lemma precedes_createdAt_total d a b :
  precedes "task.createdAt" d a b = false -> created_in_order d b a.
Proof.
  unfold precedes, created_in_order.
  change (compare_by "task.createdAt" a b)
    with (Z.compare (task_createdAt a) (task_createdAt b)).
  destruct d, (Z.compare_spec (task_createdAt a) (task_createdAt b));
    intros Hp; try discriminate; lia.
Qed.

(** The rows a query ordered by creation time returns are in that order. *)
Lemma run_query_createdAt_sorted q table :
  orderField q = "task.createdAt" ->
  StronglySorted (created_in_order (orderDir q)) (fst (run_query q table)).
Proof.
  intros Hf. unfold run_query, page_rows. cbn [fst]. rewrite Hf.
  assert (Hs : StronglySorted (created_in_order (orderDir q))
                 (sort_rows (precedes "task.createdAt" (orderDir q))
                    (List.filter (fun t => forallb (fun c => matches c t) (wheres q)) table))).
  { apply sort_rows_sorted.
    - intros a b H. apply precedes_createdAt, H.
    - intros a b H. apply precedes_createdAt_total, H.
    - intros a b c. destruct (orderDir q); unfold created_in_order; lia. }
  destruct (q_take q =? 0).
  - apply StronglySorted_skipn, Hs.
  - apply StronglySorted_firstn, StronglySorted_skipn, Hs.
Qed.

(** C8 (counterexample): the sort field is not in the allow-list and the
    sort order is 'ASC'; [findAll] returns the tasks oldest first, not by
    createdAt descending. *)
Lemma findAll_fallback_counterexample :
  existsb (String.eqb "rank") sortable = false
  /\ exists p,
       res (findAll filter_unknown_sort_asc (world0 two_tasks)) = Ok (CPage p)
       /\ map task_createdAt (data p) = [1; 2]
       /\ ~ StronglySorted (created_in_order DESC) (data p).
Proof.
  split; [reflexivity|]. eexists. split; [reflexivity|]. split; [reflexivity|].
  intros H. simpl in H. inversion H as [|? ? _ Hall]; subst.
  inversion Hall as [|? ? Hab _]; subst. unfold created_in_order in Hab. simpl in Hab. lia.
Qed.

(** C8 (amended): for every list query whose requested sort field is not in
    the allow-listed set {title, createdAt, dueDate, priority, status},
    [findAll] orders by createdAt in the direction the filter's sortOrder
    gives: ascending when sortOrder is 'ASC', descending otherwise.  On a
    cache miss, with the cache answering, the page [findAll] returns for
    paging the store runs is in that order; for paging the store refuses
    (a negative offset or limit) [findAll] throws the store's error and
    returns no page. *)
Theorem findAll_fallback_order (filter : Filter.t) (w : World) :
  existsb (String.eqb (default "" (Filter.get_str Filter.FsortBy filter))) sortable = false ->
  orderField (build_query filter) = "task.createdAt"
  /\ orderDir (build_query filter)
     = (if decide (Filter.get_str Filter.FsortOrder filter = Some "ASC") then ASC else DESC)
  /\ (cache_healthy w ->
      cache w !! getCacheKey filter = None ->
      match refused (build_query filter) with
      | None =>
          exists p,
            res (findAll filter w) = Ok (CPage p)
            /\ data p = fst (run_query (build_query filter) (db w))
            /\ StronglySorted (created_in_order (orderDir (build_query filter))) (data p)
      | Some message => res (findAll filter w) = Throw (QueryFailedError message)
      end).
Proof.
  intros Hsort.
  assert (Hfield : orderField (build_query filter) = "task.createdAt").
  { cbn [build_query orderField]. unfold order_field. rewrite Hsort. reflexivity. }
  split; [exact Hfield|]. split.
  - cbn [build_query orderDir]. unfold order_dir.
    destruct (Filter.get_str Filter.FsortOrder filter) as [s|].
    + destruct (String.eqb_spec s "ASC") as [->|Hne].
      * rewrite decide_True by reflexivity. reflexivity.
      * rewrite decide_False by congruence. reflexivity.
    + rewrite decide_False by discriminate. reflexivity.
  - intros Hw Hmiss. destruct (refused (build_query filter)) as [message|] eqn:Hq.
    + exact (proj1 (findAll_refused filter message w Hw Hmiss Hq)).
    + eexists. split; [apply (findAll_miss filter w Hw Hmiss Hq)|].
      split; [reflexivity|]. cbn [data].
      apply run_query_createdAt_sorted, Hfield.
Qed.

Lemma findAll_fallback_order_witness :
  orderField (build_query filter_unknown_sort_asc) = "task.createdAt"
  /\ orderDir (build_query filter_unknown_sort_asc) = ASC
  /\ exists p,
       res (findAll filter_unknown_sort_asc (world0 two_tasks)) = Ok (CPage p)
       /\ StronglySorted (created_in_order ASC) (data p).
Proof.
  destruct (findAll_fallback_order filter_unknown_sort_asc (world0 two_tasks))
    as (Hf & Hd & Hp); [reflexivity|].
  split; [exact Hf|]. split; [exact Hd|].
  destruct Hp as (p & Hr & _ & Hs); [constructor | reflexivity |].
  exists p. split; [exact Hr | exact Hs].
Defined.

(** Because [update] enqueues and invalidates inside its transaction, a
    cache failure after the enqueue rolls the write back while the job for
    it is already in the queue. *)
Lemma update_rollback_leaves_job :
  let w := with_cacheFaults [true] (world0 [sample_task "a" PENDING 1]) in
  let o := update "a" (patch_status COMPLETED) w in
  res o = Throw CacheUnavailable
  /\ db (post o) = db w
  /\ map q_data (queue (post o)) = [status_payload "a" COMPLETED].
Proof. repeat split; reflexivity. Qed.

(** * Further properties *)

(** ** The guard: caller keys *)

Section GuardKeys.

Import RateLimit Guard.

Lemma all_digits_app (a b : string) :
  all_digits (a +:+ b) = all_digits a && all_digits b.
Proof.
  induction a as [|c a IH]; simpl; [reflexivity|].
  rewrite IH, andb_assoc. reflexivity.
Qed.

Lemma all_digits_ends_in_digit (s : string) :
  s <> "" -> all_digits s = true -> ends_in_digit s = true.
Proof.
  induction s as [|c r IH]; intros Hne Hd; [contradiction|].
  cbn [all_digits] in Hd. apply andb_true_iff in Hd as [Hc Hr].
  destruct r as [|c' r']; [exact Hc|].
  change (ends_in_digit (String c' r') = true). apply IH; [discriminate | exact Hr].
Qed.

Lemma anonymizeIp_same_run (prefix d1 d2 : string) :
  d1 <> "" -> d2 <> "" -> all_digits d1 = true -> all_digits d2 = true ->
  anonymizeIp (prefix +:+ d1) = anonymizeIp (prefix +:+ d2).
Proof.
  intros Hn1 Hn2 H1 H2. induction prefix as [|c p IH].
  - destruct d1 as [|c1 r1]; [contradiction|]. destruct d2 as [|c2 r2]; [contradiction|].
    simpl in *. rewrite H1, H2. reflexivity.
  - change (String c p +:+ d1) with (String c (p +:+ d1)).
    change (String c p +:+ d2) with (String c (p +:+ d2)).
    cbn [anonymizeIp all_digits]. rewrite !all_digits_app, H1, H2, IH. reflexivity.
Qed.

Lemma anonymizeIp_run (prefix digits : string) :
  digits <> "" -> all_digits digits = true -> ends_in_digit prefix = false ->
  anonymizeIp (prefix +:+ digits) = prefix +:+ "x".
Proof.
  intros Hn Hd. induction prefix as [|c p IH]; intros He.
  - destruct digits as [|c1 r1]; [contradiction|].
    change (anonymizeIp (String c1 r1) = "x"). cbn [anonymizeIp]. rewrite Hd. reflexivity.
  - change (String c p +:+ digits) with (String c (p +:+ digits)).
    change (String c p +:+ "x") with (String c (p +:+ "x")).
    cbn [anonymizeIp all_digits]. rewrite all_digits_app.
    assert (Hp : is_digit c && all_digits p = false).
    { destruct (is_digit c && all_digits p) eqn:E; [|reflexivity].
      rewrite (all_digits_ends_in_digit (String c p)) in He; [discriminate He|discriminate|].
      exact E. }
    rewrite andb_assoc, Hp. cbn [andb]. f_equal. apply IH.
    destruct p as [|c' p']; [reflexivity | exact He].
Qed.

(** X1: [anonymizeIp] replaces the trailing run of digits of an address
    by [x] and keeps what stands before it, so that two addresses that
    differ only in that run (the last octet of an IPv4 address) get the
    same caller key. *)
Theorem anonymizeIp_masks_last_octet (prefix d1 d2 : string) :
  d1 <> "" -> d2 <> "" -> all_digits d1 = true -> all_digits d2 = true ->
  anonymizeIp (prefix +:+ d1) = anonymizeIp (prefix +:+ d2)
  /\ (ends_in_digit prefix = false -> anonymizeIp (prefix +:+ d1) = prefix +:+ "x").
Proof.
  intros Hn1 Hn2 H1 H2. split.
  - exact (anonymizeIp_same_run prefix d1 d2 Hn1 Hn2 H1 H2).
  - exact (anonymizeIp_run prefix d1 Hn1 H1).
Qed.

Lemma anonymizeIp_masks_last_octet_witness :
  anonymizeIp "192.168.1.17" = anonymizeIp "192.168.1.203"
  /\ anonymizeIp "192.168.1.17" = "192.168.1.x".
Proof.
  destruct (anonymizeIp_masks_last_octet "192.168.1." "17" "203") as [Hsame Hkey];
    try first [discriminate | reflexivity].
  split; [exact Hsame | apply Hkey; reflexivity].
Defined.

Lemma all_digits_anonymizeIp (s : string) :
  all_digits (anonymizeIp s) = true -> s = "".
Proof.
  induction s as [|c r IH]; [reflexivity|].
  cbn [anonymizeIp]. destruct (all_digits (String c r)) eqn:E; [discriminate|].
  cbn [all_digits]. intros H. apply andb_true_iff in H as [Hc Hr].
  rewrite (IH Hr) in E. simpl in E. rewrite Hc in E. discriminate.
Qed.

(** X2: a caller key never ends in a digit, and anonymizing is
    idempotent: a key is its own key. *)
Theorem anonymizeIp_idempotent (ip : string) :
  anonymizeIp (anonymizeIp ip) = anonymizeIp ip
  /\ forall p c, anonymizeIp ip = p +:+ String c "" -> is_digit c = false.
Proof.
  split.
  - induction ip as [|c r IH]; [reflexivity|].
    cbn [anonymizeIp]. destruct (all_digits (String c r)) eqn:E; [reflexivity|].
    cbn [anonymizeIp].
    destruct (all_digits (String c (anonymizeIp r))) eqn:E'.
    + cbn [all_digits] in E'. apply andb_true_iff in E' as [Hc Hr].
      rewrite (all_digits_anonymizeIp r Hr) in E. simpl in E. rewrite Hc in E. discriminate.
    + rewrite IH. reflexivity.
  - intros p c H. destruct (is_digit c) eqn:Ec; [|reflexivity]. exfalso.
    assert (Hend : forall s q, anonymizeIp s = q +:+ String c "" -> False).
    { clear H p ip. intros s. induction s as [|a r IH]; intros q H.
      - destruct q; discriminate H.
      - cbn [anonymizeIp] in H. destruct (all_digits (String a r)) eqn:E.
        + destruct q as [|x [|y q]]; try discriminate H. injection H as <-. discriminate Ec.
        + destruct q as [|x q].
          * injection H as -> Hr. cbn [all_digits] in E. rewrite Ec in E.
            destruct r; [discriminate|]. cbn [anonymizeIp] in Hr.
            destruct (all_digits _); discriminate Hr.
          * injection H as -> Hr. exact (IH q Hr). }
    exact (Hend ip p H).
Qed.

(** An address without trailing digits is its own key. *)
Lemma anonymizeIp_no_trailing_digit (ip : string) :
  (forall p c, ip = p +:+ String c "" -> is_digit c = false) ->
  anonymizeIp ip = ip.
Proof.
  induction ip as [|c r IH]; intros H; [reflexivity|].
  cbn [anonymizeIp].
  destruct (all_digits (String c r)) eqn:E.
  - exfalso. clear IH.
    assert (Hlast : forall s, s <> "" -> all_digits s = true ->
                              exists p d, s = p +:+ String d "" /\ is_digit d = true).
    { intros s. induction s as [|a t IHt]; intros Hne Hd; [contradiction|].
      cbn [all_digits] in Hd. apply andb_true_iff in Hd as [Ha Ht].
      destruct t as [|b t'].
      - exists "", a. split; [reflexivity | exact Ha].
      - destruct (IHt ltac:(discriminate) Ht) as (p & d & -> & Hd).
        exists (String a p), d. split; [reflexivity | exact Hd]. }
    destruct (Hlast (String c r) ltac:(discriminate) E) as (p & d & Hs & Hd).
    rewrite (H p d Hs) in Hd. discriminate.
  - f_equal. apply IH. intros p d Hp. apply (H (String c p) d). rewrite Hp. reflexivity.
Qed.

End GuardKeys.

(** ** The guard: how many requests a window lets through *)

Section GuardWindow.

Import RateLimit Guard.

(** Inside a running window whose record counts [c], the requests still
    let through are those that fit under the limit. *)
Lemma serve_running (ip : string) (o : RateLimitOptions) (times : list Z)
    (store : gmap string record) (r : record) :
  store !! ip = Some r ->
  Forall (fun t => t <= expiresAt r) times ->
  fst (serve ip o times store)
  = Nat.min (length times) (Z.to_nat (limit o - count r)).
Proof.
  intros Hr Ht. revert store r Hr Ht.
  induction times as [|t rest IH]; intros store r Hr Ht; [reflexivity|].
  apply Forall_cons in Ht as [Hle Hrest]. cbn [serve length].
  destruct (Z_lt_le_dec (count r) (limit o)) as [Hlt|Hge].
  - rewrite (handleRateLimit_increment t ip o store r Hr Hle Hlt). cbn [fst snd].
    rewrite (IH _ {| count := count r + 1; expiresAt := expiresAt r |});
      [|apply lookup_insert_eq|exact Hrest].
    cbn [count]. lia.
  - rewrite (handleRateLimit_reject t ip o store r Hr Hle Hge). cbn [fst snd].
    rewrite (IH store r Hr Hrest). lia.
Qed.

(** X3: of the requests of one caller that fall into one window, the
    first is always let through, and after it only as many as the limit
    leaves room for: [n] requests get [min n (max 1 L)] through, also for a
    limit of zero or less. *)
Theorem serve_window_admits (ip : string) (o : RateLimitOptions) (t1 : Z) (times : list Z)
    (store : gmap string record) :
  starts_window store ip t1 ->
  Forall (fun t => t <= t1 + windowMs o) times ->
  fst (serve ip o (t1 :: times) store)
  = Nat.min (S (length times)) (Nat.max 1 (Z.to_nat (limit o))).
Proof.
  intros Hs Ht. cbn [serve].
  rewrite (handleRateLimit_fresh t1 ip o store Hs). cbn [fst snd].
  rewrite (serve_running ip o times _ {| count := 1; expiresAt := t1 + windowMs o |});
    [|apply lookup_insert_eq|exact Ht].
  cbn [count]. lia.
Qed.

Lemma serve_window_admits_witness :
  fst (serve "10.0.0.x" two_per_minute [0; 10; 20; 30; 60000] ∅) = 2%nat.
Proof.
  apply (serve_window_admits "10.0.0.x" two_per_minute 0 [10; 20; 30; 60000] ∅).
  - unfold starts_window. rewrite lookup_empty. exact I.
  - repeat constructor; simpl; lia.
Defined.

(** X4: a request never touches the record of another caller key, and a
    rejected request leaves the whole store as it was. *)
Theorem handleRateLimit_frame (now : Z) (ip other : string) (o : RateLimitOptions)
    (store : gmap string record) :
  (other <> ip -> snd (handleRateLimit now ip o store) !! other = store !! other)
  /\ (forall retryAfter,
         fst (handleRateLimit now ip o store) = TooManyRequests retryAfter ->
         snd (handleRateLimit now ip o store) = store).
Proof.
  unfold handleRateLimit. split.
  - intros Hne. destruct (store !! ip) as [r|]; [|apply lookup_insert_ne; congruence].
    destruct (expiresAt r <? now); [apply lookup_insert_ne; congruence|].
    destruct (count r >=? limit o); [reflexivity | apply lookup_insert_ne; congruence].
  - intros ra. destruct (store !! ip) as [r|]; [|discriminate].
    destruct (expiresAt r <? now); [discriminate|].
    destruct (count r >=? limit o); [reflexivity | discriminate].
Qed.

Lemma handleRateLimit_frame_witness :
  snd (handleRateLimit 5 "10.0.0.x" two_per_minute
         {["10.0.1.x" := {| count := 2; expiresAt := 9 |}]}) !! "10.0.1.x"
  = Some {| count := 2; expiresAt := 9 |}.
Proof.
  rewrite (proj1 (handleRateLimit_frame 5 "10.0.0.x" "10.0.1.x" two_per_minute
                    {["10.0.1.x" := {| count := 2; expiresAt := 9 |}]}));
    [reflexivity | discriminate].
Defined.

(** X5: callers whose addresses differ only in the last octet share one
    window: once one of them has used up the limit, the other is turned
    away as well, under the options of the handler, else of the class, else
    100 requests per minute. *)
Theorem canActivate_shared_window (handler class : option RateLimitOptions)
    (prefix d1 d2 : string) (t1 t2 : Z)
    (store : gmap string record) (r : record) :
  d1 <> "" -> d2 <> "" -> all_digits d1 = true -> all_digits d2 = true ->
  snd (canActivate handler class t1 (prefix +:+ d1) store) !! anonymizeIp (prefix +:+ d1)
  = Some r ->
  limit (default (default default_options class) handler) <= count r ->
  t2 <= expiresAt r ->
  exists retryAfter,
    fst (canActivate handler class t2 (prefix +:+ d2)
           (snd (canActivate handler class t1 (prefix +:+ d1) store)))
    = TooManyRequests retryAfter.
Proof.
  intros Hn1 Hn2 H1 H2 Hr Hc Ht.
  unfold canActivate in *.
  rewrite <- (anonymizeIp_same_run prefix d1 d2 Hn1 Hn2 H1 H2).
  assert (Ho : match handler with
               | Some o => o
               | None => match class with Some o => o | None => default_options end
               end = default (default default_options class) handler)
    by (destruct handler, class; reflexivity).
  rewrite Ho in *.
  rewrite (handleRateLimit_reject t2 _ _ _ r Hr Ht Hc). eauto.
Qed.

Lemma canActivate_shared_window_witness :
  exists retryAfter,
    fst (canActivate (Some {| limit := 1; windowMs := 1000 |}) None 20 "10.0.0.9"
           (snd (canActivate (Some {| limit := 1; windowMs := 1000 |}) None 10
                   "10.0.0.1" ∅)))
    = TooManyRequests retryAfter.
Proof.
  apply (canActivate_shared_window (Some {| limit := 1; windowMs := 1000 |}) None
           "10.0.0." "1" "9" 10 20 ∅ {| count := 1; expiresAt := 1010 |});
    first [discriminate | reflexivity | simpl; lia].
Defined.

End GuardWindow.

(** ** The cache after a computation *)

Section CacheTo.

Context {A B : Type}.

Lemma cache_to_ret (a : A) : cache_to (fun c => c) (ret a).
Proof. intros w Hw. split; [reflexivity|]. split; [exact Hw | by exists a]. Qed.

Lemma cache_to_bind g h (m : M A) (f : A -> M B) :
  cache_to g m -> (forall a, cache_to h (f a)) -> cache_to (fun c => h (g c)) (bind m f).
Proof.
  intros Hm Hf w Hw. rewrite post_bind, res_bind.
  destruct (Hm w Hw) as (Hc & Hp & a & Ha). rewrite Ha.
  destruct (Hf a _ Hp) as (Hc' & Hp' & b & Hb).
  rewrite Hc', Hc. split; [reflexivity|]. split; [exact Hp' | by exists b].
Qed.

Lemma cache_to_ext g g' (m : M A) :
  (forall c, g c = g' c) -> cache_to g m -> cache_to g' m.
Proof.
  intros He Hm w Hw. destruct (Hm w Hw) as (Hc & Hp & Ha).
  rewrite <- He. split; [exact Hc|]. split; [exact Hp | exact Ha].
Qed.

(** A computation that never fails and touches neither the cache nor its
    health leaves the cache as it is. *)
Lemma cache_to_inert (m : M A) :
  total m -> keeps cache m -> keeps cacheFaults m -> cache_to (fun c => c) m.
Proof.
  intros Ht Hc Hf w Hw. split; [apply Hc|]. split; [|apply Ht].
  unfold cache_healthy. rewrite Hf. exact Hw.
Qed.

End CacheTo.

Lemma cache_to_logger l s : cache_to (fun c => c) (logger l s).
Proof. intros w Hw. split; [reflexivity|]. split; [exact Hw | by exists tt]. Qed.

Lemma cache_to_del key : cache_to (delete key) (cacheManager_del key).
Proof.
  intros w Hw. destruct (healthy_next _ Hw) as [E Hr].
  unfold cacheManager_del. rewrite E. cbn. split; [reflexivity|]. split; [exact Hr | eauto].
Qed.

Lemma cache_to_set key v : cache_to (insert key v) (cacheManager_set key v).
Proof.
  intros w Hw. destruct (healthy_next _ Hw) as [E Hr].
  unfold cacheManager_set. rewrite E. cbn. split; [reflexivity|]. split; [exact Hr | eauto].
Qed.

Lemma cache_to_for_each {A} (g : A -> gmap string CacheValue -> gmap string CacheValue)
    (l : list A) (body : A -> M unit) :
  (forall a, cache_to (g a) (body a)) ->
  cache_to (fun c => fold_left (fun c a => g a c) l c) (for_each l body).
Proof.
  intros Hb. induction l as [|x r IH]; cbn [for_each fold_left]; [apply cache_to_ret|].
  exact (cache_to_bind (g x) _ (body x) (fun _ => for_each r body) (Hb x) (fun _ => IH)).
Qed.

Lemma keeps_cache_taskQueue_add name d a b : keeps cache (taskQueue_add name d a b).
Proof. intros w. unfold taskQueue_add. destruct (fst _); reflexivity. Qed.

#[local] Hint Resolve keeps_cache_taskQueue_add : effects.

Lemma cache_to_guarded_enqueue name d a b (msg : Error -> string) :
  cache_to (fun c => c)
    (try_catch (taskQueue_add name d a b) (fun err => logger LError (msg err))).
Proof. apply cache_to_inert; effects. Qed.

Lemma cache_to_invalidate :
  cache_to (fun c => delete "tasks:stats" (delete "tasks:all" c)) invalidateTaskCache.
Proof.
  unfold invalidateTaskCache.
  eapply cache_to_ext;
    [|exact (cache_to_bind _ _ _ _
               (cache_to_for_each (fun k => delete k) ["tasks:all"; "tasks:stats"]
                  cacheManager_del cache_to_del)
               (fun _ => cache_to_logger LDebug "Cache invalidated for tasks"))].
  reflexivity.
Qed.

(** What a mutation's closing steps do to the cache: the two bucket keys
    and the task's own key are gone, every other entry stays. *)
Lemma cache_to_invalidate_one {A} (id : string) (message : string) (a : A) :
  cache_to (fun c => delete (task_key id) (delete "tasks:stats" (delete "tasks:all" c)))
    (do_ invalidateTaskCache;
     do_ cacheManager_del ("task:" +:+ id);
     do_ logger LDebug message;
     ret a).
Proof.
  eapply cache_to_ext;
    [|exact (cache_to_bind _ _ _ _ cache_to_invalidate
               (fun _ => cache_to_bind _ _ _ _ (cache_to_del ("task:" +:+ id))
                  (fun _ => cache_to_bind _ _ _ _ (cache_to_logger LDebug message)
                     (fun _ => cache_to_ret a))))].
  reflexivity.
Qed.

Lemma fold_delete_absent (ids : list string) (c : gmap string CacheValue) (key : string) :
  c !! key = None ->
  fold_left (fun c id => delete (task_key id) c) ids c !! key = None.
Proof.
  revert c. induction ids as [|i r IH]; intros c Hc; [exact Hc|].
  cbn [fold_left]. apply IH. rewrite lookup_delete. case_decide; [reflexivity | exact Hc].
Qed.

Lemma fold_delete_member (ids : list string) (c : gmap string CacheValue) (id : string) :
  In id ids ->
  fold_left (fun c id => delete (task_key id) c) ids c !! task_key id = None.
Proof.
  revert c. induction ids as [|i r IH]; intros c Hin; [contradiction|].
  cbn [fold_left]. destruct Hin as [->|Hin]; [|apply IH, Hin].
  apply fold_delete_absent, lookup_delete_eq.
Qed.

Lemma fold_delete_other (ids : list string) (c : gmap string CacheValue) (key : string) :
  (forall id, In id ids -> task_key id <> key) ->
  fold_left (fun c id => delete (task_key id) c) ids c !! key = c !! key.
Proof.
  revert c. induction ids as [|i r IH]; intros c Hne; [reflexivity|].
  cbn [fold_left]. rewrite IH by (intros id Hid; apply Hne; right; exact Hid).
  apply lookup_delete_ne, Hne. left. reflexivity.
Qed.

(** ** Reads through the cache *)

Lemma findOne_miss_post (id : string) (t : Task) (w : World) :
  cache_healthy w ->
  cache w !! task_key id = None ->
  find (fun t => String.eqb (task_id t) id) (db w) = Some t ->
  cache (post (findOne id w)) = <[task_key id := CTask t]> (cache w)
  /\ cache_healthy (post (findOne id w))
  /\ db (post (findOne id w)) = db w
  /\ queue (post (findOne id w)) = queue w.
Proof.
  intros Hw Hmiss Hf. destruct (cache_healthy_next w Hw) as [E Hw1].
  unfold task_key in *.
  unfold findOne. run. unfold cacheManager_get. rewrite E. cbn [res post].
  rewrite Hmiss. run. cbn [db with_cacheFaults]. rewrite Hf.
  destruct (cache_healthy_next _ Hw1) as [E1 Hw2].
  run. unfold cacheManager_set. rewrite E1. run.
  repeat split. exact Hw2.
Qed.

(** A read that finds its key in the cache returns the cached value and
    reads nothing from the store. *)
Lemma findOne_hit (id : string) (v : CacheValue) (w : World) :
  cache_healthy w ->
  cache w !! task_key id = Some v ->
  res (findOne id w) = Ok v
  /\ Forall not_db_read (evs (findOne id w))
  /\ cache (post (findOne id w)) = cache w.
Proof.
  intros Hw Hhit. destruct (cache_healthy_next w Hw) as [E Hw1].
  unfold task_key in *.
  unfold findOne. run. unfold cacheManager_get. rewrite E. cbn [res post evs].
  rewrite Hhit. run. repeat split. repeat constructor.
Qed.

(** X6: [findOne] reads through the cache: a miss fetches the task from
    the store and stores it under 'task:<id>', and the next [findOne] of
    the same id returns the same task without reading the store. *)
Theorem findOne_read_through (id : string) (t : Task) (w : World) :
  cache_healthy w ->
  cache w !! task_key id = None ->
  find (fun t => String.eqb (task_id t) id) (db w) = Some t ->
  let first := findOne id w in
  let second := findOne id (post first) in
  res first = Ok (CTask t)
  /\ In DbRead (evs first)
  /\ cache (post first) !! task_key id = Some (CTask t)
  /\ res second = Ok (CTask t)
  /\ Forall not_db_read (evs second).
Proof.
  intros Hw Hmiss Hf first second.
  destruct (findOne_miss_post id t w Hw Hmiss Hf) as (Hc & Hh & _ & _).
  assert (Hhit : cache (post first) !! task_key id = Some (CTask t)).
  { subst first. rewrite Hc. apply lookup_insert_eq. }
  destruct (findOne_hit id (CTask t) (post first) Hh Hhit) as (Hr & He & _).
  split; [exact (findOne_miss id t w Hw Hmiss Hf)|].
  split; [|split; [exact Hhit | split; [exact Hr | exact He]]].
  subst first. destruct (cache_healthy_next w Hw) as [E Hw1].
  unfold task_key in Hmiss.
  unfold findOne. run. unfold cacheManager_get at 1 2. rewrite E. cbn [res post evs].
  rewrite Hmiss. run. right. left. reflexivity.
Qed.

Lemma findOne_read_through_witness :
  let w := world0 [sample_task "a" PENDING 1] in
  res (findOne "a" (post (findOne "a" w))) = Ok (CTask (sample_task "a" PENDING 1))
  /\ Forall not_db_read (evs (findOne "a" (post (findOne "a" w)))).
Proof.
  destruct (findOne_read_through "a" (sample_task "a" PENDING 1)
              (world0 [sample_task "a" PENDING 1])) as (_ & _ & _ & H4 & H5).
  - constructor.
  - reflexivity.
  - reflexivity.
  - split; [exact H4 | exact H5].
Defined.

(** A task that is neither cached nor stored is reported as not found,
    and nothing is put into the cache for it. *)
Lemma findOne_absent (id : string) (w : World) :
  cache_healthy w ->
  cache w !! task_key id = None ->
  find (fun t => String.eqb (task_id t) id) (db w) = None ->
  res (findOne id w) = Throw (not_found id)
  /\ cache (post (findOne id w)) = cache w.
Proof.
  intros Hw Hmiss Hf. destruct (cache_healthy_next w Hw) as [E Hw1].
  unfold task_key in *.
  unfold findOne. run. unfold cacheManager_get. rewrite E. cbn [res post].
  rewrite Hmiss. run. cbn [db with_cacheFaults]. rewrite Hf. run. split; reflexivity.
Qed.

(** ** Mutations and the reads that follow *)

Lemma updateStatus_post (id : string) (s : TaskStatus) (t : Task) (w : World) :
  cache_healthy w ->
  find (fun t => String.eqb (task_id t) id) (db w) = Some t ->
  cache (post (updateStatus id s w))
  = delete (task_key id) (delete "tasks:stats" (delete "tasks:all" (cache w)))
  /\ cache_healthy (post (updateStatus id s w))
  /\ db (post (updateStatus id s w)) = replace_row (set_status s t) (db w).
Proof.
  intros Hw Hf. unfold updateStatus. run. rewrite Hf. run.
  set (w1 := with_db _ w).
  pose proof (cache_to_invalidate_one id
                (" Cache invalidated after updating status for " +:+ id)
                (set_status s t) w1 Hw) as (Hc & Hh & _).
  pose proof (keeps_bind db invalidateTaskCache
                (fun _ => do_ cacheManager_del ("task:" +:+ id);
                          do_ logger LDebug
                                (" Cache invalidated after updating status for " +:+ id);
                          ret (set_status s t))
                ltac:(effects) ltac:(effects) w1) as Hd.
  revert Hc Hh Hd. run. intros Hc Hh Hd.
  split; [exact Hc|]. split; [exact Hh | exact Hd].
Qed.

(** X7: after [updateStatus(id, S)] the next [findOne(id)] returns the task
    with status [S], whatever the cache held for it before. *)
Theorem updateStatus_then_findOne (id : string) (s : TaskStatus) (t : Task) (w : World) :
  cache_healthy w ->
  find (fun t => String.eqb (task_id t) id) (db w) = Some t ->
  res (findOne id (post (updateStatus id s w))) = Ok (CTask (set_status s t))
  /\ task_status (set_status s t) = s.
Proof.
  intros Hw Hf. split; [|reflexivity].
  destruct (updateStatus_post id s t w Hw Hf) as (Hc & Hh & Hd).
  apply findOne_miss; [exact Hh | | ].
  - fold (task_key id). rewrite Hc. apply lookup_delete_eq.
  - rewrite Hd. apply (find_replace_row id t); [exact Hf | reflexivity].
Qed.

Lemma updateStatus_then_findOne_witness :
  let w := with_cache {[ "task:a" := CTask (sample_task "a" PENDING 1) ]}
             (world0 [sample_task "a" PENDING 1]) in
  res (findOne "a" (post (updateStatus "a" COMPLETED w)))
  = Ok (CTask (sample_task "a" COMPLETED 1)).
Proof.
  apply (updateStatus_then_findOne "a" COMPLETED (sample_task "a" PENDING 1)
           (with_cache {[ "task:a" := CTask (sample_task "a" PENDING 1) ]}
              (world0 [sample_task "a" PENDING 1]))).
  - constructor.
  - reflexivity.
Defined.

Lemma filter_none_matching (id : string) (rows : list Task) :
  find (fun t => String.eqb (task_id t) id) rows = None ->
  List.filter (fun t => String.eqb (task_id t) id) rows = []
  /\ List.filter (fun t => negb (String.eqb (task_id t) id)) rows = rows.
Proof.
  induction rows as [|r rows IH]; simpl; [split; reflexivity|].
  destruct (String.eqb (task_id r) id); [discriminate|].
  intros H. destruct (IH H) as [-> ->]. split; reflexivity.
Qed.

Lemma find_after_delete (id : string) (rows : list Task) :
  find (fun t => String.eqb (task_id t) id)
       (List.filter (fun t => negb (String.eqb (task_id t) id)) rows) = None.
Proof.
  induction rows as [|r rows IH]; simpl; [reflexivity|].
  destruct (String.eqb (task_id r) id) eqn:E; simpl; [exact IH|].
  rewrite E. exact IH.
Qed.

Lemma filter_some_matching (id : string) (t : Task) (rows : list Task) :
  find (fun t => String.eqb (task_id t) id) rows = Some t ->
  (0 < length (List.filter (fun t => String.eqb (task_id t) id) rows))%nat.
Proof.
  induction rows as [|r rows IH]; simpl; [discriminate|].
  destruct (String.eqb (task_id r) id); simpl; [lia | exact IH].
Qed.

(** X8: [remove] of an id the store does not hold throws
    [NotFoundException], leaves the store as it was and deletes no cache
    key. *)
Theorem remove_missing (id : string) (w : World) :
  find (fun t => String.eqb (task_id t) id) (db w) = None ->
  res (remove id w) = Throw (not_found id)
  /\ db (post (remove id w)) = db w
  /\ cache (post (remove id w)) = cache w
  /\ evs (remove id w) = [DbWrite].
Proof.
  intros Hf. destruct (filter_none_matching id (db w) Hf) as [H0 Hsame].
  unfold remove. run. rewrite H0. cbn [length Z.of_nat Z.eqb]. run.
  rewrite Hsame. repeat split.
Qed.

Lemma remove_missing_witness :
  res (remove "zz" (world0 [sample_task "a" PENDING 1])) = Throw (not_found "zz").
Proof.
  apply (remove_missing "zz" (world0 [sample_task "a" PENDING 1])). reflexivity.
Defined.

(** X9: after [remove(id)] of a stored task, [findOne(id)] throws
    [NotFoundException], whatever the cache held for the task before. *)
Theorem remove_then_findOne (id : string) (t : Task) (w : World) :
  cache_healthy w ->
  find (fun t => String.eqb (task_id t) id) (db w) = Some t ->
  (exists affected, res (remove id w) = Ok affected /\ 0 < affected)
  /\ res (findOne id (post (remove id w))) = Throw (not_found id).
Proof.
  intros Hw Hf. pose proof (filter_some_matching id t (db w) Hf) as Hpos.
  unfold remove. run.
  destruct (Z.eqb_spec (Z.of_nat (length (List.filter
              (fun t0 => String.eqb (task_id t0) id) (db w)))) 0) as [E|_]; [lia|].
  set (w1 := with_db _ w).
  set (n := Z.of_nat _).
  pose proof (cache_to_invalidate_one id
                ("🗑️ Cache invalidated after deleting task " +:+ id) n w1 Hw)
    as (Hc & Hh & a & Ha).
  pose proof (keeps_bind db invalidateTaskCache
                (fun _ => do_ cacheManager_del ("task:" +:+ id);
                          do_ logger LDebug
                                ("🗑️ Cache invalidated after deleting task " +:+ id);
                          ret n)
                ltac:(effects) ltac:(effects) w1) as Hd.
  split.
  - revert Ha. run.
    destruct (res (invalidateTaskCache w1)); [|discriminate]. run.
    destruct (res (cacheManager_del _ _)); [|discriminate]. run.
    intros _. exists n. split; [reflexivity | subst n; lia].
  - apply findOne_absent; [exact Hh | rewrite Hc; apply lookup_delete_eq |].
    rewrite Hd. subst w1. cbn [db with_db]. apply find_after_delete.
Qed.

Lemma remove_then_findOne_witness :
  let w := with_cache {[ "task:a" := CTask (sample_task "a" PENDING 1) ]}
             (world0 [sample_task "a" PENDING 1]) in
  res (findOne "a" (post (remove "a" w))) = Throw (not_found "a").
Proof.
  apply (remove_then_findOne "a" (sample_task "a" PENDING 1)
           (with_cache {[ "task:a" := CTask (sample_task "a" PENDING 1) ]}
              (world0 [sample_task "a" PENDING 1]))).
  - constructor.
  - reflexivity.
Defined.

Lemma find_after_delete_in (ids : list string) (id : string) (rows : list Task) :
  In id ids ->
  find (fun t => String.eqb (task_id t) id)
       (List.filter (fun t => negb (id_in ids t)) rows) = None.
Proof.
  intros Hin. induction rows as [|r rows IH]; simpl; [reflexivity|].
  destruct (id_in ids r) eqn:E; simpl; [exact IH|].
  destruct (String.eqb (task_id r) id) eqn:Er; [|exact IH].
  apply String.eqb_eq in Er. unfold id_in in E.
  assert (existsb (String.eqb (task_id r)) ids = true); [|congruence].
  apply existsb_exists. exists id. split; [exact Hin|]. apply String.eqb_eq, Er.
Qed.

Lemma bulkDelete_post (ids : list string) (w : World) :
  ids <> [] -> cache_healthy w ->
  cache (post (bulkDelete ids w))
  = delete "tasks:stats"
      (delete "tasks:all" (fold_left (fun c id => delete (task_key id) c) ids (cache w)))
  /\ cache_healthy (post (bulkDelete ids w))
  /\ db (post (bulkDelete ids w)) = List.filter (fun t => negb (id_in ids t)) (db w)
  /\ res (bulkDelete ids w)
     = Ok (Z.of_nat (length (List.filter (id_in ids) (db w)))).
Proof.
  intros Hne Hw. unfold bulkDelete. destruct ids as [|i r]; [contradiction|].
  set (ids := i :: r). run. set (w1 := with_db _ w). set (n := Z.of_nat _).
  pose proof (cache_to_bind _ _ _ _
                (cache_to_for_each (fun id => delete (task_key id)) ids
                   (fun id => cacheManager_del ("task:" +:+ id))
                   (fun id => cache_to_del ("task:" +:+ id)))
                (fun _ => cache_to_bind _ _ _ _ cache_to_invalidate
                            (fun _ => cache_to_ret n)) w1 Hw) as (Hc & Hh & a & Ha).
  pose proof (keeps_bind db (for_each ids (fun id => cacheManager_del ("task:" +:+ id)))
                (fun _ => do_ invalidateTaskCache; ret n)
                ltac:(effects) ltac:(effects) w1) as Hd.
  revert Hc Hh Ha Hd. run. intros Hc Hh Ha Hd.
  split; [exact Hc|]. split; [exact Hh|]. split; [exact Hd|].
  revert Ha. destruct (res (for_each ids _ w1)); [|discriminate].
  destruct (res (invalidateTaskCache _)); [|discriminate]. run. reflexivity.
Qed.

(** X10: after [bulkDelete(ids)], [findOne] of each of the ids throws
    [NotFoundException], and the tasks outside [ids] are still stored. *)
Theorem bulkDelete_then_findOne (ids : list string) (w : World) :
  ids <> [] -> cache_healthy w ->
  (forall id, In id ids ->
      res (findOne id (post (bulkDelete ids w))) = Throw (not_found id))
  /\ (forall t, In t (db w) -> id_in ids t = false -> In t (db (post (bulkDelete ids w)))).
Proof.
  intros Hne Hw. destruct (bulkDelete_post ids w Hne Hw) as (Hc & Hh & Hd & _).
  split.
  - intros id Hin. apply findOne_absent; [exact Hh | |].
    + rewrite Hc, !lookup_delete. repeat case_decide; try reflexivity.
      apply fold_delete_member, Hin.
    + rewrite Hd. apply find_after_delete_in, Hin.
  - intros t Ht Hout. rewrite Hd. apply filter_In. split; [exact Ht|].
    rewrite Hout. reflexivity.
Qed.

Lemma bulkDelete_then_findOne_witness :
  res (findOne "b" (post (bulkDelete ["a"; "b"] (world0 two_tasks)))) = Throw (not_found "b").
Proof.
  apply (proj1 (bulkDelete_then_findOne ["a"; "b"] (world0 two_tasks)
                  ltac:(discriminate) ltac:(constructor))).
  right. left. reflexivity.
Defined.

(** The key of a list page is never one of the two keys the mutations
    delete, nor the key of a single task. *)
Lemma getCacheKey_not_invalidated (filter : Filter.t) :
  getCacheKey filter <> "tasks:all" /\ getCacheKey filter <> "tasks:stats"
  /\ forall id, getCacheKey filter <> task_key id.
Proof.
  unfold getCacheKey, Filter.stringify, Js.stringify_object, task_key.
  split; [|split; [|intros id]]; simpl; intros H; discriminate H.
Qed.

(** A list query that finds its key in the cache returns the cached page
    and reads nothing from the store. *)
Lemma findAll_hit (filter : Filter.t) (v : CacheValue) (w : World) :
  cache_healthy w ->
  cache w !! getCacheKey filter = Some v ->
  res (findAll filter w) = Ok v /\ Forall not_db_read (evs (findAll filter w)).
Proof.
  intros Hw Hhit. destruct (cache_healthy_next w Hw) as [E Hw1].
  unfold findAll. run. unfold cacheManager_get. rewrite E. cbn [res post evs].
  rewrite Hhit. run. split; [reflexivity | repeat constructor].
Qed.

(** X11: no mutation deletes the key of a list page: a page that
    [findAll] has cached for a filter is returned again, as it was cached,
    after [updateStatus] has changed a task. *)
Theorem cached_page_survives_updateStatus (filter : Filter.t) (v : CacheValue)
    (id : string) (s : TaskStatus) (t : Task) (w : World) :
  cache_healthy w ->
  find (fun t => String.eqb (task_id t) id) (db w) = Some t ->
  cache w !! getCacheKey filter = Some v ->
  res (findAll filter (post (updateStatus id s w))) = Ok v.
Proof.
  intros Hw Hf Hhit.
  destruct (updateStatus_post id s t w Hw Hf) as (Hc & Hh & _).
  destruct (getCacheKey_not_invalidated filter) as (Hall & Hstats & Htask).
  apply findAll_hit; [exact Hh|].
  rewrite Hc, !lookup_delete_ne by (first [apply not_eq_sym, Htask | congruence]).
  exact Hhit.
Qed.

Lemma cached_page_survives_updateStatus_witness :
  let w := world0 [sample_task "a" PENDING 1] in
  exists p,
    res (findAll [] w) = Ok (CPage p)
    /\ res (findAll [] (post (updateStatus "a" COMPLETED (post (findAll [] w)))))
       = Ok (CPage p)
    /\ map task_status (data p) = [PENDING].
Proof.
  eexists. split; [reflexivity|]. split; [|reflexivity].
  apply (cached_page_survives_updateStatus [] _ "a" COMPLETED (sample_task "a" PENDING 1)
           (post (findAll [] (world0 [sample_task "a" PENDING 1])))).
  - constructor.
  - reflexivity.
  - reflexivity.
Defined.

(** X12: [update] of an id the store does not hold throws
    [NotFoundException] and rolls back: store, cache and queue are as they
    were, and nothing was enqueued or invalidated. *)
Theorem update_missing (id : string) (patch : UpdateTaskDto) (w : World) :
  find (fun t => String.eqb (task_id t) id) (db w) = None ->
  res (update id patch w) = Throw (not_found id)
  /\ db (post (update id patch w)) = db w
  /\ cache (post (update id patch w)) = cache w
  /\ queue (post (update id patch w)) = queue w
  /\ evs (update id patch w) = [TxBegin; DbRead; TxRollback].
Proof.
  intros Hf. unfold update. run. rewrite Hf. run. repeat split.
Qed.

Lemma update_missing_witness :
  evs (update "zz" (patch_status COMPLETED) (world0 two_tasks))
  = [TxBegin; DbRead; TxRollback].
Proof.
  apply (update_missing "zz" (patch_status COMPLETED) (world0 two_tasks)). reflexivity.
Defined.

Lemma update_post (id : string) (patch : UpdateTaskDto) (t : Task) (w : World) :
  cache_healthy w ->
  find (fun t => String.eqb (task_id t) id) (db w) = Some t ->
  res (update id patch w) = Ok (merge t patch)
  /\ cache (post (update id patch w))
     = delete (task_key id) (delete "tasks:stats" (delete "tasks:all" (cache w)))
  /\ cache_healthy (post (update id patch w))
  /\ db (post (update id patch w)) = replace_row (merge t patch) (db w).
Proof.
  intros Hw Hf. unfold update. run. rewrite Hf. run.
  set (w1 := with_db _ w).
  set (enq := if decide _ then _ else _).
  assert (Henq : cache_to (fun c => c) enq).
  { subst enq. destruct (decide _); [apply cache_to_ret | apply cache_to_guarded_enqueue]. }
  assert (Hkeep : keeps db enq).
  { subst enq. destruct (decide _); effects. }
  pose proof (cache_to_bind _ _ _ _ Henq
                (fun _ => cache_to_invalidate_one id
                            ("Cache invalidated after updating task " +:+ id)
                            (merge t patch)) w1 Hw) as (Hc & Hh & a & Ha).
  pose proof (keeps_bind db enq
                (fun _ => do_ invalidateTaskCache;
                          do_ cacheManager_del ("task:" +:+ id);
                          do_ logger LDebug ("Cache invalidated after updating task " +:+ id);
                          ret (merge t patch))
                Hkeep ltac:(effects) w1) as Hd.
  revert Hc Hh Ha Hd. run.
  destruct (res (enq w1)); [|intros _ _ Ha; discriminate Ha]. run.
  destruct (res (invalidateTaskCache _)); [|intros _ _ Ha; discriminate Ha]. run.
  destruct (res (cacheManager_del _ _)); [|intros _ _ Ha; discriminate Ha]. run.
  intros Hc Hh _ Hd. repeat split; assumption.
Qed.

(** X13: with the cache answering, [update(id, patch)] of a stored task
    returns the task as patched, and the next [findOne(id)] returns that
    same task: each field the patch gives has the patch's value, each
    field it leaves out has the stored value, and the id, the creation
    time and the owner are the stored ones. *)
Theorem update_then_findOne (id : string) (patch : UpdateTaskDto) (t : Task) (w : World) :
  cache_healthy w ->
  find (fun t => String.eqb (task_id t) id) (db w) = Some t ->
  exists t',
    res (update id patch w) = Ok t'
    /\ res (findOne id (post (update id patch w))) = Ok (CTask t')
    /\ task_id t' = task_id t
    /\ task_createdAt t' = task_createdAt t
    /\ task_userId t' = task_userId t
    /\ match u_title patch with
       | Some x => task_title t' = x
       | None => task_title t' = task_title t
       end
    /\ match u_description patch with
       | Some x => task_description t' = Some x
       | None => task_description t' = task_description t
       end
    /\ match u_status patch with
       | Some x => task_status t' = x
       | None => task_status t' = task_status t
       end
    /\ match u_priority patch with
       | Some x => task_priority t' = x
       | None => task_priority t' = task_priority t
       end
    /\ match u_dueDate patch with
       | Some x => task_dueDate t' = Some x
       | None => task_dueDate t' = task_dueDate t
       end.
Proof.
  intros Hw Hf. destruct (update_post id patch t w Hw Hf) as (Hr & Hc & Hh & Hd).
  exists (merge t patch). split; [exact Hr|]. split.
  - apply findOne_miss; [exact Hh | | ].
    + fold (task_key id). rewrite Hc. apply lookup_delete_eq.
    + rewrite Hd. apply (find_replace_row id t); [exact Hf | reflexivity].
  - cbn [merge task_id task_createdAt task_userId task_title task_description
         task_status task_priority task_dueDate].
    destruct (u_title patch), (u_description patch), (u_status patch),
      (u_priority patch), (u_dueDate patch); repeat split.
Qed.

Lemma update_then_findOne_witness :
  exists t',
    res (findOne "a" (post (update "a" (patch_title "Plan") (world0 two_tasks))))
    = Ok (CTask t')
    /\ task_title t' = "Plan"
    /\ task_status t' = PENDING.
Proof.
  destruct (update_then_findOne "a" (patch_title "Plan") (sample_task "a" PENDING 1)
              (world0 two_tasks)) as (t' & _ & Hr & _ & _ & _ & Ht & _ & Hs & _).
  - constructor.
  - reflexivity.
  - exists t'. split; [exact Hr|]. split; [exact Ht | exact Hs].
Defined.

(** ** Listings *)

Lemma findAll_miss_post (filter : Filter.t) (w : World) :
  cache_healthy w ->
  cache w !! getCacheKey filter = None ->
  refused (build_query filter) = None ->
  exists p,
    res (findAll filter w) = Ok (CPage p)
    /\ cache (post (findAll filter w)) = <[getCacheKey filter := CPage p]> (cache w)
    /\ cache_healthy (post (findAll filter w))
    /\ In DbRead (evs (findAll filter w)).
Proof.
  intros Hw Hmiss Hq. destruct (cache_healthy_next w Hw) as [E Hw1].
  eexists. unfold findAll. run. unfold cacheManager_get. rewrite E. cbn [res post evs].
  rewrite Hmiss. run. rewrite !(getManyAndCount_runs _ _ Hq). run.
  destruct (cache_healthy_next _ Hw1) as [E1 Hw2].
  unfold cacheManager_set. rewrite E1. run.
  split; [reflexivity|]. split; [reflexivity|]. split; [exact Hw2|].
  right. left. reflexivity.
Qed.

(** X14: [findAll] reads through the cache: for paging the store runs
    (among it the paging [TaskFilterDto] validates, [refused_validated]),
    a miss queries the store and caches the page under the filter's key,
    and the same query asked again gets the same page without a query to
    the store. *)
Theorem findAll_read_through (filter : Filter.t) (w : World) :
  cache_healthy w ->
  cache w !! getCacheKey filter = None ->
  refused (build_query filter) = None ->
  let first := findAll filter w in
  let second := findAll filter (post first) in
  exists p,
    res first = Ok (CPage p)
    /\ In DbRead (evs first)
    /\ res second = Ok (CPage p)
    /\ Forall not_db_read (evs second).
Proof.
  intros Hw Hmiss Hq first second.
  destruct (findAll_miss_post filter w Hw Hmiss Hq) as (p & Hr & Hc & Hh & Hread).
  exists p. split; [exact Hr|]. split; [exact Hread|].
  apply findAll_hit; [exact Hh|]. subst first. rewrite Hc. apply lookup_insert_eq.
Qed.

Lemma findAll_read_through_witness :
  exists p,
    res (findAll filter_unknown_sort_asc (world0 two_tasks)) = Ok (CPage p)
    /\ res (findAll filter_unknown_sort_asc
              (post (findAll filter_unknown_sort_asc (world0 two_tasks)))) = Ok (CPage p).
Proof.
  destruct (findAll_read_through filter_unknown_sort_asc (world0 two_tasks))
    as (p & H1 & _ & H2 & _).
  - constructor.
  - reflexivity.
  - reflexivity.
  - exists p. split; [exact H1 | exact H2].
Defined.

Lemma insert_sorted_perm le x l : Permutation (insert_sorted le x l) (x :: l).
Proof.
  induction l as [|y r IH]; simpl; [reflexivity|].
  destruct (le x y); [reflexivity|].
  rewrite IH. apply perm_swap.
Qed.

(** Sorting rearranges the rows and neither drops nor repeats one. *)
Lemma sort_rows_perm le l : Permutation (sort_rows le l) l.
Proof.
  unfold sort_rows. induction l as [|x l IH]; simpl; [reflexivity|].
  rewrite insert_sorted_perm. apply perm_skip, IH.
Qed.

Lemma run_query_page (q : Query) (table : list Task) :
  (q_take q <> 0 -> (length (fst (run_query q table)) <= Z.to_nat (q_take q))%nat)
  /\ (q_take q = 0 -> q_skip q = 0 ->
      Z.of_nat (length (fst (run_query q table))) = snd (run_query q table))
  /\ Forall (fun t => In t table /\ forallb (fun c => matches c t) (wheres q) = true)
            (fst (run_query q table))
  /\ Z.of_nat (length (fst (run_query q table))) <= snd (run_query q table)
  /\ snd (run_query q table) <= Z.of_nat (length table).
Proof.
  unfold run_query, page_rows. cbn [fst snd].
  set (rows := List.filter _ table).
  set (sorted := sort_rows _ rows).
  assert (Hlen : length sorted = length rows)
    by (apply Permutation_length, sort_rows_perm).
  assert (Hall : Forall (fun t => In t table
                                  /\ forallb (fun c => matches c t) (wheres q) = true) sorted).
  { apply List.Forall_forall. intros t Ht. subst sorted.
    apply (Permutation_in _ (sort_rows_perm _ rows)) in Ht.
    apply filter_In in Ht. exact Ht. }
  split; [|split; [|split; [|split]]].
  - intros Ht. destruct (Z.eqb_spec (q_take q) 0) as [E|_]; [contradiction|].
    apply firstn_le_length.
  - intros Ht Hs. rewrite Ht, Hs.
    change (Z.of_nat (length sorted) = Z.of_nat (length rows)). rewrite Hlen. reflexivity.
  - destruct (q_take q =? 0); [apply Forall_drop, Hall | apply Forall_take, Forall_drop, Hall].
  - destruct (q_take q =? 0); rewrite ?length_firstn, length_skipn, Hlen; lia.
  - pose proof (filter_length_le (fun t => forallb (fun c => matches c t) (wheres q)) table).
    fold rows in H. lia.
Qed.

Lemma total_pages_spec (total limit : Z) :
  0 < limit ->
  exists n, total_pages total limit = Some n
            /\ (n - 1) * limit < total <= n * limit.
Proof.
  intros Hl. unfold total_pages. destruct (Z.eqb_spec limit 0) as [->|_]; [lia|].
  eexists. split; [reflexivity|].
  pose proof (Z.div_mod (- total) limit ltac:(lia)).
  pose proof (Z.mod_pos_bound (- total) limit Hl). nia.
Qed.

(** X15: the page [findAll] builds from the store, for paging the store
    runs.  For a [limit] other than zero it holds at most [limit] items;
    for a [limit] of zero the statement carries no [LIMIT] and the page
    holds every matching task.  Each item is a stored task with the status
    the filter asks for; [total] counts at least the items returned and at
    most the stored tasks; and for a positive [limit], [totalPages] is the
    number of pages of [limit] items that [total] items fill. *)
Theorem findAll_page (filter : Filter.t) (w : World) :
  cache_healthy w ->
  cache w !! getCacheKey filter = None ->
  refused (build_query filter) = None ->
  exists p,
    res (findAll filter w) = Ok (CPage p)
    /\ (meta_limit p <> 0 -> (length (data p) <= Z.to_nat (meta_limit p))%nat)
    /\ (meta_limit p = 0 -> Z.of_nat (length (data p)) = meta_total p)
    /\ Forall (fun t =>
                 In t (db w)
                 /\ forall s, Filter.get_str Filter.Fstatus filter = Some s -> s <> "" ->
                              status_name (task_status t) = s) (data p)
    /\ Z.of_nat (length (data p)) <= meta_total p <= Z.of_nat (length (db w))
    /\ (0 < meta_limit p ->
        exists n, meta_totalPages p = Some n
                  /\ (n - 1) * meta_limit p < meta_total p <= n * meta_limit p).
Proof.
  intros Hw Hmiss Hq. eexists. split; [apply (findAll_miss filter w Hw Hmiss Hq)|].
  cbn [data meta_limit meta_total meta_totalPages].
  destruct (run_query_page (build_query filter) (db w))
    as (Hlen & Hzero & Hall & Hlo & Hhi).
  split; [exact Hlen|].
  split; [intros Hl; apply Hzero; [exact Hl|]; cbn [build_query q_skip]; rewrite Hl;
          unfold Js.mul; rewrite Z.mul_0_r; reflexivity|].
  split; [|split; [split; assumption|apply total_pages_spec]].
  eapply Forall_impl; [exact Hall|]. intros t [Hin Hm]. split; [exact Hin|].
  intros s Hs Hne. cbn [build_query wheres] in Hm. rewrite Hs in Hm.
  unfold truthy_str in Hm at 1. rewrite (proj2 (String.eqb_neq s "") Hne) in Hm.
  cbn [app forallb matches] in Hm. apply andb_true_iff in Hm as [Hm _].
  apply String.eqb_eq, Hm.
Qed.

Lemma findAll_page_witness :
  exists p,
    res (findAll [Filter.Status "PENDING"; Filter.Limit 1] (world0 two_tasks)) = Ok (CPage p)
    /\ (length (data p) <= 1)%nat.
Proof.
  destruct (findAll_page [Filter.Status "PENDING"; Filter.Limit 1] (world0 two_tasks))
    as (p & Hr & Hlen & _).
  - constructor.
  - reflexivity.
  - reflexivity.
  - exists p. split; [exact Hr|].
    vm_compute in Hr. injection Hr as <-. vm_compute. lia.
Defined.

(** X16: [findByStatus] returns exactly the stored tasks that have the
    status, each as often as it is stored, newest first; it reads the store
    and leaves the world as it is. *)
Theorem findByStatus_lists (s : TaskStatus) (w : World) :
  exists l,
    res (findByStatus s w) = Ok l
    /\ Permutation l (List.filter (fun t => bool_decide (task_status t = s)) (db w))
    /\ (forall t, In t l <-> In t (db w) /\ task_status t = s)
    /\ StronglySorted (created_in_order DESC) l
    /\ post (findByStatus s w) = w.
Proof.
  eexists. split; [reflexivity|].
  split; [apply sort_rows_perm|]. split; [|split; [|reflexivity]].
  - intros t. split.
    + intros Ht. apply (Permutation_in _ (sort_rows_perm _ _)) in Ht.
      apply filter_In in Ht as [Hin Hs]. split; [exact Hin|].
      apply bool_decide_eq_true in Hs. exact Hs.
    + intros [Hin Hs]. apply (Permutation_in _ (Permutation_sym (sort_rows_perm _ _))).
      apply filter_In. split; [exact Hin|]. apply bool_decide_eq_true. exact Hs.
  - apply sort_rows_sorted.
    + intros a b H. apply precedes_createdAt, H.
    + intros a b H. apply precedes_createdAt_total, H.
    + intros a b c. unfold created_in_order. lia.
Qed.

(** ** The consumer and the queue *)

Lemma keeps_queue_cacheManager_get key : keeps queue (cacheManager_get key).
Proof. intros w. unfold cacheManager_get. destruct (fst _); reflexivity. Qed.

Lemma keeps_queue_cacheManager_set key v : keeps queue (cacheManager_set key v).
Proof. intros w. unfold cacheManager_set. destruct (fst _); reflexivity. Qed.

Lemma keeps_queue_repo_findOne id : keeps queue (repo_findOne id).
Proof. intros w. reflexivity. Qed.

Lemma keeps_queue_repo_save t : keeps queue (repo_save t).
Proof. intros w. reflexivity. Qed.

Lemma keeps_db_repo_findOne id : keeps db (repo_findOne id).
Proof. intros w. reflexivity. Qed.

Lemma emits_repo_findOne (Q : Event -> Prop) id : Q DbRead -> emits Q (repo_findOne id).
Proof. intros H w. repeat constructor. exact H. Qed.

Lemma emits_repo_save (Q : Event -> Prop) t : Q DbWrite -> emits Q (repo_save t).
Proof. intros H w. repeat constructor. exact H. Qed.

#[local] Hint Resolve keeps_queue_cacheManager_get keeps_queue_cacheManager_set
  keeps_queue_repo_findOne keeps_queue_repo_save keeps_db_repo_findOne
  emits_repo_findOne emits_repo_save : effects.

#[local] Hint Extern 1 (not_db_write _) => exact I : effects.

Lemma updateStatus_keeps_queue id s : keeps queue (updateStatus id s).
Proof. unfold updateStatus. apply keeps_bind; [effects|]. intros [t|]; effects. Qed.

Lemma updateStatus_not_enqueue id s : emits not_enqueue (updateStatus id s).
Proof. unfold updateStatus. apply emits_bind; [effects|]. intros [t|]; effects. Qed.

Lemma findOne_keeps_queue id : keeps queue (findOne id).
Proof.
  unfold findOne. apply keeps_bind; [effects|]. intros [v|]; [effects|].
  apply keeps_bind; [effects|]. intros [t|]; effects.
Qed.

Lemma findOne_not_enqueue id : emits not_enqueue (findOne id).
Proof.
  unfold findOne. apply emits_bind; [effects|]. intros [v|]; [effects|].
  apply emits_bind; [effects|]. intros [t|]; effects.
Qed.

Lemma findOne_keeps_db id : keeps db (findOne id).
Proof.
  unfold findOne. apply keeps_bind; [effects|]. intros [v|]; [effects|].
  apply keeps_bind; [effects|]. intros [t|]; effects.
Qed.

Lemma findOne_not_db_write id : emits not_db_write (findOne id).
Proof.
  unfold findOne. apply emits_bind; [effects|]. intros [v|]; [effects|].
  apply emits_bind; [effects|]. intros [t|]; effects.
Qed.

#[local] Hint Resolve updateStatus_keeps_queue updateStatus_not_enqueue
  findOne_keeps_queue findOne_not_enqueue findOne_keeps_db findOne_not_db_write : effects.

Lemma handleStatusUpdate_keeps_queue job : keeps queue (handleStatusUpdate job).
Proof.
  unfold handleStatusUpdate. destruct (_ || _); [effects|].
  destruct (recognized_status _); effects.
Qed.

Lemma handleStatusUpdate_not_enqueue job : emits not_enqueue (handleStatusUpdate job).
Proof.
  unfold handleStatusUpdate. destruct (_ || _); [effects|].
  destruct (recognized_status _); effects.
Qed.

Lemma handleOverdueTasks_keeps_queue job : keeps queue (handleOverdueTasks job).
Proof. unfold handleOverdueTasks. destruct (Js.falsy _); effects. Qed.

Lemma handleOverdueTasks_not_enqueue job : emits not_enqueue (handleOverdueTasks job).
Proof. unfold handleOverdueTasks. destruct (Js.falsy _); effects. Qed.

Lemma handleOverdueTasks_keeps_db job : keeps db (handleOverdueTasks job).
Proof. unfold handleOverdueTasks. destruct (Js.falsy _); effects. Qed.

Lemma handleOverdueTasks_not_db_write job : emits not_db_write (handleOverdueTasks job).
Proof. unfold handleOverdueTasks. destruct (Js.falsy _); effects. Qed.

(** X17: the consumer never enqueues: whatever the job and whatever
    happens while it is handled, [process] makes no enqueue attempt and
    leaves the queue as it found it, so handling a status update cannot
    trigger a further job. *)
Theorem process_never_enqueues (job : Job) (w : World) :
  queue (post (process job w)) = queue w
  /\ Forall not_enqueue (evs (process job w)).
Proof.
  split.
  - revert w. change (keeps queue (process job)). unfold process.
    apply keeps_bind; [effects|]. intros _. apply keeps_try_catch; [|effects].
    destruct (String.eqb _ _); [apply handleStatusUpdate_keeps_queue|].
    destruct (String.eqb _ _); [apply handleOverdueTasks_keeps_queue | effects].
  - revert w. change (emits not_enqueue (process job)). unfold process.
    apply emits_bind; [effects|]. intros _. apply emits_try_catch; [|effects].
    destruct (String.eqb _ _); [apply handleStatusUpdate_not_enqueue|].
    destruct (String.eqb _ _); [apply handleOverdueTasks_not_enqueue | effects].
Qed.

Lemma recognized_status_name (s : TaskStatus) :
  recognized_status (Js.JStr (status_name s)) = Some s
  /\ Js.falsy (Js.JStr (status_name s)) = false.
Proof. destruct s; split; reflexivity. Qed.

(** X18: a well-formed 'task-status-update' job for a stored task is
    carried out: with the cache answering, the consumer stores the new
    status and returns [{ success: true, taskId, newStatus }]. *)
Theorem process_status_update_succeeds (job : Job) (id : string) (s : TaskStatus)
    (t : Task) (w : World) :
  job_name job = "task-status-update" ->
  job_data job = status_payload id s ->
  id <> "" ->
  cache_healthy w ->
  find (fun t => String.eqb (task_id t) id) (db w) = Some t ->
  res (process job w)
  = Ok {| success := true; error := None; r_taskId := Some (Js.JStr (task_id t));
          r_newStatus := Some (status_name s) |}
  /\ find (fun t => String.eqb (task_id t) id) (db (post (process job w)))
     = Some (set_status s t).
Proof.
  intros Hname Hdata Hne Hw Hf.
  destruct (recognized_status_name s) as [Hrec Hfalsy].
  assert (Hid : Js.falsy (Js.JStr id) = false) by (simpl; apply String.eqb_neq, Hne).
  pose proof (updateStatus_safe id s t w Hw Hf) as Hr.
  destruct (updateStatus_post id s t w Hw Hf) as (_ & _ & Hd).
  unfold process. run. rewrite res_try_catch, post_try_catch.
  rewrite Hname. cbn [String.eqb Ascii.eqb Bool.eqb].
  unfold handleStatusUpdate. rewrite Hdata. cbn [taskId status status_payload].
  rewrite Hid, Hfalsy, Hrec. cbn [orb Js.to_string].
  rewrite res_try_catch, post_try_catch. run. rewrite Hr. run.
  split; [reflexivity|]. rewrite Hd. apply (find_replace_row id t); [exact Hf | reflexivity].
Qed.

Lemma process_status_update_succeeds_witness :
  res (process (status_job "a" COMPLETED) (world0 [sample_task "a" PENDING 1]))
  = Ok {| success := true; error := None; r_taskId := Some (Js.JStr "a");
          r_newStatus := Some "COMPLETED" |}.
Proof.
  apply (process_status_update_succeeds (status_job "a" COMPLETED) "a" COMPLETED
           (sample_task "a" PENDING 1) (world0 [sample_task "a" PENDING 1])).
  - reflexivity.
  - reflexivity.
  - discriminate.
  - constructor.
  - reflexivity.
Defined.

(** X19: a well-formed 'task-status-update' job for a task the store does
    not hold fails by exception: the consumer throws [NotFoundException]
    (the outcome the queue retries) and the store and the cache stay as
    they were. *)
Theorem process_status_update_missing (job : Job) (id : string) (s : TaskStatus) (w : World) :
  job_name job = "task-status-update" ->
  job_data job = status_payload id s ->
  id <> "" ->
  find (fun t => String.eqb (task_id t) id) (db w) = None ->
  verdict (process job w) = Retryable (not_found id)
  /\ db (post (process job w)) = db w
  /\ cache (post (process job w)) = cache w.
Proof.
  intros Hname Hdata Hne Hf.
  destruct (recognized_status_name s) as [Hrec Hfalsy].
  assert (Hid : Js.falsy (Js.JStr id) = false) by (simpl; apply String.eqb_neq, Hne).
  unfold verdict, process. run. rewrite res_try_catch, post_try_catch.
  rewrite Hname. cbn [String.eqb Ascii.eqb Bool.eqb].
  unfold handleStatusUpdate. rewrite Hdata. cbn [taskId status status_payload].
  rewrite Hid, Hfalsy, Hrec. cbn [orb Js.to_string].
  rewrite res_try_catch, post_try_catch. run.
  unfold updateStatus. run. rewrite Hf. run. repeat split.
Qed.

Lemma process_status_update_missing_witness :
  verdict (process (status_job "zz" COMPLETED) (world0 two_tasks))
  = Retryable (not_found "zz").
Proof.
  apply (process_status_update_missing (status_job "zz" COMPLETED) "zz" COMPLETED
           (world0 two_tasks)).
  - reflexivity.
  - reflexivity.
  - discriminate.
  - reflexivity.
Defined.

(** X20: an 'overdue-tasks-notification' job only reads: whatever its
    payload and whatever the cache does, the store is left as it was and no
    write is made to it; for a stored task and an answering cache the
    consumer returns [{ success: true, taskId }]. *)
Theorem process_overdue_reads_only (job : Job) (w : World) :
  job_name job = "overdue-tasks-notification" ->
  db (post (process job w)) = db w
  /\ Forall not_db_write (evs (process job w))
  /\ (forall id t,
         taskId (job_data job) = Js.JStr id -> id <> "" ->
         cache_healthy w ->
         cache w !! task_key id = None ->
         find (fun t => String.eqb (task_id t) id) (db w) = Some t ->
         res (process job w)
         = Ok {| success := true; error := None; r_taskId := Some (Js.JStr id);
                 r_newStatus := None |}).
Proof.
  intros Hname. split; [|split].
  - revert w. change (keeps db (process job)). unfold process.
    apply keeps_bind; [effects|]. intros _. apply keeps_try_catch; [|effects].
    rewrite Hname. cbn [String.eqb Ascii.eqb Bool.eqb]. apply handleOverdueTasks_keeps_db.
  - revert w. change (emits not_db_write (process job)). unfold process.
    apply emits_bind; [effects|]. intros _. apply emits_try_catch; [|effects].
    rewrite Hname. cbn [String.eqb Ascii.eqb Bool.eqb]. apply handleOverdueTasks_not_db_write.
  - intros id t Hid Hne Hw Hmiss Hf.
    assert (Hfalsy : Js.falsy (Js.JStr id) = false) by (simpl; apply String.eqb_neq, Hne).
    pose proof (findOne_miss id t w Hw Hmiss Hf) as Hr.
    unfold process. run. rewrite res_try_catch.
    rewrite Hname. cbn [String.eqb Ascii.eqb Bool.eqb].
    unfold handleOverdueTasks. rewrite Hid, Hfalsy.
    rewrite res_try_catch. run. cbn [Js.to_string]. rewrite Hr. run. reflexivity.
Qed.

Lemma process_overdue_reads_only_witness :
  db (post (process (overdue_job "a") (world0 two_tasks))) = two_tasks.
Proof.
  apply (process_overdue_reads_only (overdue_job "a") (world0 two_tasks)). reflexivity.
Defined.

(** ** The overdue scan *)

Lemma settle_one (id : string) (w : World) :
  try_catch
    (do_ taskQueue_add "overdue-tasks-notification"
           {| taskId := Js.JStr id; status := Js.JUndefined |} 3 2000;
     ret true)
    (fun _ => ret false) w
  = if fst (next_fault (queueFaults w))
    then {| res := Ok false;
            post := with_queueFaults (snd (next_fault (queueFaults w))) w;
            evs := [QueueAdd "overdue-tasks-notification"
                      {| taskId := Js.JStr id; status := Js.JUndefined |} false] |}
    else {| res := Ok true;
            post := with_queue (queue w ++ [notification id])
                      (with_queueFaults (snd (next_fault (queueFaults w))) w);
            evs := [QueueAdd "overdue-tasks-notification"
                      {| taskId := Js.JStr id; status := Js.JUndefined |} true] |}.
Proof.
  unfold try_catch, bind, taskQueue_add, ret.
  destruct (fst (next_fault (queueFaults w))); reflexivity.
Qed.

Lemma enqueue_attempts_cons e tr :
  enqueue_attempts (e :: tr)
  = ((if is_enqueue e then 1 else 0) + enqueue_attempts tr)%nat.
Proof. unfold enqueue_attempts. simpl. destruct (is_enqueue e); reflexivity. Qed.

Lemma settle_adds_spec (ids : list string) (w : World) :
  exists results added,
    res (settle_adds ids w) = Ok results
    /\ length results = length ids
    /\ db (post (settle_adds ids w)) = db w
    /\ cache (post (settle_adds ids w)) = cache w
    /\ enqueue_attempts (evs (settle_adds ids w)) = length ids
    /\ Forall not_db_write (evs (settle_adds ids w))
    /\ queue (post (settle_adds ids w)) = queue w ++ added
    /\ length added = length (List.filter (fun r => r) results)
    /\ Forall (fun j => exists id, In id ids /\ j = notification id) added
    /\ (Forall (fun b => b = false) (queueFaults w) -> added = map notification ids).
Proof.
  revert w. induction ids as [|id rest IH]; intros w.
  - exists [], []. cbn. rewrite app_nil_r. repeat split; constructor.
  - cbn [settle_adds]. rewrite res_bind, post_bind, evs_bind, settle_one.
    destruct (fst (next_fault (queueFaults w))) eqn:E; cbn [res post evs].
    + destruct (IH (with_queueFaults (snd (next_fault (queueFaults w))) w))
        as (results & added & Hr & Hl & Hd & Hc & Ha & Hw & Hq & Hn & Hj & Hh).
      exists (false :: results), added.
      rewrite res_bind, post_bind, evs_bind, Hr. cbn [res post evs ret].
      rewrite app_nil_r. cbn [length List.filter].
      split; [reflexivity|]. split; [lia|]. split; [exact Hd|]. split; [exact Hc|].
      split; [rewrite enqueue_attempts_app, Ha; reflexivity|].
      split; [constructor; [exact I | exact Hw]|].
      split; [exact Hq|]. split; [exact Hn|].
      split; [eapply Forall_impl; [exact Hj|]; intros j (i & Hi & ->); eauto using in_cons|].
      intros Hf. destruct (healthy_next _ Hf) as [E' _]. congruence.
    + destruct (IH (with_queue (queue w ++ [notification id])
                      (with_queueFaults (snd (next_fault (queueFaults w))) w)))
        as (results & added & Hr & Hl & Hd & Hc & Ha & Hw & Hq & Hn & Hj & Hh).
      exists (true :: results), (notification id :: added).
      rewrite res_bind, post_bind, evs_bind, Hr. cbn [res post evs ret].
      rewrite app_nil_r. cbn [length List.filter].
      split; [reflexivity|]. split; [lia|]. split; [exact Hd|]. split; [exact Hc|].
      split; [rewrite enqueue_attempts_app, Ha; reflexivity|].
      split; [constructor; [exact I | exact Hw]|].
      split; [rewrite Hq; cbn [queue with_queue]; rewrite <- app_assoc; reflexivity|].
      split; [lia|].
      split; [constructor;
              [exists id; split; [left; reflexivity | reflexivity]
              |eapply Forall_impl; [exact Hj|]; intros j (i & Hi & ->); eauto using in_cons]|].
      intros Hf. destruct (healthy_next _ Hf) as [_ Hf']. cbn [map]. f_equal.
      apply Hh. exact Hf'.
Qed.

Lemma overdue_ids_tasks (w : World) (id : string) :
  In id (overdue_ids w) ->
  exists t, In t (db w) /\ task_id t = id /\ task_status t = PENDING
            /\ exists due, task_dueDate t = Some due /\ due < clock w.
Proof.
  unfold overdue_ids. intros H. apply in_map_iff in H as (t & <- & Ht).
  apply filter_In in Ht as [Hin Ho]. exists t. split; [exact Hin|]. split; [reflexivity|].
  unfold overdue in Ho. destruct (task_dueDate t) as [d|]; [|discriminate].
  apply andb_true_iff in Ho as [Hd Hs]. apply bool_decide_eq_true in Hs.
  split; [exact Hs|]. exists d. split; [reflexivity | lia].
Qed.

(** X21: the overdue scan never throws and never changes the store or the
    cache, whatever the queue does; it makes exactly one enqueue attempt
    for every stored task that is PENDING with a due date before now, so
    a failed attempt does not keep the others from being made. *)
Theorem checkOverdueTasks_attempts (w : World) :
  res (checkOverdueTasks w) = Ok tt
  /\ db (post (checkOverdueTasks w)) = db w
  /\ cache (post (checkOverdueTasks w)) = cache w
  /\ enqueue_attempts (evs (checkOverdueTasks w))
     = length (List.filter (overdue (clock w)) (db w))
  /\ Forall not_db_write (evs (checkOverdueTasks w)).
Proof.
  unfold checkOverdueTasks, repo_find_overdue. run.
  rewrite res_try_catch, post_try_catch, evs_try_catch. run.
  change (map task_id (List.filter (overdue (clock w)) (db w))) with (overdue_ids w).
  assert (Hlen : length (overdue_ids w) = length (List.filter (overdue (clock w)) (db w)))
    by apply length_map.
  rewrite <- Hlen.
  destruct (overdue_ids w) as [|i r] eqn:Hids.
  - run. repeat split. repeat constructor.
  - run. rewrite <- Hids.
    destruct (settle_adds_spec (overdue_ids w) w)
      as (results & added & Hr & Hl & Hd & Hc & Ha & Hw & Hq & Hn & Hj & Hh).
    rewrite Hr. run. split; [reflexivity|]. split; [exact Hd|]. split; [exact Hc|].
    split.
    + rewrite !enqueue_attempts_cons, !enqueue_attempts_app, Ha. cbn. lia.
    + repeat (apply Forall_cons; split; [exact I|]).
      repeat (apply Forall_app; split); [exact Hw | repeat constructor..].
Qed.

(** X22: the jobs the overdue scan adds to the queue are
    'overdue-tasks-notification' jobs (3 attempts, exponential backoff from
    2000 ms) for stored tasks that are PENDING and past their due date, at
    most one per such task; when every enqueue succeeds there is exactly
    one job per such task, in the order the store lists them. *)
Theorem checkOverdueTasks_enqueues (w : World) :
  exists added,
    queue (post (checkOverdueTasks w)) = queue w ++ added
    /\ (length added <= length (overdue_ids w))%nat
    /\ Forall (fun j =>
                 exists t due,
                   In t (db w) /\ j = notification (task_id t)
                   /\ task_status t = PENDING
                   /\ task_dueDate t = Some due /\ due < clock w) added
    /\ (Forall (fun b => b = false) (queueFaults w) ->
        added = map notification (overdue_ids w)).
Proof.
  unfold checkOverdueTasks, repo_find_overdue. run.
  rewrite res_try_catch, post_try_catch. run.
  change (map task_id (List.filter (overdue (clock w)) (db w))) with (overdue_ids w).
  destruct (overdue_ids w) as [|i r] eqn:Hids.
  - run. exists []. rewrite app_nil_r. repeat split; constructor.
  - run. rewrite <- Hids.
    destruct (settle_adds_spec (overdue_ids w) w)
      as (results & added & Hr & Hl & Hd & Hc & Ha & Hw & Hq & Hn & Hj & Hh).
    rewrite Hr. run. exists added. split; [exact Hq|]. split.
    + rewrite Hn, <- Hl. apply filter_length_le.
    + split; [|exact Hh].
      eapply Forall_impl; [exact Hj|]. intros j (id & Hin & ->).
      destruct (overdue_ids_tasks w id Hin) as (t & Ht & <- & Hs & due & Hdue & Hlt).
      exists t, due. repeat split; assumption.
Qed.

Lemma checkOverdueTasks_enqueues_witness :
  let w := world0 [due_task "a" PENDING (Some 10); due_task "b" COMPLETED (Some 10);
                   due_task "c" PENDING (Some 2000); due_task "d" PENDING None;
                   due_task "e" PENDING (Some 999)] in
  exists added,
    queue (post (checkOverdueTasks w)) = added
    /\ added = [notification "a"; notification "e"].
Proof.
  destruct (checkOverdueTasks_enqueues
              (world0 [due_task "a" PENDING (Some 10); due_task "b" COMPLETED (Some 10);
                       due_task "c" PENDING (Some 2000); due_task "d" PENDING None;
                       due_task "e" PENDING (Some 999)]))
    as (added & Hq & _ & _ & Hh).
  exists added. split; [exact Hq|]. apply Hh. constructor.
Defined.

(** ** Redaction *)

Section Redaction.

Import Redact.

(** Induction over a value and the values nested in it. *)
Lemma value_nested_ind (P : value -> Prop) :
  (forall p, P (Prim p)) ->
  (forall name, P (Func name)) ->
  (forall items, Forall P items -> P (Arr items)) ->
  (forall members, Forall (fun kv => P (snd kv)) members -> P (Obj members)) ->
  (forall class members, Forall (fun kv => P (snd kv)) members -> P (Other class members)) ->
  (forall class, P (Throwing class)) ->
  forall v, P v.
Proof.
  intros HP HF HA HO HX HT. fix IH 1. intros [p|name|items|members|class members|class].
  - apply HP.
  - apply HF.
  - apply HA. induction items as [|x r IHr]; constructor; [apply IH | exact IHr].
  - apply HO. induction members as [|[k x] r IHr]; constructor; [apply IH | exact IHr].
  - apply HX. induction members as [|[k x] r IHr]; constructor; [apply IH | exact IHr].
  - apply HT.
Qed.

(** X23: in a redacted body no sensitive key ('password', 'token',
    'access_token', 'refresh_token'), at any depth of objects and arrays,
    holds anything but the marker '[REDACTED]'. *)
Theorem redact_clean (v : value) : clean (redact v).
Proof.
  induction v as [p|name|items IH|members IH|class members IH|class] using value_nested_ind;
    cbn [redact clean redact_members].
  - exact I.
  - exact I.
  - induction IH as [|x r Hx Hr IHr]; cbn [map]; [exact I | split; assumption].
  - induction IH as [|[k x] r Hx Hr IHr]; cbn [map]; [exact I|].
    split; [|exact IHr]. cbn [snd] in Hx. destruct (sensitive k); [reflexivity | exact Hx].
  - induction IH as [|[k x] r Hx Hr IHr]; cbn [map]; [exact I|].
    split; [|exact IHr]. cbn [snd] in Hx. destruct (sensitive k); [reflexivity | exact Hx].
  - exact I.
Qed.

Lemma redact_members_idempotent (members : list (string * value)) :
  Forall (fun kv => redact (redact (snd kv)) = redact (snd kv)) members ->
  redact_members redact (redact_members redact members) = redact_members redact members.
Proof.
  intros IH. unfold redact_members. rewrite List.map_map.
  induction IH as [|[k x] r Hx Hr IHr]; cbn [map]; [reflexivity|].
  rewrite IHr. cbn [snd] in Hx. destruct (sensitive k) eqn:E; [reflexivity|].
  rewrite Hx. reflexivity.
Qed.

(** X24: redacting is idempotent: a redacted body is redacted to itself. *)
Theorem redact_idempotent (v : value) : redact (redact v) = redact v.
Proof.
  induction v as [p|name|items IH|members IH|class members IH|class] using value_nested_ind;
    cbn [redact].
  - reflexivity.
  - reflexivity.
  - f_equal. rewrite List.map_map.
    induction IH as [|x r Hx Hr IHr]; cbn [map]; [reflexivity|]. rewrite Hx, IHr. reflexivity.
  - f_equal. apply redact_members_idempotent, IH.
  - f_equal. apply redact_members_idempotent, IH.
  - reflexivity.
Qed.

Lemma skeleton_redact_members (members : list (string * value)) :
  Forall (fun kv => skeleton (redact (snd kv)) = skeleton (snd kv)) members ->
  map (fun kv => match kv with
                 | (key, x) => (key, if sensitive key then Prim Js.JNull else skeleton x)
                 end) (redact_members redact members)
  = map (fun kv => match kv with
                   | (key, x) => (key, if sensitive key then Prim Js.JNull else skeleton x)
                   end) members.
Proof.
  intros IH. unfold redact_members. rewrite List.map_map.
  induction IH as [|[k x] r Hx Hr IHr]; cbn [map]; [reflexivity|].
  rewrite IHr. cbn [snd] in Hx. destruct (sensitive k); [reflexivity|].
  rewrite Hx. reflexivity.
Qed.

Lemma property_redact_members (key : string) (members : list (string * value)) :
  property key (redact_members redact members)
  = match property key members with
    | Some x => Some (if sensitive key then REDACTED else redact x)
    | None => None
    end.
Proof.
  unfold property, redact_members.
  induction members as [|[k x] r IH]; cbn [map find fst snd]; [reflexivity|].
  destruct (String.eqb_spec k key) as [->|Hne]; [reflexivity | exact IH].
Qed.

(** What stands at the end of a path that enters no sensitive key is
    kept, redacted in turn. *)
Lemma at_path_redact (path : list step) (v x : value) :
  forallb open_step path = true ->
  at_path path v = Some x ->
  at_path path (redact v) = Some (redact x).
Proof.
  revert v. induction path as [|s rest IH]; intros v Hopen Hat.
  - injection Hat as <-. reflexivity.
  - cbn [forallb] in Hopen. apply andb_true_iff in Hopen as [Hs Hrest].
    destruct s as [key|i]; cbn [at_path] in Hat.
    + cbn [open_step] in Hs. apply negb_true_iff in Hs.
      destruct v as [p|name|items|members|class members|class]; try discriminate Hat.
      * cbn [redact at_path]. rewrite property_redact_members, Hs.
        destruct (property key members) as [y|]; [|discriminate Hat].
        exact (IH y Hrest Hat).
      * cbn [redact at_path]. rewrite property_redact_members, Hs.
        destruct (property key members) as [y|]; [|discriminate Hat].
        exact (IH y Hrest Hat).
    + destruct v as [p|name|items|members|class members|class]; try discriminate Hat.
      cbn [redact at_path]. rewrite nth_error_map.
      destruct (nth_error items i) as [y|]; [|discriminate Hat].
      exact (IH y Hrest Hat).
Qed.

(** X25: redacting changes nothing but the values of sensitive keys, the
    classes of objects and what cannot be read.  In every body, whatever
    key it holds, a primitive reached without entering a sensitive key
    stands in the redacted body at the same place, and the keys, their
    order and the nesting outside sensitive keys are kept.  Plain data (no
    [Date] or other class instance, nothing that throws) without a
    sensitive key comes back as it is; a [Date] comes back as [{}]. *)
Theorem redact_only_sensitive (v : value) :
  (forall path p,
      forallb open_step path = true ->
      at_path path v = Some (Prim p) ->
      at_path path (redact v) = Some (Prim p))
  /\ (forall path class members,
         forallb open_step path = true ->
         at_path path v = Some (Other class members) ->
         at_path path (redact v) = Some (Obj (redact_members redact members)))
  /\ skeleton (redact v) = skeleton v
  /\ (plain v -> redact v = v).
Proof.
  split; [|split; [|split]].
  - intros path p Hopen Hat. exact (at_path_redact path v (Prim p) Hopen Hat).
  - intros path class members Hopen Hat.
    exact (at_path_redact path v (Other class members) Hopen Hat).
  - induction v as [p|name|items IH|members IH|class members IH|class]
      using value_nested_ind; cbn [redact skeleton]; try reflexivity.
    + f_equal. rewrite List.map_map.
      induction IH as [|x r Hx Hr IHr]; cbn [map]; [reflexivity|].
      rewrite Hx, IHr. reflexivity.
    + f_equal. apply skeleton_redact_members, IH.
    + f_equal. apply skeleton_redact_members, IH.
  - induction v as [p|name|items IH|members IH|class members IH|class]
      using value_nested_ind; cbn [redact plain]; try reflexivity; try contradiction.
    + intros Hp. f_equal.
      induction IH as [|x r Hx Hr IHr]; cbn [map]; [reflexivity|].
      destruct Hp as [Hpx Hpr]. rewrite (Hx Hpx), (IHr Hpr). reflexivity.
    + intros Hp. f_equal. unfold redact_members.
      induction IH as [|[k x] r Hx Hr IHr]; cbn [map]; [reflexivity|].
      destruct Hp as [[Hk Hpx] Hpr]. cbn [snd] in Hx.
      rewrite Hk, (Hx Hpx), (IHr Hpr). reflexivity.
Qed.

Lemma redact_only_sensitive_witness :
  let body :=
    Obj [("email", Prim (Js.JStr "ann@example.org"));
         ("password", Prim (Js.JStr "s3cret"));
         ("profile", Obj [("name", Prim (Js.JStr "Ann"));
                          ("since", Other "Date" []);
                          ("token", Prim (Js.JStr "t0k3n"))])] in
  at_path [Key "profile"; Key "name"] (redact body) = Some (Prim (Js.JStr "Ann"))
  /\ at_path [Key "profile"; Key "since"] (redact body) = Some (Obj [])
  /\ redact (Obj [("title", Prim (Js.JStr "Plan")); ("tags", Arr [Prim (Js.JNum 1)])])
     = Obj [("title", Prim (Js.JStr "Plan")); ("tags", Arr [Prim (Js.JNum 1)])].
Proof.
  intros body. split; [|split].
  - apply (proj1 (redact_only_sensitive body)); reflexivity.
  - apply (proj1 (proj2 (redact_only_sensitive body)) _ "Date" []); reflexivity.
  - apply (proj2 (proj2 (proj2 (redact_only_sensitive
                    (Obj [("title", Prim (Js.JStr "Plan")); ("tags", Arr [Prim (Js.JNum 1)])]))))).
    simpl. tauto.
Defined.

End Redaction.

(** ** [CacheService] round trips *)

(** X26: with the cache answering, what [CacheService.set] stores under a
    key is what [CacheService.get] returns for it, and after
    [CacheService.delete] of the key [get] reports a miss. *)
Theorem CacheService_round_trip (key : string) (v : CacheValue) (ttl : option Z)
    (w : World) :
  cache_healthy w ->
  res (CacheService.get key (post (CacheService.set key v ttl w))) = Ok (Some v)
  /\ res (CacheService.get key
            (post (CacheService.delete key (post (CacheService.set key v ttl w)))))
     = Ok None.
Proof.
  intros Hw.
  assert (Hset : cache_to (insert key v) (CacheService.set key v ttl)).
  { unfold CacheService.set.
    eapply cache_to_ext;
      [|exact (cache_to_bind _ _ _ _ (cache_to_logger LLog ("Setting cache: " +:+ key))
                 (fun _ => cache_to_set key v))].
    reflexivity. }
  assert (Hdel : cache_to (delete key) (CacheService.delete key)).
  { unfold CacheService.delete.
    eapply cache_to_ext;
      [|exact (cache_to_bind _ _ _ _ (cache_to_logger LLog ("Deleting cache: " +:+ key))
                 (fun _ => cache_to_del key))].
    reflexivity. }
  assert (Hget : forall w', cache_healthy w' ->
                            res (CacheService.get key w') = Ok (cache w' !! key)).
  { intros w' Hw'. destruct (cache_healthy_next w' Hw') as [E _].
    unfold CacheService.get. run. unfold cacheManager_get. rewrite E. run. reflexivity. }
  destruct (Hset w Hw) as (Hc1 & Hh1 & _).
  destruct (Hdel _ Hh1) as (Hc2 & Hh2 & _).
  split.
  - rewrite (Hget _ Hh1), Hc1, lookup_insert_eq. reflexivity.
  - rewrite (Hget _ Hh2), Hc2, lookup_delete_eq. reflexivity.
Qed.

Lemma CacheService_round_trip_witness :
  res (CacheService.get "k"
         (post (CacheService.set "k" (CTask (sample_task "a" PENDING 1)) (Some 60)
                  (world0 []))))
  = Ok (Some (CTask (sample_task "a" PENDING 1))).
Proof.
  apply (CacheService_round_trip "k" (CTask (sample_task "a" PENDING 1)) (Some 60)
           (world0 [])).
  constructor.
Defined.

(** ** Bulk status updates and the reads that follow *)

Lemma find_mark_rows (ids : list string) (s : TaskStatus) (id : string) (t : Task)
    (rows : list Task) :
  In id ids ->
  find (fun t => String.eqb (task_id t) id) rows = Some t ->
  find (fun t => String.eqb (task_id t) id)
       (map (fun t => if id_in ids t then set_status s t else t) rows)
  = Some (set_status s t).
Proof.
  intros Hin. induction rows as [|r rows IH]; simpl; [discriminate|].
  destruct (String.eqb (task_id r) id) eqn:E.
  - intros [= <-]. apply String.eqb_eq in E.
    assert (Hr : id_in ids r = true).
    { unfold id_in. apply existsb_exists. exists id. split; [exact Hin|].
      apply String.eqb_eq, E. }
    rewrite Hr. simpl. rewrite (proj2 (String.eqb_eq _ _) E). reflexivity.
  - intros Hf. destruct (id_in ids r); simpl; rewrite E; apply IH, Hf.
Qed.

Lemma bulkUpdateStatus_cache (ids : list string) (s : TaskStatus) (w : World) :
  ids <> [] -> cache_healthy w ->
  cache (post (bulkUpdateStatus ids s w))
  = delete "tasks:stats"
      (delete "tasks:all" (fold_left (fun c id => delete (task_key id) c) ids (cache w)))
  /\ cache_healthy (post (bulkUpdateStatus ids s w)).
Proof.
  intros Hne Hw. unfold bulkUpdateStatus. destruct ids as [|i r]; [contradiction|].
  set (ids := i :: r). run. set (w1 := with_db _ w). pose (n := 0).
  pose proof (cache_to_bind _ _ _ _
                (cache_to_for_each (fun id => delete (task_key id)) ids
                   (fun id =>
                      do_ cacheManager_del ("task:" +:+ id);
                      try_catch
                        (taskQueue_add "task-status-update" (status_payload id s) 3 1000)
                        (fun err =>
                           logger LError ("Failed to enqueue job for " +:+ id +:+ ": "
                                          +:+ show_error err)))
                   (fun id =>
                      cache_to_bind _ _ _ _ (cache_to_del ("task:" +:+ id))
                        (fun _ => cache_to_guarded_enqueue "task-status-update"
                                    (status_payload id s) 3 1000
                                    (fun err => "Failed to enqueue job for " +:+ id +:+ ": "
                                                +:+ show_error err))))
                (fun _ => cache_to_bind _ _ _ _ cache_to_invalidate
                            (fun _ => cache_to_ret n)) w1 Hw) as (Hc & Hh & _).
  revert Hc Hh. run. intros Hc Hh. split; [exact Hc | exact Hh].
Qed.

(** X27: after [bulkUpdateStatus(ids, S)], [findOne] of every stored task
    among [ids] returns it with status [S], whatever the cache held for it
    before and whatever the queue did. *)
Theorem bulkUpdateStatus_then_findOne (ids : list string) (s : TaskStatus) (id : string)
    (t : Task) (w : World) :
  cache_healthy w ->
  In id ids ->
  find (fun t => String.eqb (task_id t) id) (db w) = Some t ->
  res (findOne id (post (bulkUpdateStatus ids s w))) = Ok (CTask (set_status s t)).
Proof.
  intros Hw Hin Hf.
  assert (Hne : ids <> []) by (intros ->; contradiction).
  destruct (bulkUpdateStatus_cache ids s w Hne Hw) as (Hc & Hh).
  apply findOne_miss; [exact Hh | | ].
  - fold (task_key id). rewrite Hc, !lookup_delete. repeat case_decide; try reflexivity.
    apply fold_delete_member, Hin.
  - rewrite (bulkUpdateStatus_db ids s w Hne). apply find_mark_rows; assumption.
Qed.

Lemma bulkUpdateStatus_then_findOne_witness :
  res (findOne "b"
         (post (bulkUpdateStatus ["a"; "b"] COMPLETED
                  (with_queueFaults [true; true] (world0 two_tasks)))))
  = Ok (CTask (sample_task "b" COMPLETED 2)).
Proof.
  apply (bulkUpdateStatus_then_findOne ["a"; "b"] COMPLETED "b" (sample_task "b" PENDING 2)
           (with_queueFaults [true; true] (world0 two_tasks))).
  - constructor.
  - right. left. reflexivity.
  - reflexivity.
Defined.

Lemma anonymizeIp_idempotent_witness :
  Guard.anonymizeIp (Guard.anonymizeIp "10.0.0.12") = Guard.anonymizeIp "10.0.0.12"
  /\ Guard.is_digit "x"%char = false.
Proof.
  split.
  - apply (proj1 (anonymizeIp_idempotent "10.0.0.12")).
  - apply (proj2 (anonymizeIp_idempotent "10.0.0.12") "10.0.0." "x"%char). reflexivity.
Defined.

(** ** Cache keys do not collide *)

Section KeyInjective.

Import Unescape.

Lemma append_assoc (a b c : string) : (a +:+ b) +:+ c = a +:+ (b +:+ c).
Proof.
  induction a as [|x a IH]; [reflexivity|].
  change (String x ((a +:+ b) +:+ c) = String x (a +:+ (b +:+ c))). f_equal. exact IH.
Qed.

(** Reading back the escape of a character gives the character. *)
Lemma first_escape_char (c : ascii) (x : string) :
  first (Js.escape_char c +:+ x) = Some (c, x).
Proof. destruct c as [[] [] [] [] [] [] [] []]; reflexivity. Qed.

Lemma escape_until_quote (s1 s2 x y : string) :
  Js.escape s1 +:+ String Js.dquote x = Js.escape s2 +:+ String Js.dquote y ->
  s1 = s2 /\ x = y.
Proof.
  revert s2. induction s1 as [|c1 r1 IH]; intros [|c2 r2]; cbn [Js.escape].
  - intros [= ->]. split; reflexivity.
  - rewrite append_assoc. intros H. apply (f_equal first) in H.
    rewrite first_escape_char in H. discriminate H.
  - rewrite append_assoc. intros H. apply (f_equal first) in H.
    rewrite first_escape_char in H. discriminate H.
  - rewrite !append_assoc. intros H. pose proof (f_equal first H) as Hf.
    rewrite !first_escape_char in Hf. injection Hf as -> Hr.
    destruct (IH r2 Hr) as [-> ->]. split; reflexivity.
Qed.

Lemma quote_append (s x : string) :
  Js.quote s +:+ x = String Js.dquote (Js.escape s +:+ String Js.dquote x).
Proof.
  unfold Js.quote. change (String Js.dquote ?a +:+ x) with (String Js.dquote (a +:+ x)).
  rewrite append_assoc. reflexivity.
Qed.

Lemma quote_prefix (s1 s2 x y : string) :
  Js.quote s1 +:+ x = Js.quote s2 +:+ y -> s1 = s2 /\ x = y.
Proof.
  rewrite !quote_append. intros [= H]. exact (escape_until_quote s1 s2 x y H).
Qed.

Lemma number_chars_pretty_N_go (x : N) (s : string) :
  number_chars s = true -> number_chars (pretty_N_go x s) = true.
Proof.
  revert s. induction (N.lt_wf_0 x) as [x _ IH]; intros s Hs.
  destruct (N.eq_dec x 0%N) as [->|Hx]; [rewrite pretty_N_go_0; exact Hs|].
  rewrite pretty_N_go_step by lia. apply IH; [apply N.div_lt; lia|].
  cbn [number_chars]. rewrite Hs, andb_true_r.
  unfold pretty_N_char. repeat case_match; reflexivity.
Qed.

Lemma number_chars_pretty (n : Z) : number_chars (pretty n) = true.
Proof.
  assert (HN : forall p, number_chars (pretty (Npos p)) = true).
  { intros p. unfold pretty, pretty_N. rewrite decide_False by discriminate.
    apply number_chars_pretty_N_go. reflexivity. }
  destruct n as [|p|p]; [reflexivity | apply HN |].
  change (number_chars (String "-" (pretty (Npos p))) = true).
  cbn [number_chars]. rewrite (HN p). reflexivity.
Qed.

(** Two runs of number characters, each followed by a delimiter, that make
    the same text are the same run. *)
Lemma number_run (a b x y : string) :
  number_chars a = true -> number_chars b = true ->
  delimited x -> delimited y ->
  a +:+ x = b +:+ y -> a = b /\ x = y.
Proof.
  intros Ha Hb Hx Hy. revert b Hb.
  induction a as [|c a IH]; intros [|d b] Hb H.
  - change (x = y) in H. subst y. split; reflexivity.
  - change (x = String d (b +:+ y)) in H. subst x.
    cbn [number_chars] in Hb. apply andb_true_iff in Hb as [Hd _].
    destruct Hx as [r [[= -> _]|[= -> _]]]; discriminate Hd.
  - change (String c (a +:+ x) = y) in H. subst y.
    cbn [number_chars] in Ha. apply andb_true_iff in Ha as [Hc _].
    destruct Hy as [r [[= -> _]|[= -> _]]]; discriminate Hc.
  - change (String c (a +:+ x) = String d (b +:+ y)) in H.
    injection H as -> H. cbn [number_chars] in Ha, Hb.
    apply andb_true_iff in Ha as [_ Ha]. apply andb_true_iff in Hb as [_ Hb].
    destruct (IH Ha b Hb H) as [-> ->]. split; reflexivity.
Qed.

(** A safe integer is written with its decimal digits. *)
Lemma stringify_int_safe (n : Z) :
  Js.safe_integer n = true -> Js.stringify_int n = pretty n.
Proof.
  intros Hs. unfold Js.stringify_int, Js.number_to_string. rewrite Hs.
  unfold Js.safe_integer in Hs. apply andb_true_iff in Hs as [Hlo Hhi].
  apply Z.leb_le in Hlo. apply Z.leb_le in Hhi.
  rewrite to_double_exact by lia.
  unfold Js.finite.
  assert (Hp : 2 ^ 53 < 2 ^ 1024) by (apply Z.pow_lt_mono_r; lia).
  destruct (Z.ltb_spec (Z.abs n) (2 ^ 1024)) as [_|Hge]; [reflexivity | lia].
Qed.

(** A member followed by a delimiter determines its property and value. *)
Lemma member_prefix (e1 e2 : Filter.entry) (x y : string) :
  Filter.safe_value (Filter.value_of e1) = true ->
  Filter.safe_value (Filter.value_of e2) = true ->
  delimited x -> delimited y ->
  member e1 +:+ x = member e2 +:+ y -> e1 = e2 /\ x = y.
Proof.
  intros Hs1 Hs2 Hx Hy. unfold member. rewrite !append_assoc. intros H.
  apply quote_prefix in H as [Hname H].
  assert (Hfield : Filter.field_of e1 = Filter.field_of e2).
  { destruct (Filter.field_of e1), (Filter.field_of e2); try reflexivity;
      discriminate Hname. }
  injection H as H.
  destruct e1, e2; try discriminate Hfield;
    cbn [Filter.value_of Filter.stringify_value Filter.safe_value] in H, Hs1, Hs2;
    change (EmptyString +:+ ?a) with a in H;
    rewrite ?(stringify_int_safe _ Hs1), ?(stringify_int_safe _ Hs2) in H;
    first [ apply quote_prefix in H as [-> ->]; split; reflexivity
          | apply number_run in H as [Hn ->];
            [apply (inj pretty) in Hn; subst; split; reflexivity
            | apply number_chars_pretty | apply number_chars_pretty
            | exact Hx | exact Hy] ].
Qed.

(** What follows the first member of an object: the closing brace, or a
    comma and the other members. *)
Lemma members_cons (e : Filter.entry) (r : list Filter.entry) :
  Js.join "," (map member (e :: r)) +:+ "}" =
  member e +:+
    match r with
    | [] => "}"
    | _ :: _ => String "," (Js.join "," (map member r) +:+ "}")
    end.
Proof.
  destruct r as [|e' r]; [reflexivity|].
  change (Js.join "," (map member (e :: e' :: r)))
    with (member e +:+ "," +:+ Js.join "," (map member (e' :: r))).
  rewrite append_assoc.
  change (("," +:+ ?a) +:+ ?b) with (String "," (a +:+ b)).
  reflexivity.
Qed.

Lemma members_inj (l1 l2 : list Filter.entry) :
  Filter.safe l1 -> Filter.safe l2 ->
  Js.join "," (map member l1) +:+ "}" = Js.join "," (map member l2) +:+ "}" ->
  l1 = l2.
Proof.
  intros Hs1. revert l2.
  assert (Hd : forall r : list Filter.entry,
    delimited match r with
              | [] => "}"
              | _ :: _ => String "," (Js.join "," (map member r) +:+ "}")
              end).
  { intros [|e r]; eexists; [right|left]; reflexivity. }
  induction Hs1 as [|e1 r1 He1 Hr1 IH]; intros [|e2 r2] Hs2.
  - reflexivity.
  - rewrite members_cons. unfold member. rewrite append_assoc, quote_append.
    discriminate.
  - rewrite members_cons. unfold member. rewrite append_assoc, quote_append.
    discriminate.
  - apply List.Forall_cons_iff in Hs2 as [He2 Hr2].
    rewrite !members_cons. intros H.
    apply member_prefix in H as [-> H]; [|exact He1|exact He2|apply Hd|apply Hd].
    f_equal. destruct r1 as [|a1 r1], r2 as [|a2 r2]; try discriminate H.
    + reflexivity.
    + injection H as H. exact (IH (a2 :: r2) Hr2 H).
Qed.

Lemma stringify_members (f : Filter.t) :
  Filter.stringify f = String "{" (Js.join "," (map member f) +:+ "}").
Proof.
  unfold Filter.stringify, Js.stringify_object. rewrite map_map. reflexivity.
Qed.

Lemma same_key_same_filter (f1 f2 : Filter.t) :
  Filter.safe f1 -> Filter.safe f2 ->
  getCacheKey f1 = getCacheKey f2 -> f1 = f2.
Proof.
  intros Hs1 Hs2. unfold getCacheKey. rewrite !stringify_members. intros Hkey.
  injection Hkey as Hkey. exact (members_inj f1 f2 Hs1 Hs2 Hkey).
Qed.

(** X28: [getCacheKey] gives different filters different keys: two filter
    objects whose numbers are safe integers and that differ in a property,
    in a value or in the order of their properties are never cached under
    the same entry. *)
Theorem getCacheKey_injective (f1 f2 : Filter.t) :
  Filter.safe f1 -> Filter.safe f2 ->
  f1 <> f2 -> getCacheKey f1 <> getCacheKey f2.
Proof.
  intros Hs1 Hs2 Hne Hkey. exact (Hne (same_key_same_filter f1 f2 Hs1 Hs2 Hkey)).
Qed.

Lemma getCacheKey_injective_witness :
  getCacheKey [Filter.Status "PENDING"; Filter.PageNo 1] <>
  getCacheKey [Filter.Status "PENDING"; Filter.PageNo 10].
Proof.
  apply getCacheKey_injective; [repeat constructor | repeat constructor | discriminate].
Defined.

End KeyInjective.

(** X29: a page cached for one filter is not served for another.  For
    two different filters whose numbers are safe integers and whose paging
    the store runs: after [findAll] has cached the page of the first,
    [findAll] with the second, which has no entry of its own, queries the
    store, and both pages are then cached side by side. *)
Theorem findAll_other_filter_queries (f1 f2 : Filter.t) (w : World) :
  cache_healthy w ->
  Filter.safe f1 -> Filter.safe f2 ->
  refused (build_query f1) = None ->
  refused (build_query f2) = None ->
  f1 <> f2 ->
  cache w !! getCacheKey f1 = None ->
  cache w !! getCacheKey f2 = None ->
  let first := findAll f1 w in
  let second := findAll f2 (post first) in
  exists p1 p2,
    res first = Ok (CPage p1)
    /\ res second = Ok (CPage p2)
    /\ In DbRead (evs second)
    /\ cache (post second) !! getCacheKey f1 = Some (CPage p1)
    /\ cache (post second) !! getCacheKey f2 = Some (CPage p2).
Proof.
  intros Hw Hs1 Hs2 Hq1 Hq2 Hne Hm1 Hm2 first second.
  assert (Hk : getCacheKey f1 <> getCacheKey f2).
  { intros Hkey. exact (Hne (same_key_same_filter f1 f2 Hs1 Hs2 Hkey)). }
  destruct (findAll_miss_post f1 w Hw Hm1 Hq1) as (p1 & Hr1 & Hc1 & Hh1 & _).
  assert (Hm2' : cache (post first) !! getCacheKey f2 = None).
  { subst first. rewrite Hc1, lookup_insert_ne by exact Hk. exact Hm2. }
  destruct (findAll_miss_post f2 (post first) Hh1 Hm2' Hq2) as (p2 & Hr2 & Hc2 & _ & Hread).
  exists p1, p2. split; [exact Hr1|]. split; [exact Hr2|]. split; [exact Hread|].
  subst second. rewrite Hc2. split.
  - rewrite lookup_insert_ne by (apply not_eq_sym, Hk).
    subst first. rewrite Hc1. apply lookup_insert_eq.
  - apply lookup_insert_eq.
Qed.

Lemma findAll_other_filter_queries_witness :
  let w := world0 two_tasks in
  In DbRead (evs (findAll filter_page_first (post (findAll filter_status_first w)))).
Proof.
  destruct (findAll_other_filter_queries filter_status_first filter_page_first
              (world0 two_tasks)) as (p1 & p2 & _ & _ & H & _).
  - constructor.
  - repeat constructor.
  - repeat constructor.
  - reflexivity.
  - reflexivity.
  - discriminate.
  - reflexivity.
  - reflexivity.
  - exact H.
Defined.

(** ** Paging the store refuses *)

(** X30: [findAll] does not check the paging it is given.  With the cache
    answering and no entry for the filter, a negative [limit], or a
    positive [limit] with a [page] below one, makes the store refuse the
    statement: [findAll] throws the store's [QueryFailedError], caches
    nothing and leaves the store as it is, so that the same call fails
    again. *)
Theorem findAll_refused_paging (filter : Filter.t) (w : World) :
  let page := default 1 (Filter.get_num Filter.Fpage filter) in
  let limit := default 10 (Filter.get_num Filter.Flimit filter) in
  cache_healthy w ->
  cache w !! getCacheKey filter = None ->
  limit < 0 \/ (0 < limit /\ page < 1) ->
  exists message,
    res (findAll filter w) = Throw (QueryFailedError message)
    /\ cache (post (findAll filter w)) = cache w
    /\ db (post (findAll filter w)) = db w
    /\ res (findAll filter (post (findAll filter w))) = Throw (QueryFailedError message).
Proof.
  intros page limit Hw Hmiss Hbad.
  destruct (refused (build_query filter)) as [message|] eqn:Hq.
  - exists message.
    destruct (findAll_refused filter message w Hw Hmiss Hq) as [Hr Hc].
    assert (Hh : cache_healthy (post (findAll filter w)) /\ db (post (findAll filter w)) = db w).
    { destruct (cache_healthy_next w Hw) as [E Hw1].
      unfold findAll. run. unfold cacheManager_get. rewrite E. cbn [res post].
      rewrite Hmiss. run. rewrite !(getManyAndCount_refused _ _ _ Hq). run.
      split; [exact Hw1 | reflexivity]. }
    destruct Hh as [Hh Hd].
    split; [exact Hr|]. split; [exact Hc|]. split; [exact Hd|].
    apply (findAll_refused filter message _ Hh); [rewrite Hc; exact Hmiss | exact Hq].
  - exfalso. destruct (refused_invalid filter Hbad) as [message Hm]. congruence.
Qed.

Lemma findAll_refused_paging_witness :
  res (findAll [Filter.PageNo 0] (world0 two_tasks))
  = Throw (QueryFailedError "OFFSET must not be negative")
  /\ res (findAll [Filter.Limit (-5)] (world0 two_tasks))
     = Throw (QueryFailedError "LIMIT must not be negative").
Proof.
  split.
  - destruct (findAll_refused_paging [Filter.PageNo 0] (world0 two_tasks))
      as (message & Hr & _); [constructor | reflexivity | right; split; reflexivity|].
    rewrite Hr. vm_compute in Hr. injection Hr as <-. reflexivity.
  - destruct (findAll_refused_paging [Filter.Limit (-5)] (world0 two_tasks))
      as (message & Hr & _); [constructor | reflexivity | left; reflexivity|].
    rewrite Hr. vm_compute in Hr. injection Hr as <-. reflexivity.
Defined.
